(** * Job-shop scheduling model builder

    A shallow embedding of [examples/job_shop_problem.py]: the instance
    class [Data], the model class [JSPModel] (variables, constraints,
    objective, extraction, formatting) and the properties of them that the
    specification states.

    Python integers are unbounded, hence [Z].  A job-shop instance is a list
    of jobs, a job a list of [(machine, duration)] pairs.  Exceptions are
    values of [exn], fallible methods return a [result]. *)
From Stdlib Require Import ZArith List Ascii.
From Stdlib Require Decimal DecimalString DecimalPos.
From stdpp Require Import base tactics option list numbers gmap strings sorting.

Local Open Scope Z_scope.

(** ** Exceptions and results *)

(** The built-in exceptions the program can raise. *)
Inductive exn : Set :=
  | NameError
  | ValueError
  | KeyError
  | AttributeError
  | TypeError.

Inductive result (A : Type) : Type :=
  | Raise (e : exn)
  | Return (a : A).
Arguments Raise {A} e.
Arguments Return {A} a.

Global Instance result_ret : MRet result := λ A a, Return a.
Global Instance result_bind : MBind result := λ A B f m,
  match m with
  | Raise e => Raise e
  | Return a => f a
  end.

Definition raises {A} (m : result A) : Prop := ∃ e, m = Raise e.

(** ** Built-ins *)

(** [max(iterable)]: the largest item, [ValueError] on an empty iterable. *)
Definition py_max (l : list Z) : result Z :=
  match l with
  | [] => Raise ValueError
  | x :: l => Return (fold_left Z.max l x)
  end.

(** [sum(iterable)]: left-to-right addition from 0. *)
Definition py_sum (l : list Z) : Z := fold_left Z.add l 0.

(** [range(n)]: 0, 1, ..., n-1; empty when [n <= 0]. *)
Definition py_range (n : Z) : list Z := seqZ 0 n.

(** [enumerate(l)]: the items of [l] paired with their position. *)
Definition enumerate {A} (l : list A) : list (Z * A) :=
  imap (λ i x, (Z.of_nat i, x)) l.

(** ** The instance: class [Data] *)

(** An operation is a pair [(machine, duration)], a job a list of operations
    in processing order, an instance a list of jobs. *)
Abbreviation Operation := (Z * Z)%type.
Abbreviation Job := (list (Z * Z)).
Abbreviation Jobs := (list (list (Z * Z))).

Record Data : Type := {
  jobs_data : Jobs;
  machines_count : Z;
  all_machines : list Z;
  horizon : Z
}.

(** The generator [f(task) for job in js for task in job]. *)
Definition for_job_for_task {B} (f : Operation → B) (js : Jobs) : list B :=
  job ← js; task ← job; [f task].

(** [Data.__init__(self, _jobs_data)].  The first statement reads the name
    [jobs_data], which is not a parameter of the method: it is looked up in
    the module's globals ([global_jobs_data], [None] when the module defines
    no such name).  The other attributes are computed from the parameter. *)
Definition Data_init (global_jobs_data : option Jobs) (_jobs_data : Jobs)
    : result Data :=
  self_jobs_data ← match global_jobs_data with
                   | Some g => Return g
                   | None => Raise NameError
                   end;
  mx ← py_max (for_job_for_task fst _jobs_data);
  let self_machines_count := 1 + mx in
  let self_all_machines := py_range self_machines_count in
  let self_horizon := py_sum (for_job_for_task snd _jobs_data) in
  Return {| jobs_data := self_jobs_data;
            machines_count := self_machines_count;
            all_machines := self_all_machines;
            horizon := self_horizon |}.

(** The instance of the [__main__] block. *)
Definition main_jobs_data : Jobs :=
  [ [(0, 3); (1, 2); (2, 2)];
    [(0, 2); (2, 1); (1, 4)];
    [(1, 4); (2, 3)] ].


(** ** The constraint model ([cp_model.CpModel])

    The constraint-solving engine is an external library.  A model object is
    represented by what the program posts to it: the declared integer
    variables, the declared interval variables, the constraints and the
    objective, each in posting order.  A variable handle is its position in
    the model. *)

Inductive IntVar : Set := Var (i : nat).
Inductive IntervalVar : Set := Interval (i : nat).

Inductive Constraint : Type :=
  | NoOverlap (intervals : list IntervalVar)
  | GreaterOrEqual (lhs rhs : IntVar)
  | MaxEquality (target : IntVar) (exprs : list IntVar).

Record IntVarDecl : Type := { lb : Z; ub : Z; var_name : string }.

Record IntervalDecl : Type := {
  interval_start : IntVar;
  interval_size : Z;
  interval_end : IntVar;
  interval_name : string
}.

Record CpModel : Type := {
  variables : list IntVarDecl;
  interval_vars : list IntervalDecl;
  constraints : list Constraint;
  objective : option IntVar
}.

Definition CpModel_new : CpModel :=
  {| variables := []; interval_vars := []; constraints := [];
     objective := None |}.

Inductive CpSolverStatus : Set :=
  | UNKNOWN
  | MODEL_INVALID
  | FEASIBLE
  | INFEASIBLE
  | OPTIMAL.

Global Instance CpSolverStatus_eq_dec : EqDecision CpSolverStatus.
Proof. solve_decision. Defined.

(** A solver object after a search: the assignment it found, and the log of
    the variables whose value has been requested from it, oldest first. *)
Record CpSolver : Type := {
  value : IntVar → Z;
  reads : list IntVar
}.

(** ** State and exceptions

    A method runs on the object it mutates and either returns or raises; the
    mutations made before an exception stay. *)

Definition M (S A : Type) : Type := S → result A * S.

Global Instance M_ret {S} : MRet (M S) := λ A a s, (Return a, s).
Global Instance M_bind {S} : MBind (M S) := λ A B f m s,
  match m s with
  | (Raise e, s') => (Raise e, s')
  | (Return a, s') => f a s'
  end.

Definition raise {S A} (e : exn) : M S A := λ s, (Raise e, s).
Definition gets {S A} (f : S → A) : M S A := λ s, (Return (f s), s).
Definition modify {S} (f : S → S) : M S unit := λ s, (Return tt, f s).

(** [for x in l: body], with the local variables the body updates. *)
Fixpoint for_ {S B L} (l : list B) (body : B → L → M S L) (locals : L)
    : M S L :=
  match l with
  | [] => mret locals
  | x :: l => locals ← body x locals; for_ l body locals
  end.

(** Reading an attribute that may not have been set yet. *)
Definition getattr {S A} (f : S → option A) : M S A := λ s,
  match f s with
  | Some a => (Return a, s)
  | None => (Raise AttributeError, s)
  end.

(** [d[k]] on a [dict]. *)
Definition getitem {S} `{Countable K} {V} (d : gmap K V) (k : K) : M S V :=
  match d !! k with
  | Some v => mret v
  | None => raise KeyError
  end.

(** [d[k]] on a [collections.defaultdict(list)]: a missing key is inserted
    with a fresh empty list. *)
Definition dd_getitem {V} (k : Z) (d : gmap Z (list V))
    : list V * gmap Z (list V) :=
  match d !! k with
  | Some l => (l, d)
  | None => ([], <[k := []]> d)
  end.

(** [d[k].append(x)] on a [defaultdict(list)]. *)
Definition dd_append {V} (k : Z) (x : V) (d : gmap Z (list V))
    : gmap Z (list V) :=
  let '(l, d) := dd_getitem k d in <[k := l ++ [x]]> d.

(** [len(l)] *)
Definition len {A} (l : list A) : Z := Z.of_nat (length l).

(** ** Text *)

Definition newline : string := String (ascii_of_nat 10) EmptyString.

(** [" " * n] *)
Fixpoint spaces (n : nat) : string :=
  match n with
  | O => EmptyString
  | S n => String " "%char (spaces n)
  end.

(** [str(z)] for an integer: decimal digits, [-] in front when negative. *)
Definition str (z : Z) : string :=
  DecimalString.NilZero.string_of_int (Z.to_int z).

(** [f"{s:15}"] for a string: padded with spaces on the right to the given
    width, never truncated. *)
Definition ljust (width : nat) (s : string) : string :=
  s +:+ spaces (width - String.length s).

(** ** The model class [JSPModel] *)

Module task_type.
Record t : Type := { start : IntVar; end_ : IntVar; interval : IntervalVar }.
End task_type.

Module assigned_task_type.
Record t : Type := { start : Z; job : Z; index : Z; duration : Z }.
End assigned_task_type.

(** The attributes [all_tasks], [machine_to_intervals] and [obj_var] do not
    exist before the method that assigns them has run: [None]. *)
Record JSPModel : Type := {
  data : Data;
  model : CpModel;
  solver : option CpSolver;
  status : option CpSolverStatus;
  all_tasks : option (gmap (Z * Z) task_type.t);
  machine_to_intervals : option (gmap Z (list IntervalVar));
  obj_var : option IntVar
}.

Definition JSPModel_init (data : Data) : JSPModel :=
  {| data := data; model := CpModel_new; solver := None; status := None;
     all_tasks := None; machine_to_intervals := None; obj_var := None |}.

Definition set_model (v : CpModel) (self : JSPModel) : JSPModel :=
  {| data := data self; model := v; solver := solver self;
     status := status self; all_tasks := all_tasks self;
     machine_to_intervals := machine_to_intervals self;
     obj_var := obj_var self |}.
Definition set_solver (v : option CpSolver) (self : JSPModel) : JSPModel :=
  {| data := data self; model := model self; solver := v;
     status := status self; all_tasks := all_tasks self;
     machine_to_intervals := machine_to_intervals self;
     obj_var := obj_var self |}.
Definition set_status (v : option CpSolverStatus) (self : JSPModel)
    : JSPModel :=
  {| data := data self; model := model self; solver := solver self;
     status := v; all_tasks := all_tasks self;
     machine_to_intervals := machine_to_intervals self;
     obj_var := obj_var self |}.
Definition set_all_tasks (v : option (gmap (Z * Z) task_type.t))
    (self : JSPModel) : JSPModel :=
  {| data := data self; model := model self; solver := solver self;
     status := status self; all_tasks := v;
     machine_to_intervals := machine_to_intervals self;
     obj_var := obj_var self |}.
Definition set_machine_to_intervals (v : option (gmap Z (list IntervalVar)))
    (self : JSPModel) : JSPModel :=
  {| data := data self; model := model self; solver := solver self;
     status := status self; all_tasks := all_tasks self;
     machine_to_intervals := v; obj_var := obj_var self |}.
Definition set_obj_var (v : option IntVar) (self : JSPModel) : JSPModel :=
  {| data := data self; model := model self; solver := solver self;
     status := status self; all_tasks := all_tasks self;
     machine_to_intervals := machine_to_intervals self; obj_var := v |}.

(** *** Calls on [self.model]

    The engine keeps integers in 64 bits, signed, while the integers of the
    program are unbounded.  An integer the program passes to the engine is
    converted on the way in; one that does not fit is refused, the call
    raises and the model is left as it was.  For the bounds of an integer
    variable the exception is [TypeError].  For the size of an interval the
    class of the exception depends on the release of the engine;
    [TypeError] stands for it here, and no property below depends on which
    exception a refused size raises. *)

Definition int64 (z : Z) : Prop := - 2 ^ 63 ≤ z < 2 ^ 63.

Global Instance int64_dec z : Decision (int64 z).
Proof. unfold int64. apply _. Defined.

(** An integer argument of a call on the engine. *)
Definition int64_arg {S} (z : Z) : M S Z := λ s,
  if decide (int64 z) then (Return z, s) else (Raise TypeError, s).

(** The model takes one more declaration; the handle is its position. *)
Definition declare_int_var (lo hi : Z) (name : string) : M JSPModel IntVar :=
  λ self,
  let m := model self in
  (Return (Var (length (variables m))),
   set_model {| variables := variables m ++
                             [{| lb := lo; ub := hi; var_name := name |}];
                interval_vars := interval_vars m;
                constraints := constraints m;
                objective := objective m |} self).

Definition declare_interval_var (s : IntVar) (size : Z) (e : IntVar)
    (name : string) : M JSPModel IntervalVar :=
  λ self,
  let m := model self in
  (Return (Interval (length (interval_vars m))),
   set_model {| variables := variables m;
                interval_vars := interval_vars m ++
                  [{| interval_start := s; interval_size := size;
                      interval_end := e; interval_name := name |}];
                constraints := constraints m;
                objective := objective m |} self).

Definition new_int_var (lo hi : Z) (name : string) : M JSPModel IntVar :=
  lo ← int64_arg lo;
  hi ← int64_arg hi;
  declare_int_var lo hi name.

Definition new_interval_var (s : IntVar) (size : Z) (e : IntVar)
    (name : string) : M JSPModel IntervalVar :=
  size ← int64_arg size;
  declare_interval_var s size e name.

Arguments int64_arg : simpl never.
Arguments new_int_var : simpl never.
Arguments new_interval_var : simpl never.

Definition add_constraint (c : Constraint) : M JSPModel unit :=
  modify (λ self,
    let m := model self in
    set_model {| variables := variables m;
                 interval_vars := interval_vars m;
                 constraints := constraints m ++ [c];
                 objective := objective m |} self).

Definition add_no_overlap (ivs : list IntervalVar) : M JSPModel unit :=
  add_constraint (NoOverlap ivs).
(** [model.add(a >= b)] *)
Definition add_ge (a b : IntVar) : M JSPModel unit :=
  add_constraint (GreaterOrEqual a b).
Definition add_max_equality (target : IntVar) (exprs : list IntVar)
    : M JSPModel unit :=
  add_constraint (MaxEquality target exprs).
Definition minimize (obj : IntVar) : M JSPModel unit :=
  modify (λ self,
    let m := model self in
    set_model {| variables := variables m;
                 interval_vars := interval_vars m;
                 constraints := constraints m;
                 objective := Some obj |} self).

(** [self.solver.value(v)] *)
Definition solver_value (v : IntVar) : M JSPModel Z := λ self,
  match solver self with
  | None => (Raise AttributeError, self)
  | Some s =>
      (Return (value s v),
       set_solver (Some {| value := value s; reads := reads s ++ [v] |}) self)
  end.

(** *** [createVars] *)

Definition createVars_task (job_id : Z) (e : Z * Operation) (_ : unit)
    : M JSPModel unit :=
  let '(task_id, task) := e in
  let '(machine, duration) := task in
  let suffix := "_" +:+ str job_id +:+ "_" +:+ str task_id in
  hz ← gets (λ self, horizon (data self));
  start_var ← new_int_var 0 hz ("start" +:+ suffix);
  hz ← gets (λ self, horizon (data self));
  end_var ← new_int_var 0 hz ("end" +:+ suffix);
  interval_var ← new_interval_var start_var duration end_var
                                  ("interval" +:+ suffix);
  tasks ← getattr all_tasks;
  modify (set_all_tasks (Some (<[(job_id, task_id) :=
            {| task_type.start := start_var; task_type.end_ := end_var;
               task_type.interval := interval_var |}]> tasks)));;
  m2i ← getattr machine_to_intervals;
  modify (set_machine_to_intervals (Some (dd_append machine interval_var m2i))).

Definition createVars : M JSPModel unit :=
  modify (set_all_tasks (Some ∅));;
  modify (set_machine_to_intervals (Some ∅));;
  jobs ← gets (λ self, jobs_data (data self));
  for_ (enumerate jobs) (λ '(job_id, job) u,
    for_ (enumerate job) (createVars_task job_id) u) tt.

(** *** [createConstrs] *)

Definition createConstrs_machine (machine : Z) (_ : unit) : M JSPModel unit :=
  m2i ← getattr machine_to_intervals;
  let '(ivs, m2i) := dd_getitem machine m2i in
  modify (set_machine_to_intervals (Some m2i));;
  add_no_overlap ivs.

Definition createConstrs_task (job_id task_id : Z) (_ : unit)
    : M JSPModel unit :=
  tasks ← getattr all_tasks;
  next ← getitem tasks (job_id, task_id + 1);
  tasks ← getattr all_tasks;
  prev ← getitem tasks (job_id, task_id);
  add_ge (task_type.start next) (task_type.end_ prev).

Definition createConstrs : M JSPModel unit :=
  machines ← gets (λ self, all_machines (data self));
  for_ machines createConstrs_machine tt;;
  jobs ← gets (λ self, jobs_data (data self));
  for_ (enumerate jobs) (λ '(job_id, job) u,
    for_ (py_range (len job - 1)) (createConstrs_task job_id) u) tt.

(** *** [createObj] *)

Definition createObj_end (e : Z * Job) (acc : list IntVar)
    : M JSPModel (list IntVar) :=
  let '(job_id, job) := e in
  tasks ← getattr all_tasks;
  last ← getitem tasks (job_id, len job - 1);
  mret (acc ++ [task_type.end_ last]).

Definition createObj : M JSPModel unit :=
  hz ← gets (λ self, horizon (data self));
  obj_var ← new_int_var 0 hz "makespan";
  jobs ← gets (λ self, jobs_data (data self));
  ends ← for_ (enumerate jobs) createObj_end [];
  add_max_equality obj_var ends;;
  minimize obj_var;;
  modify (set_obj_var (Some obj_var)).

(** *** [solve]

    The search is the engine's: [engine] gives, for a model, the status the
    search ends with and the assignment the solver object then holds.  The
    two log messages are left out: the logger is not read by any method. *)
Section Solve.
Variable engine : CpModel → CpSolverStatus * (IntVar → Z).

Definition solve : M JSPModel CpSolverStatus :=
  m ← gets model;
  let '(st, assignment) := engine m in
  modify (set_solver (Some {| value := assignment; reads := [] |}));;
  modify (set_status (Some st));;
  mret st.
End Solve.

(** *** [extract_solution] *)

(** [self.status in (cp_model.OPTIMAL, cp_model.FEASIBLE)] *)
Definition in_OPTIMAL_FEASIBLE (st : option CpSolverStatus) : bool :=
  bool_decide (st = Some OPTIMAL) || bool_decide (st = Some FEASIBLE).

Abbreviation Schedule := (gmap Z (list assigned_task_type.t)).

Definition extract_solution_task (job_id : Z) (e : Z * Operation)
    (assigned_jobs : Schedule) : M JSPModel Schedule :=
  let '(task_id, task) := e in
  let machine := task.1 in
  let '(bucket, assigned_jobs) := dd_getitem machine assigned_jobs in
  _ ← getattr solver;
  tasks ← getattr all_tasks;
  t ← getitem tasks (job_id, task_id);
  v ← solver_value (task_type.start t);
  mret (<[machine := bucket ++
            [{| assigned_task_type.start := v;
                assigned_task_type.job := job_id;
                assigned_task_type.index := task_id;
                assigned_task_type.duration := task.2 |}]]> assigned_jobs).

Definition extract_solution : M JSPModel (option Schedule) :=
  st ← gets status;
  if negb (in_OPTIMAL_FEASIBLE st) then mret None else
  jobs ← gets (λ self, jobs_data (data self));
  assigned_jobs ← for_ (enumerate jobs) (λ '(job_id, job) assigned_jobs,
    for_ (enumerate job) (extract_solution_task job_id) assigned_jobs) ∅;
  mret (Some assigned_jobs).

(** *** [format_solution] *)

(** Tuple comparison [a < b] of two [assigned_task_type] records: the first
    field on which they differ decides. *)
Definition tuple_lt (a b : assigned_task_type.t) : Prop :=
  let '(assigned_task_type.Build_t s1 j1 i1 d1) := a in
  let '(assigned_task_type.Build_t s2 j2 i2 d2) := b in
  s1 < s2 ∨ (s1 = s2 ∧
  (j1 < j2 ∨ (j1 = j2 ∧
  (i1 < i2 ∨ (i1 = i2 ∧ d1 < d2))))).

Global Instance tuple_lt_dec : RelDecision tuple_lt.
Proof. intros [] []; unfold tuple_lt; apply _. Defined.

(** [a] may stand before [b] in a sorted list: [b < a] is false. *)
Definition tuple_le (a b : assigned_task_type.t) : Prop := ¬ tuple_lt b a.

Global Instance tuple_le_dec : RelDecision tuple_le.
Proof. intros a b; unfold tuple_le; apply _. Defined.

(** [l.sort()]: the built-in stable sort, which compares with [<] only.
    [tuple_le] is a total order whose equivalent items are equal, so every
    sorting algorithm computes the same list ([list_sort_unique] below). *)
Definition list_sort (l : list assigned_task_type.t)
    : list assigned_task_type.t :=
  merge_sort tuple_le l.

Definition format_solution_task (acc : string * string)
    (assigned_task : assigned_task_type.t) : string * string :=
  let '(sol_line_tasks, sol_line) := acc in
  let name := "job_" +:+ str (assigned_task_type.job assigned_task) +:+
              "_task_" +:+ str (assigned_task_type.index assigned_task) in
  let sol_line_tasks := sol_line_tasks +:+ ljust 15 name in
  let start := assigned_task_type.start assigned_task in
  let duration := assigned_task_type.duration assigned_task in
  let sol_tmp := "[" +:+ str start +:+ "," +:+ str (start + duration) +:+ "]" in
  let sol_line := sol_line +:+ ljust 15 sol_tmp in
  (sol_line_tasks, sol_line).

Definition format_solution_machine (acc : string * Schedule) (machine : Z)
    : string * Schedule :=
  let '(output, assigned_jobs) := acc in
  let '(bucket, assigned_jobs) := dd_getitem machine assigned_jobs in
  let assigned_jobs := <[machine := list_sort bucket]> assigned_jobs in
  let sol_line_tasks := "Machine " +:+ str machine +:+ ": " in
  let sol_line := spaces 11 in
  let '(bucket, assigned_jobs) := dd_getitem machine assigned_jobs in
  let '(sol_line_tasks, sol_line) :=
    foldl format_solution_task (sol_line_tasks, sol_line) bucket in
  let sol_line := sol_line +:+ newline in
  let sol_line_tasks := sol_line_tasks +:+ newline in
  (output +:+ (sol_line_tasks +:+ sol_line), assigned_jobs).

(** [format_solution(self, assigned_jobs)] returns the text; the mapping it
    was given is sorted in place, so the caller's object is returned too. *)
Definition format_solution (self : JSPModel) (assigned_jobs : Schedule)
    : string * Schedule :=
  foldl format_solution_machine (EmptyString, assigned_jobs)
        (all_machines (data self)).


Definition main_data : Data :=
  {| jobs_data := main_jobs_data; machines_count := 3;
     all_machines := [0; 1; 2]; horizon := 21 |}.

(** The attributes of [d] are those its own [jobs_data] gives: constructing
    an instance from [jobs_data d] (with the global bound to it) yields [d]. *)
Definition Data_consistent (d : Data) : Prop :=
  Data_init (Some (jobs_data d)) (jobs_data d) = Return d.

(** ** Coordinates

    The nested loops [for job_id, job in enumerate(jobs): for c in inner(job)]
    visit the pairs [(job_id, c)] in this order. *)
Definition for_job {C} (inner : Job → list C) (js : Jobs) : list (Z * C) :=
  '(job_id, job) ← enumerate js; (λ c, (job_id, c)) <$> inner job.

(** The operations of an instance with their coordinates:
    [(job_id, (task_id, (machine, duration)))]. *)
Definition operations (js : Jobs) : list (Z * (Z * Operation)) :=
  for_job enumerate js.

(** The consecutive pairs of an instance: [(job_id, task_id)] such that the
    job has an operation [task_id + 1]. *)
Definition consecutive (js : Jobs) : list (Z * Z) :=
  for_job (λ job, py_range (len job - 1)) js.

(** The engine accepts what [createVars] declares for the instance [d]:
    for every operation, the horizon, which is the upper bound of its two
    variables, and its duration, which is the size of its interval, fit in
    64 bits.  An instance without operations declares nothing. *)
Definition declarable (d : Data) : Prop :=
  Forall (λ o, int64 (horizon d) ∧ int64 o.2.2.2) (operations (jobs_data d)).

Global Instance declarable_dec d : Decision (declarable d).
Proof. unfold declarable. apply _. Defined.

(** Every operation of the instance of [self] has its variables in
    [all_tasks]. *)
Definition tasks_cover (self : JSPModel) : Prop :=
  match all_tasks self with
  | Some tasks =>
      Forall (λ o, is_Some (tasks !! (o.1, o.2.1)))
             (operations (jobs_data (data self)))
  | None => False
  end.

Global Instance tasks_cover_dec self : Decision (tasks_cover self).
Proof. unfold tasks_cover. destruct (all_tasks self); apply _. Defined.

(** The variables of [all_tasks] identify the operations: they are variables
    of the model, and no variable serves two operations or both ends of one. *)
Definition tasks_separate (n : nat) (tasks : gmap (Z * Z) task_type.t) : Prop :=
  (∀ c x, tasks !! c = Some x →
     ∃ a b : nat, task_type.start x = Var a ∧ task_type.end_ x = Var b ∧
                  (a < n)%nat ∧ (b < n)%nat ∧ a ≠ b) ∧
  (∀ c c' x x', tasks !! c = Some x → tasks !! c' = Some x' → c ≠ c' →
     task_type.start x ≠ task_type.start x' ∧
     task_type.start x ≠ task_type.end_ x' ∧
     task_type.end_ x ≠ task_type.end_ x').

(** [self'] is [self] with a model that has the same variables and objective
    and the constraints [cs] in addition; [machine_to_intervals] is left out
    of the comparison. *)
Definition posted (cs : list Constraint) (self self' : JSPModel) : Prop :=
  data self' = data self ∧ solver self' = solver self ∧
  status self' = status self ∧ obj_var self' = obj_var self ∧
  all_tasks self' = all_tasks self ∧
  variables (model self') = variables (model self) ∧
  interval_vars (model self') = interval_vars (model self) ∧
  objective (model self') = objective (model self) ∧
  constraints (model self') = constraints (model self) ++ cs.

(** The precedence constraint of the consecutive pair [(job_id, task_id)]. *)
Definition precedence_of (tasks : gmap (Z * Z) task_type.t) (c : Z * Z)
    (k : Constraint) : Prop :=
  ∃ prev next,
    tasks !! (c.1, c.2) = Some prev ∧ tasks !! (c.1, c.2 + 1) = Some next ∧
    k = GreaterOrEqual (task_type.start next) (task_type.end_ prev).

(** The state the [__main__] block reaches before [createObj]. *)
Definition main_built : JSPModel :=
  Eval vm_compute in
  ((createVars;; createConstrs) (JSPModel_init main_data)).2.

(** The number of assigned tasks of a machine schedule, over all machines. *)
Definition bucket_total (assigned_jobs : Schedule) : nat :=
  map_fold (λ _ bucket n, (length bucket + n)%nat) O assigned_jobs.

(** [a] is the assigned task of operation [o] under the assignment of
    [sv]: its start is the value of the operation's [start] variable. *)
Definition assigned_of (tasks : gmap (Z * Z) task_type.t) (sv : CpSolver)
    (o : Z * (Z * Operation)) (a : assigned_task_type.t) : Prop :=
  ∃ x, tasks !! (o.1, o.2.1) = Some x ∧
       a = {| assigned_task_type.start := value sv (task_type.start x);
              assigned_task_type.job := o.1;
              assigned_task_type.index := o.2.1;
              assigned_task_type.duration := o.2.2.2 |}.

(** An engine that answers the model of the [__main__] block with a
    schedule of length 11. *)
Definition main_engine (m : CpModel) : CpSolverStatus * (IntVar → Z) :=
  (OPTIMAL,
   λ '(Var i), nth i [2; 5; 5; 7; 7; 9; 0; 2; 2; 3; 7; 11; 0; 4; 4; 7; 11] 0).

(** The state the [__main__] block reaches before [log_solution]. *)
Definition main_solved : JSPModel :=
  Eval vm_compute in
  ((createVars;; createConstrs;; createObj;; solve main_engine)
     (JSPModel_init main_data)).2.

(** ** The declarations of an operation *)

(** The end of the names of the variables of operation
    [(job_id, task_id)]. *)
Definition suffix (job_id task_id : Z) : string :=
  "_" +:+ str job_id +:+ "_" +:+ str task_id.

(** The record [x] holds handles of declarations of the model [m] that are
    those of operation [o]: two integer variables over [[0, hz]] named
    [start_j_t] and [end_j_t], and an interval named [interval_j_t] from the
    first to the second whose size is the duration of the operation. *)
Definition declared (m : CpModel) (hz : Z) (o : Z * (Z * Operation))
    (x : task_type.t) : Prop :=
  ∃ a b i : nat,
    x = {| task_type.start := Var a; task_type.end_ := Var b;
           task_type.interval := Interval i |} ∧
    variables m !! a =
      Some {| lb := 0; ub := hz; var_name := "start" +:+ suffix o.1 o.2.1 |} ∧
    variables m !! b =
      Some {| lb := 0; ub := hz; var_name := "end" +:+ suffix o.1 o.2.1 |} ∧
    interval_vars m !! i =
      Some {| interval_start := Var a; interval_size := o.2.2.2;
              interval_end := Var b;
              interval_name := "interval" +:+ suffix o.1 o.2.1 |}.

(** The intervals [ivs] are those of the operations [os], one each, in
    order. *)
Definition intervals_of (tasks : gmap (Z * Z) task_type.t)
    (os : list (Z * (Z * Operation))) (ivs : list IntervalVar) : Prop :=
  Forall2 (λ o iv, ∃ x, tasks !! (o.1, o.2.1) = Some x ∧
                        iv = task_type.interval x) os ivs.

(** ** Assignments that satisfy a model

    What the engine's contract says of an assignment [v] it returns with
    status [OPTIMAL] or [FEASIBLE]: the end of every interval is its start
    plus its size; of a posted [a >= b], the value of [a] is at least that of
    [b]; the intervals of a no-overlap constraint are disjoint two by two;
    the target of a max-equality has the largest of the values of its
    expressions.  The program neither checks nor computes any of this; the
    properties below that use [satisfies] take it as a hypothesis on the
    engine. *)

Definition interval_holds (v : IntVar → Z) (iv : IntervalDecl) : Prop :=
  v (interval_end iv) = v (interval_start iv) + interval_size iv.

Definition intervals_disjoint (m : CpModel) (v : IntVar → Z)
    (h1 h2 : IntervalVar) : Prop :=
  let '(Interval i1) := h1 in
  let '(Interval i2) := h2 in
  match interval_vars m !! i1, interval_vars m !! i2 with
  | Some a, Some b =>
      v (interval_end a) ≤ v (interval_start b) ∨
      v (interval_end b) ≤ v (interval_start a)
  | _, _ => True
  end.

Global Instance intervals_disjoint_dec m v h1 h2 :
  Decision (intervals_disjoint m v h1 h2).
Proof.
  destruct h1 as [i1], h2 as [i2]. unfold intervals_disjoint.
  destruct (interval_vars m !! i1), (interval_vars m !! i2); apply _.
Defined.

(** [R] holds of every two items of [l], the earlier one first. *)
Fixpoint pairwise {A} (R : A → A → Prop) (l : list A) : Prop :=
  match l with
  | [] => True
  | x :: l => Forall (R x) l ∧ pairwise R l
  end.

Global Instance pairwise_dec {A} (R : A → A → Prop)
    `{!∀ x y, Decision (R x y)} (l : list A) : Decision (pairwise R l).
Proof. induction l as [|x l IH]; simpl; apply _. Defined.

Definition constraint_holds (m : CpModel) (v : IntVar → Z) (c : Constraint)
    : Prop :=
  match c with
  | GreaterOrEqual lhs rhs => v rhs ≤ v lhs
  | NoOverlap ivs => pairwise (intervals_disjoint m v) ivs
  | MaxEquality target exprs =>
      Forall (λ e, v e ≤ v target) exprs ∧ Exists (λ e, v target = v e) exprs
  end.

Global Instance constraint_holds_dec m v c : Decision (constraint_holds m v c).
Proof. destruct c; simpl; apply _. Defined.

Definition satisfies (v : IntVar → Z) (m : CpModel) : Prop :=
  Forall (interval_holds v) (interval_vars m) ∧
  Forall (constraint_holds m v) (constraints m).

Global Instance satisfies_dec v m : Decision (satisfies v m).
Proof. unfold satisfies, interval_holds. apply _. Defined.

(** The state the [__main__] block reaches before [solve]. *)
Definition main_objective : JSPModel :=
  Eval vm_compute in
  ((createVars;; createConstrs;; createObj) (JSPModel_init main_data)).2.

(** ** The layout of the report

    What [format_solution] writes for one machine, as a function of the
    tasks in the order they are rendered. *)

(** [sep.join(l)] with the empty separator. *)
Definition cat (l : list string) : string := foldr String.append EmptyString l.

Definition column_name (a : assigned_task_type.t) : string :=
  ljust 15 ("job_" +:+ str (assigned_task_type.job a) +:+
            "_task_" +:+ str (assigned_task_type.index a)).

Definition column_interval (a : assigned_task_type.t) : string :=
  ljust 15 ("[" +:+ str (assigned_task_type.start a) +:+ "," +:+
            str (assigned_task_type.start a + assigned_task_type.duration a)
            +:+ "]").

Definition header_line (machine : Z) (bucket : list assigned_task_type.t)
    : string :=
  ("Machine " +:+ str machine +:+ ": ") +:+ cat (column_name <$> bucket).

Definition interval_line (bucket : list assigned_task_type.t) : string :=
  spaces 11 +:+ cat (column_interval <$> bucket).

Definition machine_block (machine : Z) (bucket : list assigned_task_type.t)
    : string :=
  (header_line machine bucket +:+ newline) +:+
  (interval_line bucket +:+ newline).

(** The text of a name column and of an interval column before padding. *)
Definition task_name (a : assigned_task_type.t) : string :=
  "job_" +:+ str (assigned_task_type.job a) +:+
  "_task_" +:+ str (assigned_task_type.index a).

Definition interval_text (a : assigned_task_type.t) : string :=
  "[" +:+ str (assigned_task_type.start a) +:+ "," +:+
  str (assigned_task_type.start a + assigned_task_type.duration a) +:+ "]".

(** The number of occurrences of the character [c] in [s]. *)
Fixpoint count_char (c : ascii) (s : string) : nat :=
  match s with
  | EmptyString => O
  | String a s => ((if Ascii.eqb a c then 1 else 0) + count_char c s)%nat
  end.

(** The number of newline-terminated lines of a text that is empty or ends
    with a newline. *)
Definition count_lines (s : string) : nat := count_char (ascii_of_nat 10) s.

(** Lexicographic order on [(start, job, index)]. *)
Definition key_le (a b : assigned_task_type.t) : Prop :=
  assigned_task_type.start a < assigned_task_type.start b ∨
  (assigned_task_type.start a = assigned_task_type.start b ∧
   (assigned_task_type.job a < assigned_task_type.job b ∨
    (assigned_task_type.job a = assigned_task_type.job b ∧
     assigned_task_type.index a ≤ assigned_task_type.index b))).

(** * Properties *)

(** ** The instance *)

Example Data_init_main :
  Data_init (Some main_jobs_data) main_jobs_data =
  Return {| jobs_data := main_jobs_data; machines_count := 3;
            all_machines := [0; 1; 2]; horizon := 21 |}.
Proof. reflexivity. Qed.

Lemma elem_of_for_job_for_task {B} (f : Operation → B) (js : Jobs) (y : B) :
  y ∈ for_job_for_task f js ↔ ∃ job op, job ∈ js ∧ op ∈ job ∧ y = f op.
Proof.
  unfold for_job_for_task. rewrite list_elem_of_bind. split.
  - intros (job & Hy & Hjob). apply list_elem_of_bind in Hy as (op & Hy & Hop).
    apply list_elem_of_singleton in Hy. eauto.
  - intros (job & op & Hjob & Hop & ->). exists job. split; [|done].
    apply list_elem_of_bind. exists op. split; [|done].
    by apply list_elem_of_singleton.
Qed.

Lemma for_job_for_task_nil {B} (f : Operation → B) (js : Jobs) :
  for_job_for_task f js = [] ↔ ∀ job, job ∈ js → job = [].
Proof.
  unfold for_job_for_task. induction js as [|job js IH]; simpl.
  - split; [|done]. intros _ job Hjob. by apply elem_of_nil in Hjob.
  - rewrite app_nil, IH. split.
    + intros [Hjob Hjs] job' Hin. apply elem_of_cons in Hin as [->|Hin]; [|eauto].
      by destruct job.
    + intros Hall. split.
      * by rewrite (Hall job) by left.
      * intros job' Hin. apply Hall. by right.
Qed.

Lemma fold_left_Zmax_spec (l : list Z) (x : Z) :
  (fold_left Z.max l x = x ∨ fold_left Z.max l x ∈ l) ∧
  x ≤ fold_left Z.max l x ∧
  ∀ y, y ∈ l → y ≤ fold_left Z.max l x.
Proof.
  revert x. induction l as [|a l IH]; intros x; simpl.
  - split; [by left|]. split; [lia|]. intros y Hy. by apply elem_of_nil in Hy.
  - destruct (IH (Z.max x a)) as (Hin & Hle & Hub).
    split; [|split].
    + destruct Hin as [Heq|Hin]; [|right; by right].
      rewrite Heq. destruct (Z.max_spec x a) as [[_ ->]|[_ ->]];
        [right; left|left]; done.
    + lia.
    + intros y Hy. apply elem_of_cons in Hy as [->|Hy]; [lia|eauto].
Qed.

Lemma py_max_spec (l : list Z) (m : Z) :
  py_max l = Return m ↔ m ∈ l ∧ ∀ y, y ∈ l → y ≤ m.
Proof.
  destruct l as [|x l]; simpl.
  - split; [done|]. intros [Hm _]. by apply elem_of_nil in Hm.
  - destruct (fold_left_Zmax_spec l x) as (Hin & Hle & Hub). split.
    + intros [= <-]. split.
      * destruct Hin as [->|Hin]; [left|by right].
      * intros y Hy. apply elem_of_cons in Hy as [->|Hy]; eauto.
    + intros [Hm Hmax]. f_equal. apply Z.le_antisymm.
      * apply Hmax. destruct Hin as [->|Hin]; [left|by right].
      * apply elem_of_cons in Hm as [->|Hm]; eauto.
Qed.

Lemma fold_left_Zadd (l : list Z) (a : Z) :
  fold_left Z.add l a = a + foldr Z.add 0 l.
Proof. revert a. induction l as [|x l IH]; intros a; simpl; [|rewrite IH]; lia. Qed.

Lemma py_sum_app (l k : list Z) : py_sum (l ++ k) = py_sum l + py_sum k.
Proof.
  unfold py_sum. rewrite fold_left_app.
  rewrite (fold_left_Zadd k (fold_left Z.add l 0)), (fold_left_Zadd k 0). lia.
Qed.

Lemma py_sum_job (job : Job) :
  py_sum (job ≫= λ op, [op.2]) = foldr (λ op acc, op.2 + acc) 0 job.
Proof.
  unfold py_sum. rewrite fold_left_Zadd, Z.add_0_l.
  induction job as [|op job IH]; simpl; [done|]. f_equal. exact IH.
Qed.

Lemma py_sum_durations (js : Jobs) :
  py_sum (for_job_for_task snd js) =
  foldr (λ job acc, foldr (λ op acc, op.2 + acc) 0 job + acc) 0 js.
Proof.
  induction js as [|job js IH]; [done|].
  change (for_job_for_task snd (job :: js))
    with ((job ≫= λ op, [op.2]) ++ for_job_for_task snd js).
  simpl foldr. by rewrite py_sum_app, IH, py_sum_job.
Qed.

(** What [Data_init] returns when the global is bound. *)
Lemma Data_init_Return (g x : Jobs) (d : Data) :
  Data_init (Some g) x = Return d ↔
  ∃ mx, py_max (for_job_for_task fst x) = Return mx ∧
        d = {| jobs_data := g; machines_count := 1 + mx;
               all_machines := py_range (1 + mx);
               horizon := py_sum (for_job_for_task snd x) |}.
Proof.
  unfold Data_init. simpl. destruct (py_max _) as [e|mx]; simpl.
  - split; [done|]. by intros (? & ? & _).
  - split.
    + intros [= <-]. eauto.
    + by intros (? & [= <-] & ->).
Qed.

(** C6: for every instance [x] that [Data.__init__] accepts, the attribute
    [machines_count] is 1 plus the maximum machine id of the operations of
    [x] (some operation of [x] has that id, none has a larger one), and the
    attribute [horizon] is the sum, over all jobs of [x], of the durations of
    their operations. *)
Theorem Data_init_machines_count_horizon (g : option Jobs) (x : Jobs) (d : Data) :
  Data_init g x = Return d →
  (∃ job op, job ∈ x ∧ op ∈ job ∧ machines_count d = 1 + op.1) ∧
  (∀ job op, job ∈ x → op ∈ job → 1 + op.1 ≤ machines_count d) ∧
  horizon d = foldr (λ job acc, foldr (λ op acc, op.2 + acc) 0 job + acc) 0 x.
Proof.
  destruct g as [g|]; [|done].
  intros (mx & Hmx & ->)%Data_init_Return. simpl.
  apply py_max_spec in Hmx as [Hin Hub].
  apply elem_of_for_job_for_task in Hin as (job & op & Hjob & Hop & ->).
  split; [by eauto|]. split; [|apply py_sum_durations].
  intros job' op' Hjob' Hop'.
  assert (op'.1 ≤ op.1); [|lia].
  apply Hub, elem_of_for_job_for_task. eauto.
Qed.

Lemma Data_init_machines_count_horizon_main :
  let d := {| jobs_data := main_jobs_data; machines_count := 3;
              all_machines := [0; 1; 2]; horizon := 21 |} in
  (∃ job op, job ∈ main_jobs_data ∧ op ∈ job ∧ machines_count d = 1 + op.1) ∧
  (∀ job op, job ∈ main_jobs_data → op ∈ job → 1 + op.1 ≤ machines_count d) ∧
  horizon d =
    foldr (λ job acc, foldr (λ op acc, op.2 + acc) 0 job + acc) 0 main_jobs_data.
Proof.
  apply (Data_init_machines_count_horizon (Some main_jobs_data) main_jobs_data).
  reflexivity.
Defined.

(** C1, as stated, fails: an argument with a job that holds a duration of 0
    is accepted, and so is one with a negative machine id. *)
Lemma Data_init_accepts_zero_duration :
  (∃ job op, job ∈ [[(0, 0)]] ∧ op ∈ job ∧ op.2 = 0) ∧
  Data_init (Some main_jobs_data) [[(0, 0)]] =
    Return {| jobs_data := main_jobs_data; machines_count := 1;
              all_machines := [0]; horizon := 0 |} ∧
  Data_init (Some main_jobs_data) [[(-3, 1)]] =
    Return {| jobs_data := main_jobs_data; machines_count := -2;
              all_machines := []; horizon := 1 |}.
Proof.
  split; [|done]. exists [(0, 0)], (0, 0). repeat split; by left.
Qed.

(** C1, amended: [Data.__init__] checks nothing.  With the global bound, it
    raises exactly when the argument holds no operation at all (no job, or
    empty jobs only), and what it raises is the [ValueError] of [max] on an
    empty sequence; every other argument is accepted, whatever its durations
    and machine ids.  Without the global it raises [NameError]. *)
Theorem Data_init_raises (x : Jobs) :
  Data_init None x = Raise NameError ∧
  ∀ g,
    ((∀ job, job ∈ x → job = []) → Data_init (Some g) x = Raise ValueError) ∧
    ((∃ job, job ∈ x ∧ job ≠ []) → ∃ d, Data_init (Some g) x = Return d).
Proof.
  split; [done|]. intros g. split.
  - intros Hall%(for_job_for_task_nil fst). unfold Data_init. simpl.
    by rewrite Hall.
  - intros (job & Hjob & Hne).
    destruct (py_max (for_job_for_task fst x)) as [e|mx] eqn:Hmx.
    + destruct (for_job_for_task fst x) eqn:Hgen; [|done].
      by apply (proj1 (for_job_for_task_nil fst x) Hgen) in Hjob.
    + eexists. apply Data_init_Return. eauto.
Qed.

Lemma Data_init_raises_examples :
  Data_init (Some main_jobs_data) [] = Raise ValueError ∧
  Data_init (Some main_jobs_data) [[]; []] = Raise ValueError ∧
  ∃ d, Data_init (Some main_jobs_data) [[]; [(-1, 0)]] = Return d.
Proof.
  destruct (Data_init_raises []) as [_ H1].
  destruct (Data_init_raises [[]; []]) as [_ H2].
  destruct (Data_init_raises [[]; [(-1, 0)]]) as [_ H3].
  split; [|split].
  - apply H1. intros job Hjob. by apply elem_of_nil in Hjob.
  - apply H2. intros job Hjob. repeat (apply elem_of_cons in Hjob as [->|Hjob]; [done|]).
    by apply elem_of_nil in Hjob.
  - apply H3. exists [(-1, 0)]. split; [|done]. right; left.
Defined.

(** C9, as stated, fails in its last clause: an argument that differs from
    the global can still give attributes that agree with the global. *)
Lemma Data_init_other_argument_consistent :
  [[(0, 3)]; [(0, 2)]] ≠ [[(0, 2)]; [(0, 3)]] ∧
  ∃ d, Data_init (Some [[(0, 2)]; [(0, 3)]]) [[(0, 3)]; [(0, 2)]] = Return d ∧
       Data_consistent d.
Proof. split; [done|]. eexists. split; reflexivity. Qed.

(** C9, amended: [Data.__init__] stores the module's global [jobs_data], not
    its argument [x] ([NameError] when the global is not bound), and computes
    [machines_count] and [horizon] from [x].  The instance is inconsistent
    exactly when the global's maximum machine id or total duration differs
    from that of [x] (or the global holds no operation). *)
Theorem Data_init_global_jobs_data (x : Jobs) :
  Data_init None x = Raise NameError ∧
  ∀ g d, Data_init (Some g) x = Return d →
    jobs_data d = g ∧
    py_max (for_job_for_task fst x) = Return (machines_count d - 1) ∧
    horizon d = py_sum (for_job_for_task snd x) ∧
    (Data_consistent d ↔
     py_max (for_job_for_task fst g) = Return (machines_count d - 1) ∧
     py_sum (for_job_for_task snd g) = horizon d).
Proof.
  split; [done|]. intros g d (mx & Hmx & ->)%Data_init_Return. simpl.
  replace (1 + mx - 1) with mx by lia.
  split; [done|]. split; [done|]. split; [done|].
  unfold Data_consistent. rewrite Data_init_Return. simpl. split.
  - intros (mx' & Hmx' & [= Hmc _ Hhz]).
    rewrite Hhz. split; [|done]. rewrite Hmx'. f_equal. lia.
  - intros [Hmx' Hhz]. exists mx. by rewrite Hhz.
Qed.

Lemma Data_init_global_jobs_data_example :
  ∃ d, Data_init (Some main_jobs_data) [[(5, 7)]] = Return d ∧
       jobs_data d = main_jobs_data ∧ machines_count d = 6 ∧ horizon d = 7 ∧
       ¬ Data_consistent d.
Proof.
  eexists. split; [reflexivity|].
  destruct (Data_init_global_jobs_data [[(5, 7)]]) as [_ H].
  destruct (H main_jobs_data _ eq_refl) as (Hjd & _ & _ & Hiff).
  split; [exact Hjd|]. split; [reflexivity|]. split; [reflexivity|].
  intros Hc. apply Hiff in Hc as [Hmx _]. discriminate Hmx.
Defined.

(** ** The report *)

(** *** Text *)

Example str_examples :
  str 0 = "0" ∧ str 105 = "105" ∧ str (-12) = "-12".
Proof. done. Qed.

Example ljust_examples :
  ljust 5 "ab" = "ab   " ∧ ljust 2 "abc" = "abc" ∧
  String.length (ljust 15 "job_0_task_0") = 15%nat.
Proof. done. Qed.

Lemma append_cons (a : ascii) (s1 s2 : string) :
  String a s1 +:+ s2 = String a (s1 +:+ s2).
Proof. reflexivity. Qed.

Lemma append_nil_r (s : string) : s +:+ EmptyString = s.
Proof. induction s as [|a s IH]; [done|]. by rewrite append_cons, IH. Qed.

Lemma append_assoc (s1 s2 s3 : string) :
  (s1 +:+ s2) +:+ s3 = s1 +:+ (s2 +:+ s3).
Proof. induction s1 as [|a s1 IH]; [done|]. by rewrite !append_cons, IH. Qed.

Lemma count_char_append (c : ascii) (s1 s2 : string) :
  count_char c (s1 +:+ s2) = (count_char c s1 + count_char c s2)%nat.
Proof.
  induction s1 as [|a s1 IH]; [done|]. rewrite append_cons. simpl.
  rewrite IH. lia.
Qed.

Lemma count_lines_append (s1 s2 : string) :
  count_lines (s1 +:+ s2) = (count_lines s1 + count_lines s2)%nat.
Proof. apply count_char_append. Qed.

Lemma count_lines_spaces (n : nat) : count_lines (spaces n) = O.
Proof. induction n as [|n IH]; [done|]. exact IH. Qed.

Lemma count_lines_ljust (w : nat) (s : string) :
  count_lines (ljust w s) = count_lines s.
Proof. unfold ljust. rewrite count_lines_append, count_lines_spaces. lia. Qed.

Lemma count_lines_uint (d : Decimal.uint) :
  count_lines (DecimalString.NilEmpty.string_of_uint d) = O.
Proof. induction d; simpl; done. Qed.

Lemma count_lines_uint_nonempty (d : Decimal.uint) :
  count_lines (DecimalString.NilZero.string_of_uint d) = O.
Proof. destruct d; first [done | exact (count_lines_uint _)]. Qed.

Lemma count_lines_str (z : Z) : count_lines (str z) = O.
Proof.
  unfold str. destruct (Z.to_int z) as [d|d].
  - apply count_lines_uint_nonempty.
  - change (count_lines (DecimalString.NilZero.string_of_uint d) = O).
    apply count_lines_uint_nonempty.
Qed.

Lemma count_lines_cat (f : assigned_task_type.t → string)
    (bucket : list assigned_task_type.t) :
  (∀ a, count_lines (f a) = O) → count_lines (cat (f <$> bucket)) = O.
Proof.
  intros Hf. induction bucket as [|a bucket IH]; [done|].
  change (cat (f <$> a :: bucket)) with (f a +:+ cat (f <$> bucket)).
  by rewrite count_lines_append, Hf, IH.
Qed.

Lemma count_lines_column_name a : count_lines (column_name a) = O.
Proof.
  unfold column_name.
  by rewrite count_lines_ljust, !count_lines_append, !count_lines_str.
Qed.

Lemma count_lines_column_interval a : count_lines (column_interval a) = O.
Proof.
  unfold column_interval.
  by rewrite count_lines_ljust, !count_lines_append, !count_lines_str.
Qed.

Lemma count_lines_header_line k bucket :
  count_lines (header_line k bucket) = O.
Proof.
  unfold header_line.
  rewrite !count_lines_append, count_lines_str.
  by rewrite (count_lines_cat _ _ count_lines_column_name).
Qed.

Lemma count_lines_interval_line bucket :
  count_lines (interval_line bucket) = O.
Proof.
  unfold interval_line.
  rewrite count_lines_append, count_lines_spaces.
  by rewrite (count_lines_cat _ _ count_lines_column_interval).
Qed.

Lemma count_lines_machine_block k bucket :
  count_lines (machine_block k bucket) = 2%nat.
Proof.
  unfold machine_block.
  by rewrite !count_lines_append, count_lines_header_line,
    count_lines_interval_line.
Qed.

Lemma count_lines_blocks (f : Z → list assigned_task_type.t) (ks : list Z) :
  count_lines (cat ((λ k, machine_block k (f k)) <$> ks)) = (2 * length ks)%nat.
Proof.
  induction ks as [|k ks IH]; [done|].
  change (cat ((λ k, machine_block k (f k)) <$> k :: ks))
    with (machine_block k (f k) +:+ cat ((λ k, machine_block k (f k)) <$> ks)).
  rewrite count_lines_append, count_lines_machine_block, IH. simpl. lia.
Qed.

(** *** Sorting *)

Global Instance tuple_le_total : Total tuple_le.
Proof. intros [] []; unfold tuple_le, tuple_lt; lia. Qed.

Global Instance tuple_le_trans : Transitive tuple_le.
Proof. intros [] [] []; unfold tuple_le, tuple_lt; lia. Qed.

Global Instance tuple_le_antisymm : AntiSymm (=) tuple_le.
Proof.
  intros [s1 j1 i1 d1] [s2 j2 i2 d2]; unfold tuple_le, tuple_lt; intros H1 H2.
  assert (s1 = s2 ∧ j1 = j2 ∧ i1 = i2 ∧ d1 = d2) as (-> & -> & -> & ->) by lia.
  done.
Qed.

Lemma tuple_le_key_le a b : tuple_le a b → key_le a b.
Proof. destruct a, b; unfold tuple_le, tuple_lt, key_le; simpl; lia. Qed.

Lemma list_sort_Permutation l : list_sort l ≡ₚ l.
Proof. apply merge_sort_Permutation. Qed.

Lemma list_sort_StronglySorted l : StronglySorted tuple_le (list_sort l).
Proof. apply StronglySorted_merge_sort; apply _. Qed.

(** The sorted list does not depend on the algorithm: any sorted
    rearrangement of [l] is [list_sort l]. *)
Lemma list_sort_unique l l' :
  Sorted tuple_le l' → l' ≡ₚ l → list_sort l = l'.
Proof.
  intros Hs Hp. apply (Sorted_unique tuple_le).
  - apply Sorted_merge_sort; apply _.
  - done.
  - by rewrite list_sort_Permutation.
Qed.

Lemma list_sort_idemp l : list_sort (list_sort l) = list_sort l.
Proof.
  apply list_sort_unique; [|done]. apply Sorted_merge_sort; apply _.
Qed.

Lemma StronglySorted_lookup_lt {A} (R : relation A) (l : list A) i j a b :
  StronglySorted R l → (i < j)%nat → l !! i = Some a → l !! j = Some b → R a b.
Proof.
  intros Hs. revert i j. induction Hs as [|x l Hs IH Hx]; intros i j Hij Hi Hj.
  - done.
  - destruct j as [|j]; [lia|]. simpl in Hj. destruct i as [|i].
    + injection Hi as ->. rewrite Forall_forall in Hx.
      apply Hx. by eapply list_elem_of_lookup_2.
    + simpl in Hi. apply (IH i j); [lia|done..].
Qed.

Lemma StronglySorted_weaken {A} (R R' : relation A) (l : list A) :
  (∀ a b, R a b → R' a b) → StronglySorted R l → StronglySorted R' l.
Proof.
  intros HR. induction 1 as [|x l Hs IH Hx]; constructor; [done|].
  eapply Forall_impl; [exact Hx|]. intros b. apply HR.
Qed.

Lemma list_sort_key_le l i j a b :
  (i < j)%nat → list_sort l !! i = Some a → list_sort l !! j = Some b →
  key_le a b.
Proof.
  intros Hij Hi Hj. apply tuple_le_key_le.
  by apply (StronglySorted_lookup_lt _ _ i j a b (list_sort_StronglySorted l)).
Qed.

(** *** [format_solution] in closed form *)

Lemma format_solution_task_foldl bucket sol_line_tasks sol_line :
  foldl format_solution_task (sol_line_tasks, sol_line) bucket =
  (sol_line_tasks +:+ cat (column_name <$> bucket),
   sol_line +:+ cat (column_interval <$> bucket)).
Proof.
  revert sol_line_tasks sol_line.
  induction bucket as [|a bucket IH]; intros s1 s2.
  - simpl. by rewrite !append_nil_r.
  - change (foldl format_solution_task (s1, s2) (a :: bucket))
      with (foldl format_solution_task
              (s1 +:+ column_name a, s2 +:+ column_interval a) bucket).
    rewrite IH, !append_assoc. done.
Qed.

(** One round of the loop over the machines: the bucket of the machine is
    sorted in place and rendered. *)
Lemma format_solution_machine_eq output (assigned_jobs : Schedule) machine :
  format_solution_machine (output, assigned_jobs) machine =
  (output +:+ machine_block machine (list_sort (assigned_jobs !!! machine)),
   <[machine := list_sort (assigned_jobs !!! machine)]> assigned_jobs).
Proof.
  unfold format_solution_machine, dd_getitem. rewrite lookup_total_alt.
  destruct (assigned_jobs !! machine) as [bucket|] eqn:Hb; simpl;
    rewrite lookup_insert_eq, format_solution_task_foldl;
    [|rewrite insert_insert_eq]; done.
Qed.

Lemma format_solution_foldl (ks : list Z) output (assigned_jobs : Schedule) :
  let r := foldl format_solution_machine (output, assigned_jobs) ks in
  r.1 = output +:+
        cat ((λ k, machine_block k (list_sort (assigned_jobs !!! k))) <$> ks) ∧
  ∀ k, r.2 !! k = if decide (k ∈ ks)
                  then Some (list_sort (assigned_jobs !!! k))
                  else assigned_jobs !! k.
Proof.
  revert output assigned_jobs.
  induction ks as [|k0 ks IH]; intros output aj.
  - split; [simpl; by rewrite append_nil_r|]. intros k.
    destruct (decide (k ∈ [])) as [Hin|]; [by apply elem_of_nil in Hin|done].
  - change (foldl format_solution_machine (output, aj) (k0 :: ks))
      with (foldl format_solution_machine
              (format_solution_machine (output, aj) k0) ks).
    rewrite format_solution_machine_eq.
    set (aj' := <[k0 := list_sort (aj !!! k0)]> aj).
    assert (∀ k, list_sort (aj' !!! k) = list_sort (aj !!! k)) as Hsort.
    { intros k. unfold aj'. destruct (decide (k0 = k)) as [->|Hne].
      - by rewrite lookup_total_insert_eq, list_sort_idemp.
      - by rewrite lookup_total_insert_ne. }
    destruct (IH (output +:+ machine_block k0 (list_sort (aj !!! k0))) aj')
      as [Hout Hmap].
    split.
    + rewrite Hout, append_assoc. f_equal.
      change (cat ((λ k, machine_block k (list_sort (aj !!! k))) <$> k0 :: ks))
        with (machine_block k0 (list_sort (aj !!! k0)) +:+
              cat ((λ k, machine_block k (list_sort (aj !!! k))) <$> ks)).
      f_equal. f_equal. apply list_fmap_ext. intros _ k _. by rewrite Hsort.
    + intros k. rewrite Hmap, Hsort. unfold aj'.
      destruct (decide (k0 = k)) as [->|Hne].
      * rewrite lookup_insert_eq, (decide_True _ _ (list_elem_of_here k ks)).
        by destruct (decide (k ∈ ks)).
      * rewrite lookup_insert_ne by done.
        destruct (decide (k ∈ ks)) as [Hin|Hin].
        -- by rewrite decide_True by (by right).
        -- rewrite decide_False; [done|].
           intros [?|?]%elem_of_cons; congruence.
Qed.

Lemma format_solution_text self (assigned_jobs : Schedule) :
  (format_solution self assigned_jobs).1 =
  cat ((λ k, machine_block k (list_sort (assigned_jobs !!! k)))
         <$> all_machines (data self)).
Proof.
  unfold format_solution.
  by destruct (format_solution_foldl (all_machines (data self)) EmptyString
                 assigned_jobs) as [-> _].
Qed.

Lemma format_solution_mapping self (assigned_jobs : Schedule) k :
  (format_solution self assigned_jobs).2 !! k =
  if decide (k ∈ all_machines (data self))
  then Some (list_sort (assigned_jobs !!! k))
  else assigned_jobs !! k.
Proof.
  unfold format_solution.
  by destruct (format_solution_foldl (all_machines (data self)) EmptyString
                 assigned_jobs) as [_ ->].
Qed.

(** C7: for every machine schedule, the text [format_solution] returns is,
    machine after machine, the two-line block of that machine's tasks taken
    in a rearranged order [sorted k] which is ascending for the
    lexicographic order on [(start, job, index)]: of two tasks of a machine,
    the one rendered first has the smaller start, or the same start and the
    smaller job id, or the same start and job id and a task id that is not
    larger. *)
Theorem format_solution_sorted (self : JSPModel) (assigned_jobs : Schedule) :
  let sorted := λ k, list_sort (assigned_jobs !!! k) in
  (format_solution self assigned_jobs).1 =
    cat ((λ k, machine_block k (sorted k)) <$> all_machines (data self)) ∧
  ∀ k,
    sorted k ≡ₚ assigned_jobs !!! k ∧
    StronglySorted key_le (sorted k) ∧
    (format_solution self assigned_jobs).2 !!! k =
      (if decide (k ∈ all_machines (data self)) then sorted k
       else assigned_jobs !!! k) ∧
    ∀ i j a b, (i < j)%nat → sorted k !! i = Some a → sorted k !! j = Some b →
               key_le a b.
Proof.
  intros sorted. split; [apply format_solution_text|]. intros k.
  split; [apply list_sort_Permutation|]. split; [|split].
  - eapply StronglySorted_weaken; [|apply list_sort_StronglySorted].
    apply tuple_le_key_le.
  - rewrite lookup_total_alt, format_solution_mapping.
    destruct (decide _); [done|]. by rewrite lookup_total_alt.
  - intros i j a b. apply list_sort_key_le.
Qed.

(** C8: formatting is idempotent.  A second call of [format_solution] on the
    schedule as the first call left it returns the same text, character for
    character, and leaves the schedule as it is.  (The text is a function of
    the instance and of the schedule it is given, so two calls on equal
    schedules return equal texts.) *)
Theorem format_solution_idempotent (self : JSPModel) (assigned_jobs : Schedule) :
  let first := format_solution self assigned_jobs in
  let second := format_solution self first.2 in
  second.1 = first.1 ∧ second.2 = first.2.
Proof.
  intros first second.
  assert (∀ k, list_sort (first.2 !!! k) = list_sort (assigned_jobs !!! k))
    as Hsort.
  { intros k. unfold first.
    rewrite (lookup_total_alt (format_solution _ _).2), format_solution_mapping.
    destruct (decide _); simpl; [apply list_sort_idemp|].
    by rewrite lookup_total_alt. }
  split.
  - unfold second, first. rewrite !format_solution_text.
    f_equal. apply list_fmap_ext. intros _ k _. by rewrite Hsort.
  - apply map_eq. intros k. unfold second.
    rewrite format_solution_mapping, Hsort.
    unfold first. rewrite format_solution_mapping.
    by destruct (decide _).
Qed.

Lemma Data_init_all_machines g x d :
  Data_init g x = Return d → all_machines d = seqZ 0 (machines_count d).
Proof.
  destruct g as [g|]; [|done]. by intros (mx & _ & ->)%Data_init_Return.
Qed.

(** C10, as stated, fails when [machines_count] is negative: the instance
    [[(-3, 1)]] is accepted with [machines_count = -2], and the text for it is
    empty, not of [2 * -2] lines. *)
Lemma format_solution_negative_machines_count :
  ∃ d, Data_init (Some main_jobs_data) [[(-3, 1)]] = Return d ∧
       machines_count d = -2 ∧
       (format_solution (JSPModel_init d) ∅).1 = EmptyString ∧
       Z.of_nat (count_lines (format_solution (JSPModel_init d) ∅).1)
         ≠ 2 * machines_count d.
Proof. eexists. split; [reflexivity|]. done. Qed.

(** C10, amended: for an instance that [Data.__init__] accepted, the machines
    are 0, ..., [machines_count - 1], and the text of [format_solution] is
    one block per machine, present in the mapping or not: the line
    ["Machine k: "] with the name columns, then the line of the intervals,
    each ended by a newline and holding no other newline.  The text so has
    [2 * max 0 machines_count] lines, which is [2 * machines_count] unless
    [machines_count] is negative.  A machine absent from the mapping has a
    block without columns. *)
Theorem format_solution_lines (g : option Jobs) (x : Jobs) (self : JSPModel)
    (assigned_jobs : Schedule) :
  Data_init g x = Return (data self) →
  let text := (format_solution self assigned_jobs).1 in
  let sorted := λ k, list_sort (assigned_jobs !!! k) in
  text = cat ((λ k, (header_line k (sorted k) +:+ newline) +:+
                    (interval_line (sorted k) +:+ newline))
              <$> seqZ 0 (machines_count (data self))) ∧
  (∀ k, count_lines (header_line k (sorted k)) = O ∧
        count_lines (interval_line (sorted k)) = O) ∧
  Z.of_nat (count_lines text) = 2 * Z.max 0 (machines_count (data self)) ∧
  (0 ≤ machines_count (data self) →
   Z.of_nat (count_lines text) = 2 * machines_count (data self)) ∧
  (∀ k, assigned_jobs !! k = None →
        header_line k (sorted k) = "Machine " +:+ str k +:+ ": " ∧
        interval_line (sorted k) = spaces 11).
Proof.
  intros Hd%Data_init_all_machines text sorted.
  assert (text = cat ((λ k, machine_block k (sorted k))
                      <$> seqZ 0 (machines_count (data self)))) as Htext.
  { unfold text. by rewrite format_solution_text, Hd. }
  assert (Z.of_nat (count_lines text)
          = 2 * Z.max 0 (machines_count (data self))) as Hlines.
  { rewrite Htext, count_lines_blocks, length_seqZ. lia. }
  split; [done|]. split; [|split; [done|split; [lia|]]].
  - intros k. split;
      [apply count_lines_header_line|apply count_lines_interval_line].
  - intros k Hk. unfold sorted, header_line, interval_line.
    rewrite lookup_total_alt, Hk. simpl.
    by rewrite !append_assoc, !append_nil_r.
Qed.

Lemma format_solution_lines_main :
  Z.of_nat (count_lines (format_solution (JSPModel_init main_data) ∅).1) = 6 ∧
  Z.of_nat (count_lines
    (format_solution (JSPModel_init main_data)
       {[ 1 := [{| assigned_task_type.start := 2; assigned_task_type.job := 0;
                   assigned_task_type.index := 1;
                   assigned_task_type.duration := 2 |}] ]}).1) = 6.
Proof.
  split.
  - destruct (format_solution_lines (Some main_jobs_data) main_jobs_data
                (JSPModel_init main_data) ∅ eq_refl) as (_ & _ & H & _).
    exact H.
  - destruct (format_solution_lines (Some main_jobs_data) main_jobs_data
                (JSPModel_init main_data)
                {[ 1 := [{| assigned_task_type.start := 2;
                            assigned_task_type.job := 0;
                            assigned_task_type.index := 1;
                            assigned_task_type.duration := 2 |}] ]} eq_refl)
      as (_ & _ & _ & H & _).
    apply H. simpl. lia.
Defined.

(** ** Loops *)

Lemma for_app {S B L} (l1 l2 : list B) (body : B → L → M S L) acc s :
  for_ (l1 ++ l2) body acc s =
  (acc ← for_ l1 body acc; for_ l2 body acc) s.
Proof.
  revert acc s. induction l1 as [|x l1 IH]; intros acc s; [done|].
  simpl. unfold mbind, M_bind. destruct (body x acc s) as [[e|acc'] s']; [done|].
  apply IH.
Qed.

Lemma for_fmap {S A B L} (g : A → B) (l : list A) (body : B → L → M S L) acc s :
  for_ (g <$> l) body acc s = for_ l (λ x, body (g x)) acc s.
Proof.
  revert acc s. induction l as [|x l IH]; intros acc s; [done|].
  simpl. unfold mbind, M_bind.
  destruct (body (g x) acc s) as [[e|acc'] s']; [done|]. apply IH.
Qed.

(** Two nested loops visit the pairs of [for_job]. *)
Lemma for_nested {S C L} (inner : Job → list C) (js : Jobs)
    (body : Z → C → L → M S L) acc s :
  for_ (enumerate js)
       (λ '(job_id, job) acc, for_ (inner job) (body job_id) acc) acc s =
  for_ (for_job inner js) (λ '(job_id, c), body job_id c) acc s.
Proof.
  unfold for_job. generalize (enumerate js). intros l. revert acc s.
  induction l as [|[job_id job] l IH]; intros acc s; [done|].
  rewrite bind_cons, for_app. simpl. unfold mbind, M_bind. rewrite for_fmap.
  change (λ x, let '(job_id, c) := (job_id, x) in body job_id c)
    with (body job_id).
  destruct (for_ (inner job) (body job_id) acc s) as [[e|acc'] s']; [done|].
  apply IH.
Qed.

(** The rule for a loop that does not raise: an invariant [P] of the items
    done so far, the local variables and the state. *)
Lemma for_rule {S B L} (P : list B → L → S → Prop) (body : B → L → M S L)
    (l : list B) acc s :
  P [] acc s →
  (∀ pre x post acc s, l = pre ++ x :: post → P pre acc s →
     ∃ acc' s', body x acc s = (Return acc', s') ∧ P (pre ++ [x]) acc' s') →
  ∃ acc' s', for_ l body acc s = (Return acc', s') ∧ P l acc' s'.
Proof.
  revert P acc s. induction l as [|x l IH]; intros P acc s H0 Hstep.
  - by exists acc, s.
  - destruct (Hstep [] x l acc s eq_refl H0) as (acc1 & s1 & Hx & H1).
    destruct (IH (λ pre, P (x :: pre)) acc1 s1 H1) as (acc' & s' & Hl & H').
    { intros pre y post acc2 s2 -> HP.
      apply (Hstep (x :: pre) y post acc2 s2 eq_refl HP). }
    exists acc', s'. split; [|done].
    simpl. unfold mbind, M_bind. by rewrite Hx.
Qed.

(** A loop whose rounds raise on the items that do not have [Q], and return
    on the others, returns only when every item has [Q]. *)
Lemma for_returns {S B L} (Q : B → Prop) `{!∀ x, Decision (Q x)}
    (I : S → Prop) (body : B → L → M S L) (l : list B) acc s acc' s' :
  (∀ x acc s, I s → Q x → ∃ acc' s', body x acc s = (Return acc', s') ∧ I s') →
  (∀ x acc s, I s → ¬ Q x → ∃ e s', body x acc s = (Raise e, s')) →
  I s → for_ l body acc s = (Return acc', s') → Forall Q l.
Proof.
  intros Hret Hraise. revert acc s.
  induction l as [|x l IH]; intros acc s HI Hrun; [constructor|].
  simpl in Hrun. unfold mbind, M_bind in Hrun.
  destruct (decide (Q x)) as [HQ|HQ].
  - destruct (Hret x acc s HI HQ) as (acc1 & s1 & Hx & HI1).
    rewrite Hx in Hrun. constructor; [done|]. by apply (IH acc1 s1).
  - destruct (Hraise x acc s HI HQ) as (e & s1 & Hx). by rewrite Hx in Hrun.
Qed.

(** ** Coordinates *)

Lemma elem_of_enumerate {A} (l : list A) i x :
  (i, x) ∈ enumerate l ↔ ∃ n : nat, i = Z.of_nat n ∧ l !! n = Some x.
Proof.
  unfold enumerate. rewrite elem_of_lookup_imap. split.
  - intros (n & y & [= -> ->] & Hn). eauto.
  - intros (n & -> & Hn). eauto.
Qed.

Lemma elem_of_for_job {C} (inner : Job → list C) (js : Jobs) j c :
  (j, c) ∈ for_job inner js ↔
  ∃ (n : nat) job, j = Z.of_nat n ∧ js !! n = Some job ∧ c ∈ inner job.
Proof.
  unfold for_job. rewrite list_elem_of_bind. split.
  - intros ([j' job] & Hc & Hj).
    apply list_elem_of_fmap in Hc as (c' & [= -> ->] & Hc).
    apply elem_of_enumerate in Hj as (n & -> & Hn). eauto.
  - intros (n & job & -> & Hn & Hc). exists (Z.of_nat n, job). split.
    + apply list_elem_of_fmap. eauto.
    + apply elem_of_enumerate. eauto.
Qed.

Lemma elem_of_operations (js : Jobs) j t op :
  (j, (t, op)) ∈ operations js ↔
  ∃ (n m : nat) job, j = Z.of_nat n ∧ t = Z.of_nat m ∧
                     js !! n = Some job ∧ job !! m = Some op.
Proof.
  unfold operations. rewrite elem_of_for_job. split.
  - intros (n & job & -> & Hn & (m & -> & Hm)%elem_of_enumerate).
    by exists n, m, job.
  - intros (n & m & job & -> & -> & Hn & Hm). exists n, job.
    split; [done|]. split; [done|]. apply elem_of_enumerate. eauto.
Qed.

Lemma elem_of_consecutive (js : Jobs) j t :
  (j, t) ∈ consecutive js ↔
  ∃ (n : nat) job, j = Z.of_nat n ∧ js !! n = Some job ∧
                   0 ≤ t ∧ t + 1 < len job.
Proof.
  unfold consecutive. rewrite elem_of_for_job. unfold py_range.
  setoid_rewrite elem_of_seqZ. split.
  - intros (n & job & -> & Hn & Ht). exists n, job. repeat split; [done|lia..].
  - intros (n & job & -> & Hn & Ht). exists n, job. repeat split; [done|lia..].
Qed.

(** ** [createVars] *)

Ltac run := unfold mbind, M_bind, mret, M_ret, gets, getattr, getitem, modify,
  raise, add_no_overlap, add_ge,
  add_max_equality, add_constraint, minimize; simpl.

Lemma int64_0 : int64 0.
Proof. by apply (bool_decide_unpack (int64 0)). Qed.

Lemma int64_arg_run {S} (z : Z) (s : S) :
  int64 z → int64_arg z s = (Return z, s).
Proof. intros Hz. unfold int64_arg. by rewrite decide_True. Qed.

Lemma int64_arg_refused {S} (z : Z) (s : S) :
  ¬ int64 z → int64_arg z s = (Raise TypeError, s).
Proof. intros Hz. unfold int64_arg. by rewrite decide_False. Qed.

Lemma new_int_var_run lo hi name self :
  int64 lo → int64 hi →
  new_int_var lo hi name self =
  (Return (Var (length (variables (model self)))),
   set_model {| variables := variables (model self) ++
                             [{| lb := lo; ub := hi; var_name := name |}];
                interval_vars := interval_vars (model self);
                constraints := constraints (model self);
                objective := objective (model self) |} self).
Proof.
  intros Hlo Hhi. unfold new_int_var, mbind, M_bind.
  by rewrite !int64_arg_run.
Qed.

(** A bound that does not fit: nothing is declared. *)
Lemma new_int_var_refused hi name self :
  ¬ int64 hi → new_int_var 0 hi name self = (Raise TypeError, self).
Proof.
  intros Hhi. unfold new_int_var, mbind, M_bind.
  by rewrite (int64_arg_run 0 self int64_0), int64_arg_refused.
Qed.

Lemma new_interval_var_run s size e name self :
  int64 size →
  new_interval_var s size e name self =
  (Return (Interval (length (interval_vars (model self)))),
   set_model {| variables := variables (model self);
                interval_vars := interval_vars (model self) ++
                  [{| interval_start := s; interval_size := size;
                      interval_end := e; interval_name := name |}];
                constraints := constraints (model self);
                objective := objective (model self) |} self).
Proof.
  intros Hsize. unfold new_interval_var, mbind, M_bind.
  by rewrite int64_arg_run.
Qed.

Lemma new_interval_var_refused s size e name self :
  ¬ int64 size → ∃ ex, new_interval_var s size e name self = (Raise ex, self).
Proof.
  intros Hsize. unfold new_interval_var, mbind, M_bind.
  rewrite int64_arg_refused by done. by eexists.
Qed.

Lemma createVars_task_run self tasks m2i j t m d :
  all_tasks self = Some tasks → machine_to_intervals self = Some m2i →
  int64 (horizon (data self)) → int64 d →
  ∃ self', createVars_task j (t, (m, d)) tt self = (Return tt, self') ∧
    data self' = data self ∧ solver self' = solver self ∧
    status self' = status self ∧ obj_var self' = obj_var self ∧
    constraints (model self') = constraints (model self) ∧
    objective (model self') = objective (model self) ∧
    length (variables (model self')) = S (S (length (variables (model self)))) ∧
    machine_to_intervals self' =
      Some (dd_append m (Interval (length (interval_vars (model self)))) m2i) ∧
    all_tasks self' =
      Some (<[(j, t) :=
               {| task_type.start := Var (length (variables (model self)));
                  task_type.end_ := Var (S (length (variables (model self))));
                  task_type.interval :=
                    Interval (length (interval_vars (model self))) |}]> tasks).
Proof.
  intros HT HI Hhz Hd. unfold createVars_task. run.
  rewrite new_int_var_run by (done || apply int64_0). simpl.
  rewrite new_int_var_run by (done || apply int64_0). simpl.
  rewrite new_interval_var_run by done. simpl.
  rewrite HT. simpl. rewrite HI.
  simpl. eexists. split; [done|]. simpl.
  rewrite !length_app. simpl.
  replace (length (variables (model self)) + 1)%nat
    with (S (length (variables (model self)))) by lia.
  repeat split; try done. lia.
Qed.

(** An operation the engine does not accept: the round raises. *)
Lemma createVars_task_refused self j t m d :
  ¬ (int64 (horizon (data self)) ∧ int64 d) →
  ∃ e self', createVars_task j (t, (m, d)) tt self = (Raise e, self').
Proof.
  intros Hno. unfold createVars_task. run.
  destruct (decide (int64 (horizon (data self)))) as [Hhz|Hhz].
  - rewrite new_int_var_run by (done || apply int64_0). simpl.
    rewrite new_int_var_run by (done || apply int64_0). simpl.
    match goal with
    | |- context [new_interval_var ?a ?b ?c ?n ?s] =>
        destruct (new_interval_var_refused a b c n s) as [ex Hex]; [tauto|];
        rewrite Hex
    end.
    by eexists _, _.
  - rewrite new_int_var_refused by done. by eexists _, _.
Qed.

Lemma tasks_separate_insert n tasks c iv :
  tasks_separate n tasks →
  tasks_separate (S (S n))
    (<[c := {| task_type.start := Var n; task_type.end_ := Var (S n);
               task_type.interval := iv |}]> tasks).
Proof.
  intros [Hbound Hsep]. split.
  - intros c1 x. destruct (decide (c1 = c)) as [->|Hne].
    + rewrite lookup_insert_eq. intros [= <-]. exists n, (S n). simpl.
      repeat split; lia.
    + rewrite lookup_insert_ne by done. intros Hx.
      destruct (Hbound c1 x Hx) as (a & b & ? & ? & ? & ? & ?).
      exists a, b. repeat split; [done|done|lia|lia|done].
  - intros c1 c2 x1 x2. destruct (decide (c1 = c)) as [->|Hne1];
      destruct (decide (c2 = c)) as [->|Hne2].
    + done.
    + rewrite lookup_insert_eq, lookup_insert_ne by done.
      intros [= <-] Hx2 _. simpl.
      destruct (Hbound c2 x2 Hx2) as (a & b & -> & -> & ? & ? & ?).
      repeat split; intros [= ?]; lia.
    + rewrite lookup_insert_eq, lookup_insert_ne by done.
      intros Hx1 [= <-] _. simpl.
      destruct (Hbound c1 x1 Hx1) as (a & b & -> & -> & ? & ? & ?).
      repeat split; intros [= ?]; lia.
    + rewrite !lookup_insert_ne by done. apply Hsep.
Qed.

(** When the engine accepts its declarations, [createVars] returns, leaves
    variables for exactly the operations of the instance in [all_tasks], and
    the variables identify the operations. *)
Lemma createVars_run (self : JSPModel) :
  declarable (data self) →
  ∃ self' tasks m2i,
    createVars self = (Return tt, self') ∧
    data self' = data self ∧ solver self' = solver self ∧
    status self' = status self ∧ obj_var self' = obj_var self ∧
    constraints (model self') = constraints (model self) ∧
    objective (model self') = objective (model self) ∧
    all_tasks self' = Some tasks ∧ machine_to_intervals self' = Some m2i ∧
    (∀ j t, is_Some (tasks !! (j, t)) ↔
            ∃ op, (j, (t, op)) ∈ operations (jobs_data (data self))) ∧
    tasks_separate (length (variables (model self'))) tasks.
Proof.
  intros Hacc. unfold declarable in Hacc.
  unfold createVars. run. rewrite for_nested. fold (operations (jobs_data (data self))).
  set (self0 := set_machine_to_intervals _ _).
  destruct (for_rule
    (λ pre (_ : unit) s,
       data s = data self ∧ solver s = solver self ∧
       status s = status self ∧ obj_var s = obj_var self ∧
       constraints (model s) = constraints (model self) ∧
       objective (model s) = objective (model self) ∧
       ∃ tasks m2i,
         all_tasks s = Some tasks ∧ machine_to_intervals s = Some m2i ∧
         (∀ j t, is_Some (tasks !! (j, t)) ↔ ∃ op, (j, (t, op)) ∈ pre) ∧
         tasks_separate (length (variables (model s))) tasks)
    (λ '(job_id, c), createVars_task job_id c)
    (operations (jobs_data (data self))) tt self0)
    as ([] & self' & Hrun & Hd & Hso & Hst & Ho & Hc & Hobj & tasks & m2i &
        HT & HI & Hdom & Hsep).
  - repeat split; try done. exists ∅, ∅. repeat split; try done.
    + intros [x Hx]. by rewrite lookup_empty in Hx.
    + intros [op Hop]. by apply elem_of_nil in Hop.
  - intros pre [j [t [m d]]] post [] s Hl
      (Hd & Hso & Hst & Ho & Hc & Hobj & tasks & m2i & HT & HI & Hdom & Hsep).
    rewrite Hl in Hacc. apply Forall_app in Hacc as [_ Hacc].
    apply Forall_cons in Hacc as [[Hhz Hdur] _]. simpl in Hdur.
    destruct (createVars_task_run s tasks m2i j t m d HT HI)
      as (s' & Hrun & Hd' & Hso' & Hst' & Ho' & Hc' & Hobj' & Hlen & HI' & HT');
      [by rewrite Hd|done|].
    exists tt, s'. split; [done|].
    repeat split; try congruence.
    eexists _, _. split; [exact HT'|]. split; [exact HI'|]. split.
    + intros j' t'. rewrite lookup_insert. case_decide as Heq.
      * injection Heq as <- <-. split; [|by eauto]. intros _. exists (m, d).
        apply elem_of_app. right. by left.
      * rewrite Hdom. split.
        -- intros [op Hop]. exists op. apply elem_of_app. by left.
        -- intros [op [Hop|Hop%list_elem_of_singleton]%elem_of_app]; [by eauto|].
           congruence.
    + rewrite Hlen. by apply tasks_separate_insert.
  - exists self', tasks, m2i. by split_and!.
Qed.

(** [createVars] returns only when the engine accepts its declarations. *)
Lemma createVars_returns (self self' : JSPModel) :
  createVars self = (Return tt, self') → declarable (data self).
Proof.
  unfold createVars. run. rewrite for_nested.
  fold (operations (jobs_data (data self))).
  set (self0 := set_machine_to_intervals _ _).
  apply (for_returns
    (λ o, int64 (horizon (data self)) ∧ int64 o.2.2.2)
    (λ s, data s = data self ∧ is_Some (all_tasks s) ∧
          is_Some (machine_to_intervals s))).
  - intros [j [t [m d]]] [] s (Hd & [tasks HT] & [m2i HI]) [Hhz Hdur].
    destruct (createVars_task_run s tasks m2i j t m d HT HI)
      as (s' & Hrun & Hd' & _ & _ & _ & _ & _ & _ & HI' & HT');
      [by rewrite Hd|done|].
    exists tt, s'. split; [done|]. split_and!; [congruence|by eexists..].
  - intros [j [t [m d]]] [] s (Hd & _) Hno. rewrite <-Hd in Hno.
    by apply createVars_task_refused.
  - by split_and!.
Qed.

Lemma posted_nil self : posted [] self self.
Proof. unfold posted. by rewrite app_nil_r. Qed.

Lemma posted_trans cs1 cs2 s1 s2 s3 :
  posted cs1 s1 s2 → posted cs2 s2 s3 → posted (cs1 ++ cs2) s1 s3.
Proof.
  unfold posted.
  intros (? & ? & ? & ? & ? & ? & ? & ? & Hc1)
         (? & ? & ? & ? & ? & ? & ? & ? & Hc2).
  rewrite Hc2, Hc1, app_assoc. split_and!; congruence.
Qed.

Lemma createConstrs_machine_run self m2i machine :
  machine_to_intervals self = Some m2i →
  ∃ self', createConstrs_machine machine tt self = (Return tt, self') ∧
           posted [NoOverlap (m2i !!! machine)] self self' ∧
           is_Some (machine_to_intervals self').
Proof.
  intros HI. unfold createConstrs_machine, dd_getitem. run. rewrite HI.
  rewrite lookup_total_alt.
  destruct (m2i !! machine) as [ivs|]; simpl;
    (eexists; split; [done|]); unfold posted; simpl;
    by split_and!.
Qed.

Lemma createConstrs_task_run self tasks j t prev next :
  all_tasks self = Some tasks →
  tasks !! (j, t) = Some prev → tasks !! (j, t + 1) = Some next →
  ∃ self', createConstrs_task j t tt self = (Return tt, self') ∧
    posted [GreaterOrEqual (task_type.start next) (task_type.end_ prev)]
           self self'.
Proof.
  intros HT Hprev Hnext. unfold createConstrs_task. run.
  rewrite HT. simpl. rewrite Hnext. simpl. rewrite HT. simpl.
  rewrite Hprev. simpl. eexists. split; [done|]. unfold posted. simpl.
  by split_and!.
Qed.

(** A consecutive pair has both its operations in the instance. *)
Lemma consecutive_operations (js : Jobs) j t :
  (j, t) ∈ consecutive js →
  (∃ op, (j, (t, op)) ∈ operations js) ∧
  (∃ op, (j, (t + 1, op)) ∈ operations js).
Proof.
  intros (n & job & -> & Hn & Ht0 & Ht)%elem_of_consecutive. unfold len in Ht.
  destruct (lookup_lt_is_Some_2 job (Z.to_nat t)) as [op1 Hop1]; [lia|].
  destruct (lookup_lt_is_Some_2 job (Z.to_nat (t + 1))) as [op2 Hop2]; [lia|].
  split; [exists op1|exists op2]; apply elem_of_operations.
  - exists n, (Z.to_nat t), job. split_and!; [done|lia|done|done].
  - exists n, (Z.to_nat (t + 1)), job. split_and!; [done|lia|done|done].
Qed.

Lemma createConstrs_run (self : JSPModel) tasks m2i :
  all_tasks self = Some tasks → machine_to_intervals self = Some m2i →
  (∀ j t op, (j, (t, op)) ∈ operations (jobs_data (data self)) →
             is_Some (tasks !! (j, t))) →
  ∃ self' no_overlaps precedences,
    createConstrs self = (Return tt, self') ∧
    posted (no_overlaps ++ precedences) self self' ∧
    Forall (λ c, ∃ ivs, c = NoOverlap ivs) no_overlaps ∧
    Forall2 (precedence_of tasks) (consecutive (jobs_data (data self)))
            precedences.
Proof.
  intros HT HI Hcover. unfold createConstrs. run.
  destruct (for_rule
    (λ (pre : list Z) (_ : unit) s,
       is_Some (machine_to_intervals s) ∧
       ∃ cs, posted cs self s ∧ Forall (λ c, ∃ ivs, c = NoOverlap ivs) cs)
    createConstrs_machine (all_machines (data self)) tt self)
    as ([] & self1 & -> & _ & no_overlaps & Hpost1 & Hno).
  - split; [by rewrite HI|]. exists []. split; [apply posted_nil|done].
  - intros pre machine post [] s _ ([m2i' HI'] & cs & Hpost & Hcs).
    destruct (createConstrs_machine_run s m2i' machine HI')
      as (s' & Hrun & Hpost' & HI'').
    exists tt, s'. split; [done|]. split; [done|].
    exists (cs ++ [NoOverlap (m2i' !!! machine)]). split.
    + by eapply posted_trans.
    + apply Forall_app. split; [done|]. constructor; [by eauto|done].
  - assert (data self1 = data self) as Hd by apply Hpost1.
    assert (all_tasks self1 = Some tasks) as HT1.
    { destruct Hpost1 as (_ & _ & _ & _ & -> & _). done. }
    rewrite Hd, for_nested. fold (consecutive (jobs_data (data self))).
    destruct (for_rule
      (λ (pre : list (Z * Z)) (_ : unit) s,
         ∃ cs, posted cs self1 s ∧ Forall2 (precedence_of tasks) pre cs)
      (λ '(job_id, c), createConstrs_task job_id c)
      (consecutive (jobs_data (data self))) tt self1)
      as ([] & self2 & -> & precedences & Hpost2 & Hprec).
    + exists []. split; [apply posted_nil|constructor].
    + intros pre [j t] post [] s Hl (cs & Hpost & Hcs).
      assert ((j, t) ∈ consecutive (jobs_data (data self))) as Hjt.
      { rewrite Hl. apply elem_of_app. right. left. }
      apply consecutive_operations in Hjt as [[op1 Hop1] [op2 Hop2]].
      destruct (Hcover _ _ _ Hop1) as [prev Hprev].
      destruct (Hcover _ _ _ Hop2) as [next Hnext].
      assert (all_tasks s = Some tasks) as HTs.
      { destruct Hpost as (_ & _ & _ & _ & -> & _). done. }
      destruct (createConstrs_task_run s tasks j t prev next HTs Hprev Hnext)
        as (s' & Hrun & Hpost').
      exists tt, s'. split; [done|]. eexists. split.
      * by eapply posted_trans.
      * apply Forall2_app; [done|]. constructor; [|constructor].
        by exists prev, next.
    + exists self2, no_overlaps, precedences. split; [done|].
      split; [by eapply posted_trans|]. done.
Qed.

(** The variables of a precedence constraint tell which operations it
    orders. *)
Lemma precedence_of_owner n tasks c k lhs rhs c1 c2 x1 x2 :
  tasks_separate n tasks → precedence_of tasks c k →
  k = GreaterOrEqual lhs rhs →
  tasks !! c1 = Some x1 → tasks !! c2 = Some x2 →
  lhs = task_type.start x1 ∨ lhs = task_type.end_ x1 →
  rhs = task_type.start x2 ∨ rhs = task_type.end_ x2 →
  c2 = c ∧ c1 = (c.1, c.2 + 1) ∧
  lhs = task_type.start x1 ∧ rhs = task_type.end_ x2.
Proof.
  intros [Hbound Hsep] (prev & next & Hprev & Hnext & ->) [= <- <-]
    Hx1 Hx2 Hlhs Hrhs.
  destruct c as [j t]; simpl in *.
  assert (c1 = (j, t + 1) ∧ task_type.start next = task_type.start x1)
    as [-> Hl].
  { destruct (decide (c1 = (j, t + 1))) as [->|Hne].
    - split; [done|]. rewrite Hnext in Hx1. injection Hx1 as <-.
      destruct Hlhs as [?|Heq]; [done|].
      destruct (Hbound _ _ Hnext) as (a & b & Ha & Hb & _ & _ & Hab).
      rewrite Ha, Hb in Heq. by injection Heq.
    - destruct (Hsep _ _ _ _ Hx1 Hnext Hne) as (H1 & _ & _).
      destruct (Hsep _ _ _ _ Hnext Hx1 (not_eq_sym Hne)) as (_ & H2 & _).
      destruct Hlhs as [Heq|Heq]; by rewrite Heq in *. }
  assert (c2 = (j, t) ∧ task_type.end_ prev = task_type.end_ x2) as [-> Hr].
  { destruct (decide (c2 = (j, t))) as [->|Hne].
    - split; [done|]. rewrite Hprev in Hx2. injection Hx2 as <-.
      destruct Hrhs as [Heq|?]; [|done].
      destruct (Hbound _ _ Hprev) as (a & b & Ha & Hb & _ & _ & Hab).
      rewrite Ha, Hb in Heq. by injection Heq.
    - destruct (Hsep _ _ _ _ Hx2 Hprev Hne) as (_ & H1 & H2).
      destruct Hrhs as [Heq|Heq]; by rewrite Heq in *. }
  done.
Qed.

(** C2: [createConstrs] runs on the object [createVars] has left.  When
    [createVars] has returned, [createConstrs] returns and posts, after the
    no-overlap constraints, one constraint [start(task_id + 1) >= end(task_id)]
    for every job and every consecutive pair [(task_id, task_id + 1)] of it,
    in order, and nothing else.  Every one of them orders two consecutive
    operations of the same job: if its left side is a variable of operation
    [c1] and its right side one of operation [c2], then [c1] and [c2] are in
    the same job, [c1] right after [c2]. *)
Theorem createConstrs_precedence (self self1 : JSPModel) :
  createVars self = (Return tt, self1) →
  ∃ self2 tasks no_overlaps precedences,
    createConstrs self1 = (Return tt, self2) ∧
    all_tasks self1 = Some tasks ∧ all_tasks self2 = Some tasks ∧
    constraints (model self2) =
      constraints (model self1) ++ no_overlaps ++ precedences ∧
    Forall (λ c, ∃ ivs, c = NoOverlap ivs) no_overlaps ∧
    Forall2 (precedence_of tasks) (consecutive (jobs_data (data self)))
            precedences ∧
    (∀ j t, (j, t) ∈ consecutive (jobs_data (data self)) ↔
            ∃ (n : nat) job, j = Z.of_nat n ∧
              jobs_data (data self) !! n = Some job ∧
              0 ≤ t ∧ t + 1 < len job) ∧
    (∀ lhs rhs c1 c2 x1 x2,
       GreaterOrEqual lhs rhs ∈ no_overlaps ++ precedences →
       tasks !! c1 = Some x1 → tasks !! c2 = Some x2 →
       lhs = task_type.start x1 ∨ lhs = task_type.end_ x1 →
       rhs = task_type.start x2 ∨ rhs = task_type.end_ x2 →
       c1.1 = c2.1 ∧ c1.2 = c2.2 + 1 ∧ c2 ∈ consecutive (jobs_data (data self)) ∧
       lhs = task_type.start x1 ∧ rhs = task_type.end_ x2).
Proof.
  intros Hrun.
  destruct (createVars_run self (createVars_returns _ _ Hrun))
    as (self1' & tasks & m2i & Hrun1 & Hd & _ & _ & _ & _ & _ & HT & HI &
        Hdom & Hsep).
  rewrite Hrun in Hrun1. injection Hrun1 as <-.
  destruct (createConstrs_run self1 tasks m2i HT HI)
    as (self2 & no_overlaps & precedences & Hrun2 & Hpost & Hno & Hprec).
  { intros j t op Hop. apply Hdom. exists op. by rewrite <-Hd. }
  rewrite Hd in Hprec.
  exists self2, tasks, no_overlaps, precedences.
  split_and!; try done.
  - destruct Hpost as (_ & _ & _ & _ & -> & _). done.
  - apply Hpost.
  - intros j t. apply elem_of_consecutive.
  - intros lhs rhs c1 c2 x1 x2 Hin Hx1 Hx2 Hlhs Hrhs.
    apply elem_of_app in Hin as [Hin|Hin].
    { rewrite Forall_forall in Hno. by destruct (Hno _ Hin) as [ivs ?]. }
    apply list_elem_of_lookup in Hin as [i Hi].
    destruct (Forall2_lookup_r _ _ _ _ _ Hprec Hi) as (c & Hc & Hof).
    destruct (precedence_of_owner _ _ _ _ _ _ _ _ _ _ Hsep Hof eq_refl
                Hx1 Hx2 Hlhs Hrhs) as (-> & -> & ? & ?).
    split_and!; try done. destruct c. by eapply list_elem_of_lookup_2.
Qed.

Lemma createConstrs_precedence_main :
  let self1 := (createVars (JSPModel_init main_data)).2 in
  createVars (JSPModel_init main_data) = (Return tt, self1) ∧
  ∃ self2 tasks no_overlaps precedences,
    createConstrs self1 = (Return tt, self2) ∧
    all_tasks self1 = Some tasks ∧ all_tasks self2 = Some tasks ∧
    constraints (model self2) =
      constraints (model self1) ++ no_overlaps ++ precedences ∧
    Forall (λ c, ∃ ivs, c = NoOverlap ivs) no_overlaps ∧
    Forall2 (precedence_of tasks) (consecutive main_jobs_data) precedences ∧
    (∀ j t, (j, t) ∈ consecutive main_jobs_data ↔
            ∃ (n : nat) job, j = Z.of_nat n ∧
              main_jobs_data !! n = Some job ∧ 0 ≤ t ∧ t + 1 < len job) ∧
    (∀ lhs rhs c1 c2 x1 x2,
       GreaterOrEqual lhs rhs ∈ no_overlaps ++ precedences →
       tasks !! c1 = Some x1 → tasks !! c2 = Some x2 →
       lhs = task_type.start x1 ∨ lhs = task_type.end_ x1 →
       rhs = task_type.start x2 ∨ rhs = task_type.end_ x2 →
       c1.1 = c2.1 ∧ c1.2 = c2.2 + 1 ∧ c2 ∈ consecutive main_jobs_data ∧
       lhs = task_type.start x1 ∧ rhs = task_type.end_ x2).
Proof.
  intros self1.
  assert (createVars (JSPModel_init main_data) = (Return tt, self1)) as Hrun
    by by vm_compute.
  split; [exact Hrun|].
  apply (createConstrs_precedence (JSPModel_init main_data) self1 Hrun).
Defined.

(** ** [createObj] *)

Lemma tasks_cover_iff self :
  tasks_cover self ↔
  ∃ tasks, all_tasks self = Some tasks ∧
    ∀ j t op, (j, (t, op)) ∈ operations (jobs_data (data self)) →
              is_Some (tasks !! (j, t)).
Proof.
  unfold tasks_cover. destruct (all_tasks self) as [tasks|].
  - rewrite Forall_forall. split.
    + intros Hall. exists tasks. split; [done|]. intros j t op Hop.
      apply (Hall _ Hop).
    + intros (? & [= <-] & Hall) [j [t op]] Hop. by apply (Hall j t op).
  - split; [done|]. by intros (? & ? & _).
Qed.

Lemma tasks_cover_createVars self self' :
  createVars self = (Return tt, self') → tasks_cover self'.
Proof.
  intros Hrun.
  destruct (createVars_run self (createVars_returns _ _ Hrun))
    as (self1 & tasks & m2i & Hrun1 & Hd & _ & _ & _ & _ & _ & HT & _ & Hdom & _).
  rewrite Hrun in Hrun1. injection Hrun1 as <-. apply tasks_cover_iff. exists tasks. split; [done|].
  intros j t op Hop. apply Hdom. exists op. by rewrite <-Hd.
Qed.

(** When [createVars] has returned for an instance with an operation, the
    engine has accepted the horizon as a bound. *)
Lemma createVars_returns_horizon self self' :
  createVars self = (Return tt, self') →
  operations (jobs_data (data self)) ≠ [] →
  int64 (horizon (data self)).
Proof.
  intros Hacc%createVars_returns Hops. unfold declarable in Hacc.
  destruct (operations (jobs_data (data self))) as [|o os]; [done|].
  by apply Forall_cons in Hacc as [[? _] _].
Qed.

Lemma tasks_cover_posted cs self self' :
  posted cs self self' → tasks_cover self → tasks_cover self'.
Proof.
  intros (Hd & _ & _ & _ & HT & _). unfold tasks_cover. by rewrite HT, Hd.
Qed.

(** The last operation of a job that has one. *)
Lemma last_operation (js : Jobs) j job :
  (j, job) ∈ enumerate js → job ≠ [] →
  ∃ op, (j, (len job - 1, op)) ∈ operations js.
Proof.
  intros (n & -> & Hn)%elem_of_enumerate Hne.
  assert (0 < length job)%nat as Hlen by (destruct job; [done|simpl; lia]).
  destruct (lookup_lt_is_Some_2 job (length job - 1)) as [op Hop]; [lia|].
  exists op. apply elem_of_operations.
  exists n, (length job - 1)%nat, job. unfold len. split_and!; [done|lia|done|done].
Qed.

Lemma createObj_end_run self tasks j job last acc :
  all_tasks self = Some tasks → tasks !! (j, len job - 1) = Some last →
  createObj_end (j, job) acc self =
  (Return (acc ++ [task_type.end_ last]), self).
Proof.
  intros HT Hlast. unfold createObj_end. run. rewrite HT. simpl.
  by rewrite Hlast.
Qed.

(** What [createObj] does on a model that has the variables of the last
    operation of every job. *)
Lemma createObj_run (self : JSPModel) tasks :
  all_tasks self = Some tasks →
  (∀ j t op, (j, (t, op)) ∈ operations (jobs_data (data self)) →
             is_Some (tasks !! (j, t))) →
  Forall (λ job, job ≠ []) (jobs_data (data self)) →
  int64 (horizon (data self)) →
  ∃ self' ends,
    createObj self = (Return tt, self') ∧
    variables (model self') =
      variables (model self) ++
      [{| lb := 0; ub := horizon (data self); var_name := "makespan" |}] ∧
    interval_vars (model self') = interval_vars (model self) ∧
    constraints (model self') =
      constraints (model self) ++
      [MaxEquality (Var (length (variables (model self)))) ends] ∧
    Forall2 (λ '(j, job) v, ∃ last, tasks !! (j, len job - 1) = Some last ∧
                                    v = task_type.end_ last)
            (enumerate (jobs_data (data self))) ends ∧
    objective (model self') = Some (Var (length (variables (model self)))) ∧
    obj_var self' = Some (Var (length (variables (model self)))) ∧
    data self' = data self ∧ all_tasks self' = all_tasks self ∧
    solver self' = solver self ∧ status self' = status self.
Proof.
  intros HT Hcover Hne Hhz.
  unfold createObj. run.
  rewrite new_int_var_run by (done || apply int64_0). simpl.
  set (self1 := set_model _ self).
  destruct (for_rule
    (λ pre acc s,
       s = self1 ∧
       Forall2 (λ '(j, job) v, ∃ last, tasks !! (j, len job - 1) = Some last ∧
                                       v = task_type.end_ last) pre acc)
    createObj_end (enumerate (jobs_data (data self))) [] self1)
    as (ends & s & -> & -> & Hends).
  - split; [done|constructor].
  - intros pre [j job] post acc s Hl [-> Hacc].
    assert ((j, job) ∈ enumerate (jobs_data (data self))) as Hin.
    { rewrite Hl. apply elem_of_app. right. left. }
    destruct (last_operation _ _ _ Hin) as [op Hop].
    { rewrite Forall_forall in Hne. apply Hne.
      apply elem_of_enumerate in Hin as (n & _ & Hn).
      by eapply list_elem_of_lookup_2. }
    destruct (Hcover _ _ _ Hop) as [last Hlast].
    exists (acc ++ [task_type.end_ last]), self1. split.
    + by apply (createObj_end_run self1 tasks).
    + split; [done|]. apply Forall2_app; [done|].
      constructor; [by exists last|constructor].
  - eexists. exists ends. split; [reflexivity|]. simpl.
    by split_and!.
Qed.

(** C3: on a model that has the variables of every operation, for an
    instance whose jobs all have an operation and whose horizon the engine
    accepts as a bound (as it has when [createVars] has returned after
    declaring the variables of an operation, which have the same bound:
    [createVars_returns_horizon]), [createObj] returns, having declared exactly one more
    integer variable, named [makespan], with domain [[0, horizon]], posted
    exactly one more constraint, the max-equality of that variable with the
    list of the [end] variables of the last operation of every job, in job
    order, and set the objective to the minimization of that variable. *)
Theorem createObj_makespan (self : JSPModel) :
  tasks_cover self →
  Forall (λ job, job ≠ []) (jobs_data (data self)) →
  int64 (horizon (data self)) →
  ∃ self' tasks ends,
    createObj self = (Return tt, self') ∧
    all_tasks self = Some tasks ∧
    variables (model self') =
      variables (model self) ++
      [{| lb := 0; ub := horizon (data self); var_name := "makespan" |}] ∧
    interval_vars (model self') = interval_vars (model self) ∧
    constraints (model self') =
      constraints (model self) ++
      [MaxEquality (Var (length (variables (model self)))) ends] ∧
    Forall2 (λ '(j, job) v, ∃ last, tasks !! (j, len job - 1) = Some last ∧
                                    v = task_type.end_ last)
            (enumerate (jobs_data (data self))) ends ∧
    objective (model self') = Some (Var (length (variables (model self)))) ∧
    obj_var self' = Some (Var (length (variables (model self)))) ∧
    data self' = data self ∧ all_tasks self' = all_tasks self ∧
    solver self' = solver self ∧ status self' = status self.
Proof.
  intros (tasks & HT & Hcover)%tasks_cover_iff Hne Hhz.
  destruct (createObj_run self tasks HT Hcover Hne Hhz)
    as (self' & ends & Hrun & Hvars & Hivs & Hcs & Hends & Hobj & Hov &
        Hd & HT' & Hso & Hst).
  exists self', tasks, ends. by split_and!.
Qed.

Lemma createObj_makespan_main :
  ∃ self' tasks ends,
    createObj main_built = (Return tt, self') ∧
    all_tasks main_built = Some tasks ∧
    variables (model self') =
      variables (model main_built) ++
      [{| lb := 0; ub := 21; var_name := "makespan" |}] ∧
    interval_vars (model self') = interval_vars (model main_built) ∧
    constraints (model self') =
      constraints (model main_built) ++ [MaxEquality (Var 16) ends] ∧
    Forall2 (λ '(j, job) v, ∃ last, tasks !! (j, len job - 1) = Some last ∧
                                    v = task_type.end_ last)
            (enumerate main_jobs_data) ends ∧
    objective (model self') = Some (Var 16) ∧
    obj_var self' = Some (Var 16) ∧
    data self' = data main_built ∧ all_tasks self' = all_tasks main_built ∧
    solver self' = solver main_built ∧ status self' = status main_built.
Proof.
  apply (createObj_makespan main_built).
  - apply (bool_decide_unpack (tasks_cover main_built)). by vm_compute.
  - by repeat constructor.
  - apply (bool_decide_unpack (int64 21)). by vm_compute.
Defined.

(** ** [extract_solution] *)

Lemma bucket_total_insert (assigned_jobs : Schedule) k bucket :
  (bucket_total (<[k := bucket]> assigned_jobs) +
   length (assigned_jobs !!! k))%nat =
  (bucket_total assigned_jobs + length bucket)%nat.
Proof.
  unfold bucket_total. rewrite lookup_total_alt.
  destruct (assigned_jobs !! k) as [old|] eqn:Hk; simpl.
  - rewrite <-(insert_delete_eq assigned_jobs).
    rewrite (map_fold_delete_L _ _ k old assigned_jobs); [|intros; lia|done].
    rewrite map_fold_insert_L; [lia|intros; lia|apply lookup_delete_eq].
  - rewrite map_fold_insert_L; [lia|intros; lia|done].
Qed.

Lemma dd_getitem_eq {V} (k : Z) (d : gmap Z (list V)) :
  dd_getitem k d = (d !!! k, <[k := d !!! k]> d).
Proof.
  unfold dd_getitem. rewrite lookup_total_alt.
  destruct (d !! k) as [l|] eqn:Hk; simpl; [|done]. by rewrite insert_id.
Qed.

Lemma extract_solution_task_run self tasks sv j t m d x assigned_jobs :
  solver self = Some sv → all_tasks self = Some tasks →
  tasks !! (j, t) = Some x →
  extract_solution_task j (t, (m, d)) assigned_jobs self =
  (Return (<[m := assigned_jobs !!! m ++
                  [{| assigned_task_type.start := value sv (task_type.start x);
                      assigned_task_type.job := j;
                      assigned_task_type.index := t;
                      assigned_task_type.duration := d |}]]> assigned_jobs),
   set_solver (Some {| value := value sv;
                       reads := reads sv ++ [task_type.start x] |}) self).
Proof.
  intros Hsv HT Hx. unfold extract_solution_task, solver_value.
  rewrite dd_getitem_eq. run. rewrite Hsv. simpl. rewrite HT. simpl.
  rewrite Hx. simpl. rewrite Hsv. by rewrite insert_insert_eq.
Qed.

Lemma extract_solution_loop self tasks sv :
  solver self = Some sv → all_tasks self = Some tasks →
  (∀ j t op, (j, (t, op)) ∈ operations (jobs_data (data self)) →
             is_Some (tasks !! (j, t))) →
  ∃ assigned_jobs starts,
    for_ (operations (jobs_data (data self)))
         (λ '(job_id, c), extract_solution_task job_id c) ∅ self =
    (Return assigned_jobs,
     set_solver (Some {| value := value sv; reads := reads sv ++ starts |})
                self) ∧
    bucket_total assigned_jobs = length (operations (jobs_data (data self))) ∧
    Forall2 (λ o v, ∃ x, tasks !! (o.1, o.2.1) = Some x ∧
                         v = task_type.start x)
            (operations (jobs_data (data self))) starts ∧
    ∀ k, Forall2 (assigned_of tasks sv)
           (filter (λ o, o.2.2.1 = k) (operations (jobs_data (data self))))
           (assigned_jobs !!! k).
Proof.
  intros Hsv HT Hcover.
  destruct (for_rule
    (λ pre (acc : Schedule) s,
       ∃ starts,
         s = set_solver
               (Some {| value := value sv; reads := reads sv ++ starts |})
               self ∧
         bucket_total acc = length pre ∧
         Forall2 (λ o v, ∃ x, tasks !! (o.1, o.2.1) = Some x ∧
                              v = task_type.start x) pre starts ∧
         ∀ k, Forall2 (assigned_of tasks sv)
                (filter (λ o, o.2.2.1 = k) pre) (acc !!! k))
    (λ '(job_id, c), extract_solution_task job_id c)
    (operations (jobs_data (data self))) ∅ self)
    as (acc & s & Hrun & starts & -> & Htot & Hstarts & Hbuckets).
  - exists []. split_and!.
    + rewrite app_nil_r. destruct self, sv. simpl in *. by subst.
    + done.
    + constructor.
    + intros k. rewrite lookup_total_empty. constructor.
  - intros pre [j [t [m d]]] post acc s Hl
      (starts & -> & Htot & Hstarts & Hbuckets).
    destruct (Hcover j t (m, d)) as [x Hx].
    { rewrite Hl. apply elem_of_app. right. left. }
    eexists _, _. split.
    { by apply (extract_solution_task_run _ tasks
                  {| value := value sv; reads := reads sv ++ starts |}). }
    exists (starts ++ [task_type.start x]). split_and!.
    + simpl. by rewrite app_assoc.
    + pose proof (bucket_total_insert acc m
        (acc !!! m ++
         [{| assigned_task_type.start := value sv (task_type.start x);
             assigned_task_type.job := j; assigned_task_type.index := t;
             assigned_task_type.duration := d |}])) as Hins.
      rewrite !length_app in *. simpl in *. lia.
    + apply Forall2_app; [done|]. constructor; [by exists x|constructor].
    + intros k. rewrite filter_app, filter_singleton; [|done]. simpl.
      destruct (decide (m = k)) as [->|Hne].
      * rewrite lookup_total_insert_eq. apply Forall2_app; [done|].
        constructor; [by exists x|constructor].
      * rewrite lookup_total_insert_ne, app_nil_r by done. done.
  - by exists acc, starts.
Qed.

(** Coordinates name operations: no two operations of an instance have the
    same [(job_id, task_id)]. *)
Lemma enumerate_fst_NoDup {A} (l : list A) : NoDup (enumerate l).*1.
Proof.
  apply NoDup_alt. intros i j x. unfold enumerate.
  rewrite !list_lookup_fmap, !list_lookup_imap.
  destruct (l !! i), (l !! j); simpl; try done. intros [= <-] [= ?]. lia.
Qed.

Lemma enumerate_snd {A} (l : list A) : (enumerate l).*2 = l.
Proof.
  apply list_eq. intros i. unfold enumerate.
  rewrite list_lookup_fmap, list_lookup_imap. by destruct (l !! i).
Qed.

Lemma enumerate_functional {A} (l : list A) i x y :
  (i, x) ∈ enumerate l → (i, y) ∈ enumerate l → x = y.
Proof.
  intros (n & -> & Hn)%elem_of_enumerate (n' & Heq & Hn')%elem_of_enumerate.
  assert (n' = n) as -> by lia. congruence.
Qed.

Lemma fmap_bind_list {A B C} (g : B → C) (f : A → list B) (l : list A) :
  g <$> (l ≫= f) = l ≫= (λ x, g <$> f x).
Proof.
  induction l as [|x l IH]; [done|]. by rewrite !bind_cons, fmap_app, IH.
Qed.

Lemma operations_NoDup (js : Jobs) :
  NoDup ((λ o, (o.1, o.2.1)) <$> operations js).
Proof.
  unfold operations, for_job. rewrite fmap_bind_list. apply NoDup_bind.
  - intros [j1 job1] [j2 job2] [j t] H1 H2 Hy1 Hy2. simpl in *.
    apply list_elem_of_fmap in Hy1 as (o1 & [= -> _] & Ho1).
    apply list_elem_of_fmap in Ho1 as (e1 & -> & _).
    apply list_elem_of_fmap in Hy2 as (o2 & [= Hj _] & Ho2).
    apply list_elem_of_fmap in Ho2 as (e2 & -> & _). simpl in Hj. subst j2.
    f_equal. by eapply enumerate_functional.
  - intros [j job] _. simpl. rewrite <-list_fmap_compose.
    apply NoDup_alt. intros i i' c. unfold enumerate.
    rewrite !list_lookup_fmap, !list_lookup_imap.
    destruct (job !! i), (job !! i'); simpl; try done.
    intros [= <-] [= ?]. lia.
  - eapply NoDup_fmap_1, enumerate_fst_NoDup.
Qed.

Lemma length_operations (js : Jobs) :
  length (operations js) = sum_list_with length js.
Proof.
  unfold operations, for_job.
  rewrite <-(enumerate_snd js) at 2. generalize (enumerate js). intros l.
  induction l as [|[j job] l IH]; [done|].
  rewrite bind_cons, length_app, IH, length_fmap. simpl. f_equal.
  unfold enumerate. apply length_imap.
Qed.

Lemma Forall2_filter_length {A B} (R : A → B → Prop) (P : A → Prop)
    (Q : B → Prop) `{!∀ x, Decision (P x), !∀ y, Decision (Q y)} l k :
  (∀ x y, R x y → (P x ↔ Q y)) → Forall2 R l k →
  length (filter P l) = length (filter Q k).
Proof.
  intros HPQ. induction 1 as [|x y l k HR _ IH]; [done|].
  rewrite !filter_cons. pose proof (HPQ x y HR).
  destruct (decide (P x)), (decide (Q y)); simpl; rewrite ?IH; tauto.
Qed.

Lemma filter_not_elem_of {A B} `{EqDecision B} (f : A → B) (l : list A) b :
  b ∉ f <$> l → filter (λ y, f y = b) l = [].
Proof.
  induction l as [|z l IH]; intros Hb; [done|].
  rewrite fmap_cons, not_elem_of_cons in Hb. destruct Hb as [Hne Hb].
  rewrite filter_cons, decide_False by done. by apply IH.
Qed.

Lemma filter_NoDup_singleton {A B} `{EqDecision B} (f : A → B) (l : list A) x :
  NoDup (f <$> l) → x ∈ l → filter (λ y, f y = f x) l = [x].
Proof.
  induction l as [|z l IH]; intros Hnd Hx; [by apply elem_of_nil in Hx|].
  rewrite fmap_cons in Hnd. apply NoDup_cons in Hnd as [Hz Hnd].
  rewrite filter_cons. apply elem_of_cons in Hx as [->|Hx].
  - rewrite decide_True by done. f_equal. by apply filter_not_elem_of.
  - rewrite decide_False; [by apply IH|].
    intros Heq. apply Hz. rewrite Heq. by apply list_elem_of_fmap_2.
Qed.

Lemma in_OPTIMAL_FEASIBLE_true st :
  in_OPTIMAL_FEASIBLE st = true ↔ st = Some OPTIMAL ∨ st = Some FEASIBLE.
Proof.
  unfold in_OPTIMAL_FEASIBLE.
  rewrite orb_true_iff, !bool_decide_eq_true. done.
Qed.

Lemma in_OPTIMAL_FEASIBLE_false st :
  in_OPTIMAL_FEASIBLE st = false ↔ st ≠ Some OPTIMAL ∧ st ≠ Some FEASIBLE.
Proof.
  unfold in_OPTIMAL_FEASIBLE.
  rewrite orb_false_iff, !bool_decide_eq_false. done.
Qed.

(** What [extract_solution] does after a successful search on a model that
    has the variables of every operation. *)
Lemma extract_solution_run self tasks sv :
  status self = Some OPTIMAL ∨ status self = Some FEASIBLE →
  solver self = Some sv → all_tasks self = Some tasks →
  (∀ j t op, (j, (t, op)) ∈ operations (jobs_data (data self)) →
             is_Some (tasks !! (j, t))) →
  ∃ assigned_jobs starts,
    extract_solution self =
    (Return (Some assigned_jobs),
     set_solver (Some {| value := value sv; reads := reads sv ++ starts |})
                self) ∧
    bucket_total assigned_jobs = length (operations (jobs_data (data self))) ∧
    Forall2 (λ o v, ∃ x, tasks !! (o.1, o.2.1) = Some x ∧
                         v = task_type.start x)
            (operations (jobs_data (data self))) starts ∧
    ∀ k, Forall2 (assigned_of tasks sv)
           (filter (λ o, o.2.2.1 = k) (operations (jobs_data (data self))))
           (assigned_jobs !!! k).
Proof.
  intros Hst%in_OPTIMAL_FEASIBLE_true Hsv HT Hcover.
  destruct (extract_solution_loop self tasks sv Hsv HT Hcover)
    as (assigned_jobs & starts & Hrun & Htot & Hstarts & Hbuckets).
  exists assigned_jobs, starts. split; [|done].
  unfold extract_solution. run. rewrite Hst. simpl.
  rewrite for_nested. fold (operations (jobs_data (data self))).
  by rewrite Hrun.
Qed.

(** C4: when the status is neither [OPTIMAL] nor [FEASIBLE] (also when no
    search has run), [extract_solution] returns [None] and leaves the object
    as it is: in particular the solver's log of value requests is unchanged,
    no assignment was read.  When the status is [OPTIMAL] or [FEASIBLE], on a
    model that has the variables of every operation and a solver, it returns
    a mapping, not [None]. *)
Theorem extract_solution_status (self : JSPModel) :
  (status self ≠ Some OPTIMAL → status self ≠ Some FEASIBLE →
   extract_solution self = (Return None, self)) ∧
  (status self = Some OPTIMAL ∨ status self = Some FEASIBLE →
   tasks_cover self → is_Some (solver self) →
   ∃ assigned_jobs self',
     extract_solution self = (Return (Some assigned_jobs), self')).
Proof.
  split.
  - intros H1 H2. unfold extract_solution. run.
    by rewrite (proj2 (in_OPTIMAL_FEASIBLE_false _) (conj H1 H2)).
  - intros Hst (tasks & HT & Hcover)%tasks_cover_iff [sv Hsv].
    destruct (extract_solution_run self tasks sv Hst Hsv HT Hcover)
      as (assigned_jobs & starts & Hrun & _).
    eauto.
Qed.

Lemma extract_solution_status_main :
  extract_solution (JSPModel_init main_data) =
    (Return None, JSPModel_init main_data) ∧
  extract_solution (set_status (Some INFEASIBLE) main_solved) =
    (Return None, set_status (Some INFEASIBLE) main_solved) ∧
  ∃ assigned_jobs self',
    extract_solution main_solved = (Return (Some assigned_jobs), self').
Proof.
  split; [|split].
  - by apply (extract_solution_status (JSPModel_init main_data)).
  - by apply (extract_solution_status (set_status (Some INFEASIBLE) main_solved)).
  - apply (extract_solution_status main_solved).
    + left. reflexivity.
    + apply (bool_decide_unpack (tasks_cover main_solved)). by vm_compute.
    + apply (bool_decide_unpack (is_Some (solver main_solved))).
      by vm_compute.
Defined.

(** C5: after a successful search, on a model that has the variables of
    every operation, [extract_solution] returns a mapping whose buckets hold
    as many assigned tasks in all as the instance has operations.  The bucket
    of machine [k] is, in order, the assigned tasks of the operations of
    machine [k]; so the operation at [(j, t)] has exactly one assigned task
    with job [j] and index [t] in the bucket of its machine and none in
    another bucket.  The [start] variable of every operation is read once. *)
Theorem extract_solution_complete (self : JSPModel) (sv : CpSolver) :
  status self = Some OPTIMAL ∨ status self = Some FEASIBLE →
  tasks_cover self → solver self = Some sv →
  ∃ assigned_jobs self' tasks,
    extract_solution self = (Return (Some assigned_jobs), self') ∧
    all_tasks self = Some tasks ∧
    bucket_total assigned_jobs = length (operations (jobs_data (data self))) ∧
    length (operations (jobs_data (data self))) =
      sum_list_with length (jobs_data (data self)) ∧
    (∀ k, Forall2 (assigned_of tasks sv)
            (filter (λ o, o.2.2.1 = k) (operations (jobs_data (data self))))
            (assigned_jobs !!! k)) ∧
    (∀ j t m d k,
       (j, (t, (m, d))) ∈ operations (jobs_data (data self)) →
       length (filter (λ a, assigned_task_type.job a = j ∧
                            assigned_task_type.index a = t)
                      (assigned_jobs !!! k)) =
       if decide (k = m) then 1%nat else 0%nat).
Proof.
  intros Hst (tasks & HT & Hcover)%tasks_cover_iff Hsv.
  destruct (extract_solution_run self tasks sv Hst Hsv HT Hcover)
    as (assigned_jobs & starts & Hrun & Htot & _ & Hbuckets).
  eexists assigned_jobs, _, tasks.
  split_and!; [done|done|done|apply length_operations|done|].
  intros j t m d k Hop.
  assert (∀ o a, assigned_of tasks sv o a →
            (o.1, o.2.1) = (j, t) ↔
            assigned_task_type.job a = j ∧ assigned_task_type.index a = t)
    as HPQ.
  { intros o a (x & _ & ->). simpl. split; [by intros [= -> ->]|].
    by intros [-> ->]. }
  rewrite <-(Forall2_filter_length _ (λ o, (o.1, o.2.1) = (j, t)) _ _ _
               HPQ (Hbuckets k)).
  rewrite list_filter_filter.
  rewrite (list_filter_iff _ (λ o, o.2.2.1 = k ∧ (o.1, o.2.1) = (j, t)))
    by (intros; tauto).
  rewrite <-list_filter_filter.
  rewrite (filter_NoDup_singleton (λ o, (o.1, o.2.1)) _ (j, (t, (m, d)))
             (operations_NoDup _) Hop).
  rewrite filter_cons, filter_nil. simpl.
  destruct (decide (m = k)), (decide (k = m)); done || congruence.
Qed.

Lemma extract_solution_complete_main :
  ∃ assigned_jobs self' tasks,
    extract_solution main_solved = (Return (Some assigned_jobs), self') ∧
    all_tasks main_solved = Some tasks ∧
    bucket_total assigned_jobs = length (operations main_jobs_data) ∧
    length (operations main_jobs_data) = sum_list_with length main_jobs_data ∧
    (∀ k, Forall2 (assigned_of tasks
                     {| value := (main_engine CpModel_new).2; reads := [] |})
            (filter (λ o, o.2.2.1 = k) (operations main_jobs_data))
            (assigned_jobs !!! k)) ∧
    (∀ j t m d k,
       (j, (t, (m, d))) ∈ operations main_jobs_data →
       length (filter (λ a, assigned_task_type.job a = j ∧
                            assigned_task_type.index a = t)
                      (assigned_jobs !!! k)) =
       if decide (k = m) then 1%nat else 0%nat).
Proof.
  apply (extract_solution_complete main_solved).
  - left. reflexivity.
  - apply (bool_decide_unpack (tasks_cover main_solved)). by vm_compute.
  - reflexivity.
Defined.

(** ** The methods in the order of [run_model] *)

Lemma solve_run engine self :
  solve engine self =
  (Return (engine (model self)).1,
   set_status (Some (engine (model self)).1)
     (set_solver (Some {| value := (engine (model self)).2; reads := [] |})
                 self)).
Proof. unfold solve. run. by destruct (engine (model self)). Qed.

(** For an instance whose jobs all have an operation and whose numbers
    the engine accepts, the four methods return one after the other, and
    leave a model that has the variables of every operation, a solver and
    the status of the search: the state in which [extract_solution] is
    called. *)
Lemma run_model_solved engine (self : JSPModel) :
  Forall (λ job, job ≠ []) (jobs_data (data self)) →
  declarable (data self) → int64 (horizon (data self)) →
  ∃ st self',
    (createVars;; createConstrs;; createObj;; solve engine) self =
      (Return st, self') ∧
    tasks_cover self' ∧ is_Some (solver self') ∧ status self' = Some st ∧
    data self' = data self.
Proof.
  intros Hne Hacc Hhz.
  destruct (createVars_run self Hacc)
    as (self1 & tasks & m2i & Hrun1 & Hd1 & _ & _ & _ & _ & _ & HT & HI &
        Hdom & _).
  assert (tasks_cover self1) as Hcover1 by by eapply tasks_cover_createVars.
  destruct (createConstrs_run self1 tasks m2i HT HI)
    as (self2 & no_overlaps & precedences & Hrun2 & Hpost & _).
  { intros j t op Hop. apply Hdom. exists op. by rewrite <-Hd1. }
  assert (tasks_cover self2) as Hcover2 by by eapply tasks_cover_posted.
  assert (data self2 = data self) as Hd2.
  { destruct Hpost as (-> & _). done. }
  assert (all_tasks self2 = Some tasks) as HT2.
  { destruct Hpost as (_ & _ & _ & _ & -> & _). done. }
  destruct (createObj_run self2 tasks HT2)
    as (self3 & ends & Hrun3 & _ & _ & _ & _ & _ & _ & Hd3 & HT3 & _ & _).
  { intros j t op Hop. rewrite Hd2 in Hop. apply Hdom. by exists op. }
  { by rewrite Hd2. }
  { by rewrite Hd2. }
  assert (tasks_cover self3) as Hcover3.
  { unfold tasks_cover in *. by rewrite HT3, Hd3. }
  eexists _, _. split.
  - unfold mbind, M_bind. rewrite Hrun1, Hrun2, Hrun3. apply solve_run.
  - split_and!; [|by eexists|done|simpl; congruence].
    unfold tasks_cover in *. simpl. done.
Qed.

(** With an empty job in the instance, [createObj] looks up the key
    [(job_id, -1)] and raises. *)
Example createObj_empty_job :
  let d := {| jobs_data := [[(0, 1)]; []]; machines_count := 1;
              all_machines := [0]; horizon := 1 |} in
  Data_init (Some [[(0, 1)]; []]) [[(0, 1)]; []] = Return d ∧
  ((createVars;; createConstrs;; createObj) (JSPModel_init d)).1 =
    Raise KeyError.
Proof. split; [done|]. by vm_compute. Qed.

(** * Further properties *)

(** ** The instance: machines and horizon *)

(** The machines of an accepted instance are the ids from 0 up to, and
    without, [machines_count], each once.  An operation of the argument has
    its machine among them exactly when its machine id is not negative. *)
Theorem Data_init_all_machines_range (g : option Jobs) (x : Jobs) (d : Data) :
  Data_init g x = Return d →
  NoDup (all_machines d) ∧
  (∀ k, k ∈ all_machines d ↔ 0 ≤ k < machines_count d) ∧
  (∀ job op, job ∈ x → op ∈ job → (op.1 ∈ all_machines d ↔ 0 ≤ op.1)).
Proof.
  intros Hd. pose proof (Data_init_all_machines g x d Hd) as Hm.
  destruct g as [g|]; [|done].
  apply Data_init_Return in Hd as (mx & Hmx & ->). simpl in *.
  apply py_max_spec in Hmx as [_ Hub].
  assert (∀ k, k ∈ py_range (1 + mx) ↔ 0 ≤ k < 1 + mx) as Hrange.
  { intros k. unfold py_range. rewrite elem_of_seqZ. lia. }
  split; [apply NoDup_seqZ|]. split; [done|].
  intros job op Hjob Hop. rewrite Hrange.
  assert (op.1 ≤ mx); [|lia].
  apply Hub, elem_of_for_job_for_task. eauto.
Qed.

Lemma Data_init_all_machines_range_main :
  NoDup (all_machines main_data) ∧
  (∀ k, k ∈ all_machines main_data ↔ 0 ≤ k < machines_count main_data) ∧
  (∀ job op, job ∈ main_jobs_data → op ∈ job →
             (op.1 ∈ all_machines main_data ↔ 0 ≤ op.1)).
Proof.
  apply (Data_init_all_machines_range (Some main_jobs_data) main_jobs_data).
  reflexivity.
Defined.

Lemma job_duration_bound (job : Job) (op : Operation) :
  (∀ op', op' ∈ job → 0 ≤ op'.2) → op ∈ job →
  0 ≤ op.2 ≤ foldr (λ op acc, op.2 + acc) 0 job.
Proof.
  induction job as [|op0 job IH]; intros Hpos Hop;
    [by apply elem_of_nil in Hop|].
  assert (0 ≤ op0.2) by (apply Hpos; left).
  assert (0 ≤ foldr (λ op acc, op.2 + acc) 0 job) as Hsum.
  { clear -Hpos. induction job as [|op1 job IH]; simpl; [lia|].
    assert (0 ≤ op1.2) by (apply Hpos; right; left).
    assert (0 ≤ foldr (λ op acc, op.2 + acc) 0 job); [|lia].
    apply IH. intros op' Hop'. apply Hpos.
    apply elem_of_cons in Hop' as [->|Hop']; [left|right; by right]. }
  simpl. apply elem_of_cons in Hop as [->|Hop]; [lia|].
  assert (0 ≤ op.2 ≤ foldr (λ op acc, op.2 + acc) 0 job); [|lia].
  apply IH; [|done]. intros op' Hop'. apply Hpos. by right.
Qed.

(** When no duration of the argument is negative, the horizon of the
    accepted instance is not negative and bounds the total duration of every
    job, hence the duration of every operation: the domain [[0, horizon]]
    has room for the operations of a job one after the other. *)
Theorem Data_init_horizon_bound (g : option Jobs) (x : Jobs) (d : Data) :
  Data_init g x = Return d →
  (∀ job op, job ∈ x → op ∈ job → 0 ≤ op.2) →
  0 ≤ horizon d ∧
  (∀ job, job ∈ x → 0 ≤ foldr (λ op acc, op.2 + acc) 0 job ≤ horizon d) ∧
  (∀ job op, job ∈ x → op ∈ job → op.2 ≤ horizon d).
Proof.
  destruct g as [g|]; [|done].
  intros (mx & _ & ->)%Data_init_Return Hpos. simpl.
  rewrite py_sum_durations.
  assert (∀ job, job ∈ x → 0 ≤ foldr (λ op acc, op.2 + acc) 0 job) as Hjob.
  { intros job Hin. induction job as [|op job IH]; simpl; [lia|].
    assert (0 ≤ op.2) by (apply (Hpos (op :: job)); [done|left]).
    assert (0 ≤ foldr (λ op acc, op.2 + acc) 0 job); [|lia].
    clear IH. assert (∀ op', op' ∈ job → 0 ≤ op'.2) as Hpos'.
    { intros op' Hop'. apply (Hpos (op :: job)); [done|by right]. }
    clear -Hpos'. induction job as [|op1 job IH]; simpl; [lia|].
    assert (0 ≤ op1.2) by (apply Hpos'; left).
    assert (0 ≤ foldr (λ op acc, op.2 + acc) 0 job); [|lia].
    apply IH. intros op' Hop'. apply Hpos'. by right. }
  assert (0 ≤ foldr (λ job acc, foldr (λ op acc, op.2 + acc) 0 job + acc) 0 x
          ∧ ∀ job, job ∈ x →
              foldr (λ op acc, op.2 + acc) 0 job ≤
              foldr (λ job acc, foldr (λ op acc, op.2 + acc) 0 job + acc) 0 x)
    as [Hhz Hle].
  { clear Hpos. induction x as [|job0 x IH]; simpl.
    - split; [lia|]. intros job Hin. by apply elem_of_nil in Hin.
    - destruct IH as [IH1 IH2].
      { intros job Hin. apply Hjob. by right. }
      assert (0 ≤ foldr (λ op acc, op.2 + acc) 0 job0) by (apply Hjob; left).
      split; [lia|]. intros job Hin.
      apply elem_of_cons in Hin as [->|Hin]; [lia|].
      specialize (IH2 job Hin). lia. }
  split; [done|]. split.
  - intros job Hin. split; [by apply Hjob|by apply Hle].
  - intros job op Hin Hop.
    assert (0 ≤ op.2 ≤ foldr (λ op acc, op.2 + acc) 0 job) as [_ H1].
    { apply job_duration_bound; [|done]. intros op'. by apply Hpos. }
    specialize (Hle job Hin). lia.
Qed.

Lemma Data_init_horizon_bound_main :
  0 ≤ horizon main_data ∧
  (∀ job, job ∈ main_jobs_data →
          0 ≤ foldr (λ op acc, op.2 + acc) 0 job ≤ horizon main_data) ∧
  (∀ job op, job ∈ main_jobs_data → op ∈ job → op.2 ≤ horizon main_data).
Proof.
  apply (Data_init_horizon_bound (Some main_jobs_data) main_jobs_data).
  - reflexivity.
  - intros job op Hjob Hop.
    repeat (apply elem_of_cons in Hjob as [->|Hjob];
      [repeat (apply elem_of_cons in Hop as [->|Hop]; [simpl; lia|]);
       by apply elem_of_nil in Hop|]).
    by apply elem_of_nil in Hjob.
Defined.

(** ** [createVars]: the declarations *)

Lemma dd_append_eq {V} (k : Z) (x : V) (d : gmap Z (list V)) :
  dd_append k x d = <[k := d !!! k ++ [x]]> d.
Proof. unfold dd_append. by rewrite dd_getitem_eq, insert_insert_eq. Qed.

Lemma createVars_task_model self tasks m2i j t m d :
  all_tasks self = Some tasks → machine_to_intervals self = Some m2i →
  int64 (horizon (data self)) → int64 d →
  ∃ self', createVars_task j (t, (m, d)) tt self = (Return tt, self') ∧
    data self' = data self ∧
    variables (model self') =
      variables (model self) ++
      [{| lb := 0; ub := horizon (data self);
          var_name := "start" +:+ suffix j t |};
       {| lb := 0; ub := horizon (data self);
          var_name := "end" +:+ suffix j t |}] ∧
    interval_vars (model self') =
      interval_vars (model self) ++
      [{| interval_start := Var (length (variables (model self)));
          interval_size := d;
          interval_end := Var (S (length (variables (model self))));
          interval_name := "interval" +:+ suffix j t |}] ∧
    all_tasks self' =
      Some (<[(j, t) :=
               {| task_type.start := Var (length (variables (model self)));
                  task_type.end_ := Var (S (length (variables (model self))));
                  task_type.interval :=
                    Interval (length (interval_vars (model self))) |}]> tasks) ∧
    machine_to_intervals self' =
      Some (<[m := m2i !!! m ++
                   [Interval (length (interval_vars (model self)))]]> m2i).
Proof.
  intros HT HI Hhz Hdur. unfold createVars_task. run.
  rewrite new_int_var_run by (done || apply int64_0). simpl.
  rewrite new_int_var_run by (done || apply int64_0). simpl.
  rewrite new_interval_var_run by done. simpl.
  rewrite HT. simpl. rewrite HI.
  simpl. eexists. split; [done|]. simpl.
  rewrite !length_app, dd_append_eq, <-app_assoc. simpl.
  replace (length (variables (model self)) + 1)%nat
    with (S (length (variables (model self)))) by lia.
  by split_and!.
Qed.

Lemma declared_mono m m' hz o x vs ivs :
  variables m' = variables m ++ vs →
  interval_vars m' = interval_vars m ++ ivs →
  declared m hz o x → declared m' hz o x.
Proof.
  intros Hv Hi (a & b & i & -> & Ha & Hb & Hiv).
  exists a, b, i. rewrite Hv, Hi.
  split_and!; [done|by apply lookup_app_l_Some..].
Qed.

Lemma Forall2_impl_elem {A B} (R R' : A → B → Prop) (l : list A) (k : list B) :
  Forall2 R l k → (∀ x y, x ∈ l → R x y → R' x y) → Forall2 R' l k.
Proof.
  induction 1 as [|x y l k HR _ IH]; intros Himpl; constructor.
  - apply Himpl; [left|done].
  - apply IH. intros x' y' Hx'. apply Himpl. by right.
Qed.

(** The state [createVars] leaves, declaration by declaration. *)
Lemma createVars_model (self : JSPModel) :
  declarable (data self) →
  ∃ self' tasks m2i vs ivs,
    createVars self = (Return tt, self') ∧
    all_tasks self' = Some tasks ∧ machine_to_intervals self' = Some m2i ∧
    variables (model self') = variables (model self) ++ vs ∧
    length vs = (2 * length (operations (jobs_data (data self))))%nat ∧
    interval_vars (model self') = interval_vars (model self) ++ ivs ∧
    length ivs = length (operations (jobs_data (data self))) ∧
    (∀ o, o ∈ operations (jobs_data (data self)) →
       ∃ x, tasks !! (o.1, o.2.1) = Some x ∧
            declared (model self') (horizon (data self)) o x) ∧
    (∀ k, intervals_of tasks
            (filter (λ o, o.2.2.1 = k) (operations (jobs_data (data self))))
            (m2i !!! k)) ∧
    (∀ k, is_Some (m2i !! k) ↔
          ∃ o, o ∈ operations (jobs_data (data self)) ∧ o.2.2.1 = k).
Proof.
  intros Hacc. unfold declarable in Hacc.
  pose proof (operations_NoDup (jobs_data (data self))) as Hnd.
  unfold createVars. run. rewrite for_nested.
  fold (operations (jobs_data (data self))).
  set (self0 := set_machine_to_intervals _ _).
  destruct (for_rule
    (λ pre (_ : unit) s,
       data s = data self ∧
       ∃ tasks m2i vs ivs,
         all_tasks s = Some tasks ∧ machine_to_intervals s = Some m2i ∧
         variables (model s) = variables (model self) ++ vs ∧
         length vs = (2 * length pre)%nat ∧
         interval_vars (model s) = interval_vars (model self) ++ ivs ∧
         length ivs = length pre ∧
         (∀ o, o ∈ pre →
            ∃ x, tasks !! (o.1, o.2.1) = Some x ∧
                 declared (model s) (horizon (data self)) o x) ∧
         (∀ k, intervals_of tasks (filter (λ o, o.2.2.1 = k) pre) (m2i !!! k)) ∧
         (∀ k, is_Some (m2i !! k) ↔ ∃ o, o ∈ pre ∧ o.2.2.1 = k))
    (λ '(job_id, c), createVars_task job_id c)
    (operations (jobs_data (data self))) tt self0)
    as ([] & self' & Hrun & Hd & tasks & m2i & vs & ivs & HT & HI & Hvs & Hlvs &
        Hivs & Hlivs & Hdecl & Hm2i & Hkeys).
  - split; [done|]. exists ∅, ∅, [], []. simpl. rewrite !app_nil_r.
    split_and!; try done.
    + intros o Ho. by apply elem_of_nil in Ho.
    + intros k. rewrite lookup_total_empty. constructor.
    + intros k. rewrite lookup_empty. split; [by intros [? ?]|].
      intros (o & Ho & _). by apply elem_of_nil in Ho.
  - intros pre [j [t [m d]]] post [] s Hl
      (Hd & tasks & m2i & vs & ivs & HT & HI & Hvs & Hlvs & Hivs & Hlivs &
       Hdecl & Hm2i & Hkeys).
    assert (int64 (horizon (data self)) ∧ int64 d) as [Hhz Hdur].
    { rewrite Hl in Hacc. apply Forall_app in Hacc as [_ Hacc].
      by apply Forall_cons in Hacc as [? _]. }
    destruct (createVars_task_model s tasks m2i j t m d HT HI)
      as (s' & Hrun & Hd' & Hvs' & Hivs' & HT' & HI'); [by rewrite Hd|done|].
    assert (∀ o, o ∈ pre → (o.1, o.2.1) ≠ (j, t)) as Hfresh.
    { intros o Ho Heq. rewrite Hl, fmap_app, fmap_cons in Hnd.
      apply NoDup_app in Hnd as (_ & Hnd & _).
      apply (Hnd (o.1, o.2.1));
        [by apply (list_elem_of_fmap_2 (λ o, (o.1, o.2.1)))|].
      rewrite Heq. left. }
    exists tt, s'. split; [done|]. split; [congruence|].
    eexists _, _, (vs ++ _), (ivs ++ _).
    split; [exact HT'|]. split; [exact HI'|].
    split; [by rewrite Hvs', Hvs, <-app_assoc|].
    split; [rewrite !length_app; simpl; lia|].
    split; [by rewrite Hivs', Hivs, <-app_assoc|].
    split; [rewrite !length_app; simpl; lia|].
    split; [|split].
    + intros o [Ho|Ho%list_elem_of_singleton]%elem_of_app; [|subst o].
      * destruct (Hdecl o Ho) as (x & Hx & Hdx). exists x.
        rewrite lookup_insert_ne by (apply not_eq_sym; by apply Hfresh).
        split; [done|]. by eapply declared_mono.
      * eexists. rewrite lookup_insert_eq. split; [done|].
        exists (length (variables (model s))),
               (S (length (variables (model s)))),
               (length (interval_vars (model s))). simpl.
        rewrite Hvs', Hivs', Hd.
        split_and!; [done|..].
        -- by rewrite lookup_app_r, Nat.sub_diag by lia.
        -- rewrite lookup_app_r by lia.
           by replace (S (length (variables (model s))) -
                       length (variables (model s)))%nat with 1%nat by lia.
        -- by rewrite lookup_app_r, Nat.sub_diag by lia.
    + intros k. rewrite filter_app, filter_cons, filter_nil. simpl.
      assert (intervals_of
                (<[(j, t) := {| task_type.start := Var (length (variables (model s)));
                                task_type.end_ := Var (S (length (variables (model s))));
                                task_type.interval :=
                                  Interval (length (interval_vars (model s))) |}]> tasks)
                (filter (λ o, o.2.2.1 = k) pre) (m2i !!! k)) as Hold.
      { eapply Forall2_impl_elem; [apply Hm2i|].
        intros o iv Ho (x & Hx & ->). exists x. split; [|done].
        rewrite lookup_insert_ne; [done|]. apply not_eq_sym, Hfresh.
        by apply list_elem_of_filter in Ho as [_ Ho]. }
      destruct (decide (m = k)) as [->|Hne].
      * rewrite lookup_total_insert_eq. apply Forall2_app; [done|].
        constructor; [|constructor]. eexists. simpl.
        by rewrite lookup_insert_eq.
      * rewrite lookup_total_insert_ne, app_nil_r by done. done.
    + intros k. rewrite lookup_insert. case_decide as Hk.
      * subst k. split; [|by eauto]. intros _. exists (j, (t, (m, d))).
        split; [|done]. apply elem_of_app. right. left.
      * rewrite Hkeys. split.
        -- intros (o & Ho & Hok). exists o. split; [|done].
           apply elem_of_app. by left.
        -- intros (o & [Ho|Ho%list_elem_of_singleton]%elem_of_app & Hok);
             [by eauto|by subst o].
  - exists self', tasks, m2i, vs, ivs. by split_and!.
Qed.

(** [createVars] returns exactly when the engine accepts the declarations
    of every operation of the instance ([declarable]); when the horizon or a
    duration does not fit in 64 bits, it raises.  When it returns, it has
    appended to the model, after the declarations the model already held,
    two integer variables and one interval for every operation of the
    instance, and nothing else; it has posted no constraint, set no objective
    and left the instance, the solver and the status as they were. *)
Theorem createVars_appends (self : JSPModel) :
  (∀ self', createVars self = (Return tt, self') → declarable (data self)) ∧
  (declarable (data self) →
   ∃ self',
     createVars self = (Return tt, self') ∧
     variables (model self) `prefix_of` variables (model self') ∧
     interval_vars (model self) `prefix_of` interval_vars (model self') ∧
     length (variables (model self')) =
       (length (variables (model self)) +
        2 * length (operations (jobs_data (data self))))%nat ∧
     length (interval_vars (model self')) =
       (length (interval_vars (model self)) +
        length (operations (jobs_data (data self))))%nat ∧
     constraints (model self') = constraints (model self) ∧
     objective (model self') = objective (model self) ∧
     data self' = data self ∧ solver self' = solver self ∧
     status self' = status self ∧ obj_var self' = obj_var self).
Proof.
  split; [apply createVars_returns|]. intros Hacc.
  destruct (createVars_run self Hacc)
    as (self' & tasks & m2i & Hrun & Hd & Hso & Hst & Ho & Hc & Hobj & _).
  destruct (createVars_model self Hacc)
    as (self'' & tasks' & m2i' & vs & ivs & Hrun' & _ & _ & Hvs & Hlvs & Hivs &
        Hlivs & _).
  rewrite Hrun in Hrun'. injection Hrun' as <-.
  exists self'. rewrite Hvs, Hivs, !length_app, Hlvs, Hlivs.
  split_and!; try done; by eexists.
Qed.

Lemma createVars_appends_main :
  let self := JSPModel_init main_data in
  ∃ self',
    createVars self = (Return tt, self') ∧
    variables (model self) `prefix_of` variables (model self') ∧
    interval_vars (model self) `prefix_of` interval_vars (model self') ∧
    length (variables (model self')) = 16%nat ∧
    length (interval_vars (model self')) = 8%nat ∧
    constraints (model self') = constraints (model self) ∧
    objective (model self') = objective (model self) ∧
    data self' = data self ∧ solver self' = solver self ∧
    status self' = status self ∧ obj_var self' = obj_var self.
Proof.
  intros self. apply (createVars_appends self).
  apply (bool_decide_unpack (declarable main_data)). by vm_compute.
Defined.

Lemma declared_interval_inj n m hz tasks c1 c2 o1 o2 x1 x2 :
  tasks_separate n tasks →
  tasks !! c1 = Some x1 → tasks !! c2 = Some x2 →
  declared m hz o1 x1 → declared m hz o2 x2 →
  task_type.interval x1 = task_type.interval x2 → c1 = c2.
Proof.
  intros [_ Hsep] Hx1 Hx2 (a1 & b1 & i1 & -> & _ & _ & Hi1)
    (a2 & b2 & i2 & -> & _ & _ & Hi2) [= <-].
  rewrite Hi1 in Hi2. injection Hi2 as <- _ <- _.
  destruct (decide (c1 = c2)) as [|Hne]; [done|].
  by destruct (Hsep _ _ _ _ Hx1 Hx2 Hne) as (? & _).
Qed.

(** After [createVars], [all_tasks] has a record for every operation of the
    instance and for nothing else.  The record of operation [(j, t)] holds
    the handles of three declarations of the model: the integer variables
    [start_j_t] and [end_j_t] over [[0, horizon]] and the interval
    [interval_j_t] that goes from the first to the second and has the
    duration of the operation as its size.  Two operations share no
    handle.  ([createVars] returns when the engine accepts its
    declarations.) *)
Theorem createVars_all_tasks (self : JSPModel) :
  declarable (data self) →
  ∃ self' tasks,
    createVars self = (Return tt, self') ∧ all_tasks self' = Some tasks ∧
    (∀ j t, is_Some (tasks !! (j, t)) ↔
            ∃ op, (j, (t, op)) ∈ operations (jobs_data (data self))) ∧
    (∀ o, o ∈ operations (jobs_data (data self)) →
       ∃ x, tasks !! (o.1, o.2.1) = Some x ∧
            declared (model self') (horizon (data self)) o x) ∧
    (∀ c1 c2 x1 x2, tasks !! c1 = Some x1 → tasks !! c2 = Some x2 → c1 ≠ c2 →
       task_type.start x1 ≠ task_type.start x2 ∧
       task_type.start x1 ≠ task_type.end_ x2 ∧
       task_type.end_ x1 ≠ task_type.end_ x2 ∧
       task_type.interval x1 ≠ task_type.interval x2).
Proof.
  intros Hacc.
  destruct (createVars_run self Hacc)
    as (self' & tasks & m2i & Hrun & _ & _ & _ & _ & _ & _ & HT & _ & Hdom &
        Hsep).
  destruct (createVars_model self Hacc)
    as (self'' & tasks' & m2i' & vs & ivs & Hrun' & HT' & _ & _ & _ & _ & _ &
        Hdecl & _).
  rewrite Hrun in Hrun'. injection Hrun' as <-.
  rewrite HT in HT'. injection HT' as <-.
  exists self', tasks. split_and!; try done.
  intros c1 c2 x1 x2 Hx1 Hx2 Hne.
  destruct (proj2 Hsep _ _ _ _ Hx1 Hx2 Hne) as (H1 & H2 & H3).
  split_and!; try done. intros Heq. apply Hne.
  destruct c1 as [j1 t1], c2 as [j2 t2].
  destruct (proj1 (Hdom j1 t1) (mk_is_Some _ _ Hx1)) as [op1 Hop1].
  destruct (proj1 (Hdom j2 t2) (mk_is_Some _ _ Hx2)) as [op2 Hop2].
  destruct (Hdecl _ Hop1) as (x1' & Hx1' & Hd1).
  destruct (Hdecl _ Hop2) as (x2' & Hx2' & Hd2).
  simpl in *. rewrite Hx1 in Hx1'. rewrite Hx2 in Hx2'.
  injection Hx1' as <-. injection Hx2' as <-.
  by eapply (declared_interval_inj _ _ _ tasks).
Qed.

Lemma createVars_all_tasks_main :
  let self := JSPModel_init main_data in
  ∃ self' tasks,
    createVars self = (Return tt, self') ∧ all_tasks self' = Some tasks ∧
    (∀ j t, is_Some (tasks !! (j, t)) ↔
            ∃ op, (j, (t, op)) ∈ operations main_jobs_data) ∧
    (∀ o, o ∈ operations main_jobs_data →
       ∃ x, tasks !! (o.1, o.2.1) = Some x ∧
            declared (model self') 21 o x) ∧
    (∀ c1 c2 x1 x2, tasks !! c1 = Some x1 → tasks !! c2 = Some x2 → c1 ≠ c2 →
       task_type.start x1 ≠ task_type.start x2 ∧
       task_type.start x1 ≠ task_type.end_ x2 ∧
       task_type.end_ x1 ≠ task_type.end_ x2 ∧
       task_type.interval x1 ≠ task_type.interval x2).
Proof.
  intros self. apply (createVars_all_tasks self).
  apply (bool_decide_unpack (declarable main_data)). by vm_compute.
Defined.

(** After [createVars], the bucket of machine [k] in
    [machine_to_intervals] lists the intervals of the operations of the
    instance that run on [k], one for each, in the order in which the loops
    meet them; a machine has a bucket exactly when an operation runs on
    it.  ([createVars] returns when the engine accepts its declarations.) *)
Theorem createVars_machine_to_intervals (self : JSPModel) :
  declarable (data self) →
  ∃ self' tasks m2i,
    createVars self = (Return tt, self') ∧ all_tasks self' = Some tasks ∧
    machine_to_intervals self' = Some m2i ∧
    (∀ k, intervals_of tasks
            (filter (λ o, o.2.2.1 = k) (operations (jobs_data (data self))))
            (m2i !!! k)) ∧
    (∀ k, is_Some (m2i !! k) ↔
          ∃ o, o ∈ operations (jobs_data (data self)) ∧ o.2.2.1 = k) ∧
    (∀ k, length (m2i !!! k) =
          length (filter (λ o, o.2.2.1 = k)
                         (operations (jobs_data (data self))))).
Proof.
  intros Hacc.
  destruct (createVars_model self Hacc)
    as (self' & tasks & m2i & vs & ivs & Hrun & HT & HI & _ & _ & _ & _ & _ &
        Hm2i & Hkeys).
  exists self', tasks, m2i. split_and!; try done.
  intros k. symmetry. apply (Forall2_length _ _ _ (Hm2i k)).
Qed.

Lemma createVars_machine_to_intervals_main :
  let self := JSPModel_init main_data in
  ∃ self' tasks m2i,
    createVars self = (Return tt, self') ∧ all_tasks self' = Some tasks ∧
    machine_to_intervals self' = Some m2i ∧
    (∀ k, intervals_of tasks
            (filter (λ o, o.2.2.1 = k) (operations main_jobs_data))
            (m2i !!! k)) ∧
    (∀ k, is_Some (m2i !! k) ↔
          ∃ o, o ∈ operations main_jobs_data ∧ o.2.2.1 = k) ∧
    (∀ k, length (m2i !!! k) =
          length (filter (λ o, o.2.2.1 = k) (operations main_jobs_data))).
Proof.
  intros self. apply (createVars_machine_to_intervals self).
  apply (bool_decide_unpack (declarable main_data)). by vm_compute.
Defined.

(** ** [createConstrs]: the no-overlap constraints *)

Lemma createConstrs_machine_model self m2i machine :
  machine_to_intervals self = Some m2i →
  ∃ self', createConstrs_machine machine tt self = (Return tt, self') ∧
           posted [NoOverlap (m2i !!! machine)] self self' ∧
           machine_to_intervals self' =
             Some (<[machine := m2i !!! machine]> m2i).
Proof.
  intros HI. unfold createConstrs_machine. run. rewrite HI.
  rewrite dd_getitem_eq. simpl.
  eexists. split; [done|]. unfold posted. simpl. by split_and!.
Qed.

Lemma createConstrs_task_model self tasks j t prev next :
  all_tasks self = Some tasks →
  tasks !! (j, t) = Some prev → tasks !! (j, t + 1) = Some next →
  ∃ self', createConstrs_task j t tt self = (Return tt, self') ∧
    posted [GreaterOrEqual (task_type.start next) (task_type.end_ prev)]
           self self' ∧
    machine_to_intervals self' = machine_to_intervals self.
Proof.
  intros HT Hprev Hnext. unfold createConstrs_task. run.
  rewrite HT. simpl. rewrite Hnext. simpl. rewrite HT. simpl.
  rewrite Hprev. simpl. eexists. split; [done|]. unfold posted. simpl.
  by split_and!.
Qed.

(** What [createConstrs] posts and what it does to
    [machine_to_intervals], on a model that has the variables of every
    operation. *)
Lemma createConstrs_model (self : JSPModel) tasks m2i :
  all_tasks self = Some tasks → machine_to_intervals self = Some m2i →
  (∀ j t op, (j, (t, op)) ∈ operations (jobs_data (data self)) →
             is_Some (tasks !! (j, t))) →
  ∃ self' precedences m2i',
    createConstrs self = (Return tt, self') ∧
    posted (((λ k, NoOverlap (m2i !!! k)) <$> all_machines (data self)) ++
            precedences) self self' ∧
    Forall2 (precedence_of tasks) (consecutive (jobs_data (data self)))
            precedences ∧
    machine_to_intervals self' = Some m2i' ∧
    (∀ k, m2i' !!! k = m2i !!! k) ∧
    (∀ k, is_Some (m2i' !! k) ↔
          is_Some (m2i !! k) ∨ k ∈ all_machines (data self)).
Proof.
  intros HT HI Hcover. unfold createConstrs. run.
  destruct (for_rule
    (λ (pre : list Z) (_ : unit) s,
       posted ((λ k, NoOverlap (m2i !!! k)) <$> pre) self s ∧
       ∃ m2i', machine_to_intervals s = Some m2i' ∧
               (∀ k, m2i' !!! k = m2i !!! k) ∧
               (∀ k, is_Some (m2i' !! k) ↔ is_Some (m2i !! k) ∨ k ∈ pre))
    createConstrs_machine (all_machines (data self)) tt self)
    as ([] & self1 & -> & Hpost1 & m2i1 & HI1 & Htot1 & Hkeys1).
  - split; [apply posted_nil|]. exists m2i. split_and!; try done.
    intros k. split; [by left|]. intros [?|Hk]; [done|].
    by apply elem_of_nil in Hk.
  - intros pre machine post [] s _ (Hpost & m2i' & HI' & Htot & Hkeys).
    destruct (createConstrs_machine_model s m2i' machine HI')
      as (s' & Hrun & Hpost' & HI'').
    exists tt, s'. split; [done|]. split.
    + rewrite fmap_app. simpl. rewrite <-Htot. by eapply posted_trans.
    + eexists. split; [exact HI''|]. split.
      * intros k. destruct (decide (machine = k)) as [->|Hne].
        -- by rewrite lookup_total_insert_eq.
        -- by rewrite lookup_total_insert_ne.
      * intros k. rewrite lookup_insert, elem_of_app, list_elem_of_singleton.
        case_decide as Hk.
        -- subst k. split; [by right; right|by eauto].
        -- rewrite Hkeys. split; [tauto|]. intros [?|[?|?]]; tauto || congruence.
  - assert (data self1 = data self) as Hd by apply Hpost1.
    assert (all_tasks self1 = Some tasks) as HT1.
    { destruct Hpost1 as (_ & _ & _ & _ & -> & _). done. }
    rewrite Hd, for_nested. fold (consecutive (jobs_data (data self))).
    destruct (for_rule
      (λ (pre : list (Z * Z)) (_ : unit) s,
         machine_to_intervals s = Some m2i1 ∧
         ∃ cs, posted cs self1 s ∧ Forall2 (precedence_of tasks) pre cs)
      (λ '(job_id, c), createConstrs_task job_id c)
      (consecutive (jobs_data (data self))) tt self1)
      as ([] & self2 & -> & HI2 & precedences & Hpost2 & Hprec).
    + split; [done|]. exists []. split; [apply posted_nil|constructor].
    + intros pre [j t] post [] s Hl (HIs & cs & Hpost & Hcs).
      assert ((j, t) ∈ consecutive (jobs_data (data self))) as Hjt.
      { rewrite Hl. apply elem_of_app. right. left. }
      apply consecutive_operations in Hjt as [[op1 Hop1] [op2 Hop2]].
      destruct (Hcover _ _ _ Hop1) as [prev Hprev].
      destruct (Hcover _ _ _ Hop2) as [next Hnext].
      assert (all_tasks s = Some tasks) as HTs.
      { destruct Hpost as (_ & _ & _ & _ & -> & _). done. }
      destruct (createConstrs_task_model s tasks j t prev next HTs Hprev Hnext)
        as (s' & Hrun & Hpost' & HIs').
      exists tt, s'. split; [done|]. split; [congruence|].
      eexists. split.
      * by eapply posted_trans.
      * apply Forall2_app; [done|]. constructor; [|constructor].
        by exists prev, next.
    + exists self2, precedences, m2i1. split; [done|].
      split; [by eapply posted_trans|]. done.
Qed.

(** After [createVars], [createConstrs] posts one no-overlap constraint for
    every machine of [all_machines], in that order, before the precedence
    constraints; the constraint of machine [k] is over the intervals of the
    operations of the instance that run on [k], one for each (none for a
    machine without operation).  In [machine_to_intervals], the buckets keep
    their content, and every machine of [all_machines] now has one.
    ([createVars] returns when the engine accepts its declarations.) *)
Theorem createConstrs_no_overlap (self : JSPModel) :
  declarable (data self) →
  ∃ self1 self2 tasks m2i no_overlaps precedences,
    createVars self = (Return tt, self1) ∧
    createConstrs self1 = (Return tt, self2) ∧
    all_tasks self1 = Some tasks ∧
    constraints (model self2) =
      constraints (model self1) ++ no_overlaps ++ precedences ∧
    Forall (λ c, ∃ lhs rhs, c = GreaterOrEqual lhs rhs) precedences ∧
    Forall2 (λ k c, ∃ ivs, c = NoOverlap ivs ∧
               intervals_of tasks
                 (filter (λ o, o.2.2.1 = k)
                         (operations (jobs_data (data self)))) ivs)
            (all_machines (data self)) no_overlaps ∧
    machine_to_intervals self2 = Some m2i ∧
    (∀ k, is_Some (m2i !! k) ↔
          (∃ o, o ∈ operations (jobs_data (data self)) ∧ o.2.2.1 = k) ∨
          k ∈ all_machines (data self)).
Proof.
  intros Hacc.
  destruct (createVars_run self Hacc)
    as (self1 & tasks & m2i & Hrun1 & Hd & _ & _ & _ & _ & _ & HT & HI &
        Hdom & _).
  destruct (createVars_model self Hacc)
    as (self1' & tasks' & m2i' & vs & ivs & Hrun1' & HT' & HI' & _ & _ & _ & _ &
        _ & Hm2i & Hkeys).
  rewrite Hrun1 in Hrun1'. injection Hrun1' as <-.
  rewrite HT in HT'. injection HT' as <-.
  rewrite HI in HI'. injection HI' as <-.
  destruct (createConstrs_model self1 tasks m2i HT HI)
    as (self2 & precedences & m2i2 & Hrun2 & Hpost & Hprec & HI2 & Htot &
        Hkeys2).
  { intros j t op Hop. apply Hdom. exists op. by rewrite <-Hd. }
  rewrite Hd in *.
  exists self1, self2, tasks, m2i2,
    ((λ k, NoOverlap (m2i !!! k)) <$> all_machines (data self)), precedences.
  split_and!; try done.
  - apply Hpost.
  - clear -Hprec.
    induction Hprec as [|c k cs ks (prev & next & _ & _ & ->) _ IH];
      constructor; eauto.
  - apply Forall2_fmap_r, Forall_Forall2_diag, Forall_forall.
    intros k _. eauto.
  - intros k. rewrite Hkeys2, Hkeys. done.
Qed.

Lemma createConstrs_no_overlap_main :
  let self := JSPModel_init main_data in
  ∃ self1 self2 tasks m2i no_overlaps precedences,
    createVars self = (Return tt, self1) ∧
    createConstrs self1 = (Return tt, self2) ∧
    all_tasks self1 = Some tasks ∧
    constraints (model self2) =
      constraints (model self1) ++ no_overlaps ++ precedences ∧
    Forall (λ c, ∃ lhs rhs, c = GreaterOrEqual lhs rhs) precedences ∧
    Forall2 (λ k c, ∃ ivs, c = NoOverlap ivs ∧
               intervals_of tasks
                 (filter (λ o, o.2.2.1 = k) (operations main_jobs_data)) ivs)
            [0; 1; 2] no_overlaps ∧
    machine_to_intervals self2 = Some m2i ∧
    (∀ k, is_Some (m2i !! k) ↔
          (∃ o, o ∈ operations main_jobs_data ∧ o.2.2.1 = k) ∨
          k ∈ [0; 1; 2]).
Proof.
  intros self. apply (createConstrs_no_overlap self).
  apply (bool_decide_unpack (declarable main_data)). by vm_compute.
Defined.

Lemma NoDup_fmap_elem_inj {A B} `{EqDecision B} (f : A → B) (l : list A) x y :
  NoDup (f <$> l) → x ∈ l → y ∈ l → f x = f y → x = y.
Proof.
  intros Hnd Hx Hy Heq.
  assert (y ∈ filter (λ z, f z = f x) l) as Hin
    by (apply list_elem_of_filter; split; [by symmetry|done]).
  rewrite (filter_NoDup_singleton f l x Hnd Hx) in Hin.
  by apply list_elem_of_singleton in Hin.
Qed.

(** The interval of an operation is in the list of machine [k] exactly when
    the operation runs on [k]. *)
Lemma intervals_of_member n m hz tasks (os : list (Z * (Z * Operation)))
    k ivs o x :
  NoDup ((λ o, (o.1, o.2.1)) <$> os) →
  tasks_separate n tasks →
  (∀ o, o ∈ os → ∃ x, tasks !! (o.1, o.2.1) = Some x ∧ declared m hz o x) →
  intervals_of tasks (filter (λ o, o.2.2.1 = k) os) ivs →
  o ∈ os → tasks !! (o.1, o.2.1) = Some x →
  task_type.interval x ∈ ivs ↔ o.2.2.1 = k.
Proof.
  intros Hnd Hsep Hdecl Hivs Ho Hx. split.
  - intros [p Hp]%list_elem_of_lookup.
    destruct (Forall2_lookup_r _ _ _ _ _ Hivs Hp) as (o' & Ho' & x' & Hx' & Heq).
    apply list_elem_of_lookup_2, list_elem_of_filter in Ho' as [Hk Ho'].
    destruct (Hdecl o Ho) as (x0 & Hx0 & Hd0).
    destruct (Hdecl o' Ho') as (x0' & Hx0' & Hd0').
    rewrite Hx in Hx0. injection Hx0 as <-.
    rewrite Hx' in Hx0'. injection Hx0' as <-.
    assert ((o.1, o.2.1) = (o'.1, o'.2.1)) as Hc
      by by eapply (declared_interval_inj _ _ _ tasks).
    by rewrite (NoDup_fmap_elem_inj _ _ o o' Hnd Ho Ho' Hc).
  - intros Hk.
    assert (o ∈ filter (λ o, o.2.2.1 = k) os) as [p Hp]%list_elem_of_lookup
      by by apply list_elem_of_filter.
    destruct (Forall2_lookup_l _ _ _ _ _ Hivs Hp) as (iv & Hiv & x' & Hx' & ->).
    rewrite Hx in Hx'. injection Hx' as <-.
    by eapply list_elem_of_lookup_2.
Qed.

(** After [createVars] and [createConstrs], the interval of an operation is
    in the no-overlap constraint of its own machine and in no other
    constraint.  An operation whose machine is not in [all_machines] (a
    negative machine id, or an id from [machines_count] on) is in no
    no-overlap constraint at all: nothing keeps it from overlapping.
    ([createVars] returns when the engine accepts its declarations.) *)
Theorem createConstrs_no_overlap_member (self : JSPModel) :
  declarable (data self) →
  ∃ self1 self2 tasks no_overlaps precedences,
    createVars self = (Return tt, self1) ∧
    createConstrs self1 = (Return tt, self2) ∧
    all_tasks self1 = Some tasks ∧
    constraints (model self2) =
      constraints (model self1) ++ no_overlaps ++ precedences ∧
    length no_overlaps = length (all_machines (data self)) ∧
    ∀ o x,
      o ∈ operations (jobs_data (data self)) →
      tasks !! (o.1, o.2.1) = Some x →
      (∀ p ivs, no_overlaps !! p = Some (NoOverlap ivs) →
         task_type.interval x ∈ ivs ↔
         all_machines (data self) !! p = Some o.2.2.1) ∧
      (o.2.2.1 ∉ all_machines (data self) →
       ∀ ivs, NoOverlap ivs ∈ no_overlaps ++ precedences →
              task_type.interval x ∉ ivs).
Proof.
  intros Hacc.
  pose proof (operations_NoDup (jobs_data (data self))) as Hnd.
  destruct (createVars_run self Hacc)
    as (self1 & tasks & m2i & Hrun1 & Hd & _ & _ & _ & _ & _ & HT & HI &
        Hdom & Hsep).
  destruct (createVars_model self Hacc)
    as (self1' & tasks' & m2i' & vs & ivs0 & Hrun1' & HT' & HI' & _ & _ & _ &
        _ & Hdecl & Hm2i & _).
  rewrite Hrun1 in Hrun1'. injection Hrun1' as <-.
  rewrite HT in HT'. injection HT' as <-.
  rewrite HI in HI'. injection HI' as <-.
  destruct (createConstrs_model self1 tasks m2i HT HI)
    as (self2 & precedences & m2i2 & Hrun2 & Hpost & Hprec & _).
  { intros j t op Hop. apply Hdom. exists op. by rewrite <-Hd. }
  rewrite Hd in *.
  exists self1, self2, tasks,
    ((λ k, NoOverlap (m2i !!! k)) <$> all_machines (data self)), precedences.
  split_and!; try done; [apply Hpost|by rewrite length_fmap|].
  intros o x Ho Hx.
  assert (∀ p ivs,
    ((λ k, NoOverlap (m2i !!! k)) <$> all_machines (data self)) !! p =
      Some (NoOverlap ivs) →
    task_type.interval x ∈ ivs ↔ all_machines (data self) !! p = Some o.2.2.1)
    as Hmember.
  { intros p ivs. rewrite list_lookup_fmap.
    destruct (all_machines (data self) !! p) as [k|]; simpl; [|done].
    intros [= <-].
    rewrite (intervals_of_member _ _ _ tasks _ k _ o x Hnd Hsep Hdecl
               (Hm2i k) Ho Hx).
    split; [by intros ->|by intros [= ->]]. }
  split; [done|].
  intros Hout ivs [Hin|Hin]%elem_of_app.
  - apply list_elem_of_lookup in Hin as [p Hp]. intros Hiv.
    apply (Hmember p ivs Hp) in Hiv. apply Hout.
    by eapply list_elem_of_lookup_2.
  - apply list_elem_of_lookup in Hin as [p Hp].
    by destruct (Forall2_lookup_r _ _ _ _ _ Hprec Hp)
      as (c & _ & prev & next & _ & _ & ?).
Qed.

Lemma createConstrs_no_overlap_member_main :
  let self := JSPModel_init main_data in
  ∃ self1 self2 tasks no_overlaps precedences,
    createVars self = (Return tt, self1) ∧
    createConstrs self1 = (Return tt, self2) ∧
    all_tasks self1 = Some tasks ∧
    constraints (model self2) =
      constraints (model self1) ++ no_overlaps ++ precedences ∧
    length no_overlaps = 3%nat ∧
    ∀ o x,
      o ∈ operations main_jobs_data →
      tasks !! (o.1, o.2.1) = Some x →
      (∀ p ivs, no_overlaps !! p = Some (NoOverlap ivs) →
         task_type.interval x ∈ ivs ↔ [0; 1; 2] !! p = Some o.2.2.1) ∧
      (o.2.2.1 ∉ [0; 1; 2] →
       ∀ ivs, NoOverlap ivs ∈ no_overlaps ++ precedences →
              task_type.interval x ∉ ivs).
Proof.
  intros self. apply (createConstrs_no_overlap_member self).
  apply (bool_decide_unpack (declarable main_data)). by vm_compute.
Defined.

(** ** Methods called out of order, instances with an empty job *)

(** A loop whose rounds leave the state alone raises as soon as one round
    does. *)
Lemma for_raise {S B L} (l : list B) (body : B → L → M S L) acc s e :
  (∀ y acc, y ∈ l →
     (∃ acc', body y acc s = (Return acc', s)) ∨ body y acc s = (Raise e, s)) →
  (∃ x, x ∈ l ∧ ∀ acc, body x acc s = (Raise e, s)) →
  for_ l body acc s = (Raise e, s).
Proof.
  revert acc. induction l as [|y l IH]; intros acc Hall (x & Hx & Hraise).
  - by apply elem_of_nil in Hx.
  - simpl. unfold mbind, M_bind.
    destruct (Hall y acc) as [[acc' Hy]|Hy]; [left|rewrite Hy..]; [|done].
    apply IH.
    + intros y' acc'' Hy'. apply Hall. by right.
    + apply elem_of_cons in Hx as [->|Hx]; [|by eauto].
      by rewrite Hraise in Hy.
Qed.

(** Before [createVars] has run, the attributes [machine_to_intervals] and
    [all_tasks] do not exist.  Then [createConstrs] raises [AttributeError]
    on the first machine, having posted nothing; and [createObj], when the
    instance has a job and the engine accepts the horizon as a bound, raises
    [AttributeError] after it has declared the variable [makespan], which
    stays in the model, without constraint or objective. *)
Theorem methods_before_createVars (self : JSPModel) :
  (machine_to_intervals self = None → all_machines (data self) ≠ [] →
   createConstrs self = (Raise AttributeError, self)) ∧
  (all_tasks self = None → jobs_data (data self) ≠ [] →
   int64 (horizon (data self)) →
   ∃ self', createObj self = (Raise AttributeError, self') ∧
     variables (model self') =
       variables (model self) ++
       [{| lb := 0; ub := horizon (data self); var_name := "makespan" |}] ∧
     constraints (model self') = constraints (model self) ∧
     objective (model self') = objective (model self) ∧
     obj_var self' = obj_var self).
Proof.
  split.
  - intros HI Hm. unfold createConstrs. run.
    destruct (all_machines (data self)) as [|k ks]; [done|].
    simpl. unfold mbind, M_bind. unfold createConstrs_machine. run.
    by rewrite HI.
  - intros HT Hj Hhz. unfold createObj. run.
    rewrite new_int_var_run by (done || apply int64_0). simpl.
    destruct (jobs_data (data self)) as [|job js]; [done|].
    unfold enumerate. simpl. unfold mbind, M_bind. run. rewrite HT.
    eexists. split; [done|]. done.
Qed.

Lemma methods_before_createVars_main :
  createConstrs (JSPModel_init main_data) =
    (Raise AttributeError, JSPModel_init main_data) ∧
  ∃ self', createObj (JSPModel_init main_data) = (Raise AttributeError, self') ∧
    variables (model self') =
      [{| lb := 0; ub := 21; var_name := "makespan" |}] ∧
    constraints (model self') = [] ∧ objective (model self') = None ∧
    obj_var self' = None.
Proof.
  destruct (methods_before_createVars (JSPModel_init main_data)) as [H1 H2].
  split; [by apply H1|apply H2; [done..|]].
  apply (bool_decide_unpack (int64 21)). by vm_compute.
Defined.

(** When the instance has an empty job (and the engine accepts the
    declarations, so that [createObj] is reached), [createObj], called after
    [createVars] and [createConstrs], looks up the key [(job_id, -1)] and
    raises [KeyError]: no max-equality is posted, no objective is set, and
    solver and status are as before. *)
Theorem createObj_empty_job_raises (self : JSPModel) :
  [] ∈ jobs_data (data self) →
  declarable (data self) → int64 (horizon (data self)) →
  ∃ self',
    (createVars;; createConstrs;; createObj) self = (Raise KeyError, self') ∧
    Forall (λ c, ∀ target exprs, c ≠ MaxEquality target exprs)
           (drop (length (constraints (model self)))
                 (constraints (model self'))) ∧
    objective (model self') = objective (model self) ∧
    obj_var self' = obj_var self ∧
    solver self' = solver self ∧ status self' = status self.
Proof.
  intros [n Hn]%list_elem_of_lookup Hacc Hhz.
  destruct (createVars_run self Hacc)
    as (self1 & tasks & m2i & Hrun1 & Hd1 & Hso1 & Hst1 & Ho1 & Hc1 & Hobj1 &
        HT & HI & Hdom & _).
  destruct (createConstrs_run self1 tasks m2i HT HI)
    as (self2 & no_overlaps & precedences & Hrun2 &
        (Hd2 & Hso2 & Hst2 & Ho2 & HT2 & _ & _ & Hobj2 & Hc2) & Hno & Hprec).
  { intros j t op Hop. apply Hdom. exists op. by rewrite <-Hd1. }
  rewrite HT in HT2.
  set (self3 := set_model
    {| variables := variables (model self2) ++
         [{| lb := 0; ub := horizon (data self2); var_name := "makespan" |}];
       interval_vars := interval_vars (model self2);
       constraints := constraints (model self2);
       objective := objective (model self2) |} self2).
  assert (createObj self2 = (Raise KeyError, self3)) as Hrun3.
  { unfold createObj. run.
    rewrite new_int_var_run by (rewrite ?Hd2, ?Hd1; done || apply int64_0).
    simpl. fold self3.
    rewrite (for_raise _ _ _ self3 KeyError); [done| |].
    - intros [j job] acc _. unfold createObj_end. run. rewrite HT2. simpl.
      destruct (tasks !! (j, len job - 1)); simpl; [left; by eexists|by right].
    - exists (Z.of_nat n, []). split.
      + apply elem_of_enumerate. exists n. by rewrite Hd2, Hd1.
      + intros acc. unfold createObj_end. run. rewrite HT2. simpl.
        destruct (tasks !! (Z.of_nat n, len [] - 1)) as [x|] eqn:Hx; [|done].
        destruct (proj1 (Hdom _ _) (mk_is_Some _ _ Hx)) as [op Hop].
        apply elem_of_operations in Hop as (? & m & ? & _ & Hm & _).
        unfold len in Hm. simpl in Hm. lia. }
  exists self3. split.
  - unfold mbind, M_bind. by rewrite Hrun1, Hrun2, Hrun3.
  - simpl. rewrite Hc2, Hc1, drop_app_length.
    split_and!; try congruence.
    apply Forall_app. split.
    + eapply Forall_impl; [exact Hno|]. by intros c [ivs ->] ??.
    + clear -Hprec.
      induction Hprec as [|c k cs ks (prev & next & _ & _ & ->) _ IH];
        constructor; done.
Qed.

Lemma createObj_empty_job_raises_example :
  ∃ self',
    (createVars;; createConstrs;; createObj)
      (JSPModel_init {| jobs_data := [[(0, 1)]; []]; machines_count := 1;
                        all_machines := [0]; horizon := 1 |}) =
      (Raise KeyError, self') ∧
    Forall (λ c, ∀ target exprs, c ≠ MaxEquality target exprs)
           (drop 0 (constraints (model self'))) ∧
    objective (model self') = None ∧ obj_var self' = None ∧
    solver self' = None ∧ status self' = None.
Proof.
  apply (createObj_empty_job_raises
    (JSPModel_init {| jobs_data := [[(0, 1)]; []]; machines_count := 1;
                      all_machines := [0]; horizon := 1 |})).
  - simpl. right. left.
  - apply (bool_decide_unpack (declarable _)). by vm_compute.
  - apply (bool_decide_unpack (int64 1)). by vm_compute.
Defined.

(** ** A horizon the engine refuses *)

(** When the horizon does not fit in 64 bits, the engine refuses it as the
    upper bound of a variable.  [createVars], for an instance with an
    operation, raises [TypeError] at its first declaration: it has created
    the attributes [all_tasks] and [machine_to_intervals], both empty, and
    the model is as it was.  [createObj] raises [TypeError] and leaves the
    object as it was. *)
Theorem horizon_refused (self : JSPModel) :
  ¬ int64 (horizon (data self)) →
  (operations (jobs_data (data self)) ≠ [] →
   createVars self =
     (Raise TypeError,
      set_machine_to_intervals (Some ∅) (set_all_tasks (Some ∅) self))) ∧
  createObj self = (Raise TypeError, self).
Proof.
  intros Hhz. split.
  - intros Hops. unfold createVars. run. rewrite for_nested.
    fold (operations (jobs_data (data self))).
    destruct (operations (jobs_data (data self))) as [|[j [t [m d]]] os];
      [done|].
    simpl. unfold mbind, M_bind, createVars_task. run.
    by rewrite new_int_var_refused.
  - unfold createObj. run. by rewrite new_int_var_refused.
Qed.

(** Two operations of duration [2^63]: the instance is accepted by
    [Data.__init__], the horizon is [2^64], and the model cannot be
    built. *)
Lemma horizon_refused_example :
  let x := [[(0, 2 ^ 63); (1, 2 ^ 63)]] in
  let d := {| jobs_data := x; machines_count := 2; all_machines := [0; 1];
              horizon := 2 ^ 64 |} in
  Data_init (Some x) x = Return d ∧
  createVars (JSPModel_init d) =
    (Raise TypeError,
     set_machine_to_intervals (Some ∅)
       (set_all_tasks (Some ∅) (JSPModel_init d))) ∧
  createObj (JSPModel_init d) = (Raise TypeError, JSPModel_init d).
Proof.
  intros x d. split; [reflexivity|].
  destruct (horizon_refused (JSPModel_init d)) as [H1 H2].
  - apply (bool_decide_unpack (¬ int64 (2 ^ 64))). by vm_compute.
  - split; [|exact H2]. apply H1. discriminate.
Defined.

(** ** [extract_solution]: what it reads and what it returns *)

(** After a successful search, [extract_solution] asks the solver for the
    value of the [start] variable of every operation, once each and in the
    order of the operations, and for no other value; apart from the
    solver's log of these requests, the object is as before. *)
Theorem extract_solution_reads (self : JSPModel) (sv : CpSolver) :
  status self = Some OPTIMAL ∨ status self = Some FEASIBLE →
  tasks_cover self → solver self = Some sv →
  ∃ assigned_jobs tasks starts,
    extract_solution self =
      (Return (Some assigned_jobs),
       set_solver (Some {| value := value sv; reads := reads sv ++ starts |})
                  self) ∧
    all_tasks self = Some tasks ∧
    Forall2 (λ o v, ∃ x, tasks !! (o.1, o.2.1) = Some x ∧
                         v = task_type.start x)
            (operations (jobs_data (data self))) starts.
Proof.
  intros Hst (tasks & HT & Hcover)%tasks_cover_iff Hsv.
  destruct (extract_solution_run self tasks sv Hst Hsv HT Hcover)
    as (assigned_jobs & starts & Hrun & _ & Hstarts & _).
  by exists assigned_jobs, tasks, starts.
Qed.

Lemma extract_solution_reads_main :
  ∃ assigned_jobs tasks starts,
    extract_solution main_solved =
      (Return (Some assigned_jobs),
       set_solver
         (Some {| value := (main_engine CpModel_new).2;
                  reads := [] ++ starts |}) main_solved) ∧
    all_tasks main_solved = Some tasks ∧
    Forall2 (λ o v, ∃ x, tasks !! (o.1, o.2.1) = Some x ∧
                         v = task_type.start x)
            (operations main_jobs_data) starts.
Proof.
  apply (extract_solution_reads main_solved
           {| value := (main_engine CpModel_new).2; reads := [] |}).
  - left. reflexivity.
  - apply (bool_decide_unpack (tasks_cover main_solved)). by vm_compute.
  - reflexivity.
Defined.

Lemma extract_solution_loop_keys self tasks sv :
  solver self = Some sv → all_tasks self = Some tasks →
  (∀ j t op, (j, (t, op)) ∈ operations (jobs_data (data self)) →
             is_Some (tasks !! (j, t))) →
  ∃ assigned_jobs self',
    for_ (operations (jobs_data (data self)))
         (λ '(job_id, c), extract_solution_task job_id c) ∅ self =
    (Return assigned_jobs, self') ∧
    ∀ k, is_Some (assigned_jobs !! k) ↔
         ∃ o, o ∈ operations (jobs_data (data self)) ∧ o.2.2.1 = k.
Proof.
  intros Hsv HT Hcover.
  destruct (for_rule
    (λ pre (acc : Schedule) s,
       (∃ starts,
          s = set_solver
                (Some {| value := value sv; reads := reads sv ++ starts |})
                self) ∧
       ∀ k, is_Some (acc !! k) ↔ ∃ o, o ∈ pre ∧ o.2.2.1 = k)
    (λ '(job_id, c), extract_solution_task job_id c)
    (operations (jobs_data (data self))) ∅ self)
    as (acc & s & Hrun & _ & Hkeys).
  - split.
    + exists []. rewrite app_nil_r. destruct self, sv. simpl in *. by subst.
    + intros k. rewrite lookup_empty. split; [by intros [? ?]|].
      intros (o & Ho & _). by apply elem_of_nil in Ho.
  - intros pre [j [t [m d]]] post acc s Hl [[starts ->] Hkeys].
    destruct (Hcover j t (m, d)) as [x Hx].
    { rewrite Hl. apply elem_of_app. right. left. }
    eexists _, _. split.
    { by apply (extract_solution_task_run _ tasks
                  {| value := value sv; reads := reads sv ++ starts |}). }
    split.
    + exists (starts ++ [task_type.start x]). simpl. by rewrite app_assoc.
    + intros k. rewrite lookup_insert. case_decide as Hk.
      * subst k. split; [|by eauto]. intros _. exists (j, (t, (m, d))).
        split; [|done]. apply elem_of_app. right. left.
      * rewrite Hkeys. split.
        -- intros (o & Ho & Hok). exists o. split; [|done].
           apply elem_of_app. by left.
        -- intros (o & [Ho|Ho%list_elem_of_singleton]%elem_of_app & Hok);
             [by eauto|by subst o].
  - by exists acc, s.
Qed.

(** The mapping [extract_solution] returns has a bucket exactly for the
    machines on which an operation runs, and no bucket is empty: a machine
    of [all_machines] without operation is absent from it. *)
Theorem extract_solution_keys (self : JSPModel) :
  status self = Some OPTIMAL ∨ status self = Some FEASIBLE →
  tasks_cover self → is_Some (solver self) →
  ∃ assigned_jobs self',
    extract_solution self = (Return (Some assigned_jobs), self') ∧
    (∀ k, is_Some (assigned_jobs !! k) ↔
          ∃ o, o ∈ operations (jobs_data (data self)) ∧ o.2.2.1 = k) ∧
    (∀ k bucket, assigned_jobs !! k = Some bucket → bucket ≠ []).
Proof.
  intros Hst (tasks & HT & Hcover)%tasks_cover_iff [sv Hsv].
  destruct (extract_solution_loop self tasks sv Hsv HT Hcover)
    as (assigned_jobs & starts & Hrun & _ & _ & Hbuckets).
  destruct (extract_solution_loop_keys self tasks sv Hsv HT Hcover)
    as (assigned_jobs' & self' & Hrun' & Hkeys).
  rewrite Hrun in Hrun'. injection Hrun' as <- <-.
  eexists assigned_jobs, _. split_and!.
  - unfold extract_solution. run.
    rewrite (proj2 (in_OPTIMAL_FEASIBLE_true _) Hst). simpl.
    rewrite for_nested. fold (operations (jobs_data (data self))).
    by rewrite Hrun.
  - done.
  - intros k bucket Hk ->.
    destruct (proj1 (Hkeys k) (mk_is_Some _ _ Hk)) as (o & Ho & Hok).
    specialize (Hbuckets k). rewrite (lookup_total_correct _ _ _ Hk) in Hbuckets.
    apply Forall2_nil_inv_r in Hbuckets.
    assert (o ∈ filter (λ o, o.2.2.1 = k)
                       (operations (jobs_data (data self)))) as Hin
      by by apply list_elem_of_filter.
    rewrite Hbuckets in Hin. by apply elem_of_nil in Hin.
Qed.

Lemma extract_solution_keys_main :
  ∃ assigned_jobs self',
    extract_solution main_solved = (Return (Some assigned_jobs), self') ∧
    (∀ k, is_Some (assigned_jobs !! k) ↔
          ∃ o, o ∈ operations main_jobs_data ∧ o.2.2.1 = k) ∧
    (∀ k bucket, assigned_jobs !! k = Some bucket → bucket ≠ []).
Proof.
  apply (extract_solution_keys main_solved).
  - left. reflexivity.
  - apply (bool_decide_unpack (tasks_cover main_solved)). by vm_compute.
  - apply (bool_decide_unpack (is_Some (solver main_solved))). by vm_compute.
Defined.

(** When [solve] is called on an object on which [createVars] has not run
    and the engine answers [OPTIMAL] or [FEASIBLE], a following
    [extract_solution] raises [AttributeError] at the first operation of the
    instance, before any value is read. *)
Theorem extract_solution_without_createVars engine (self : JSPModel) :
  all_tasks self = None →
  operations (jobs_data (data self)) ≠ [] →
  (engine (model self)).1 = OPTIMAL ∨ (engine (model self)).1 = FEASIBLE →
  (solve engine;; extract_solution) self =
  (Raise AttributeError,
   set_status (Some (engine (model self)).1)
     (set_solver (Some {| value := (engine (model self)).2; reads := [] |})
                 self)).
Proof.
  intros HT Hops Hst. unfold mbind at 1. unfold M_bind.
  rewrite solve_run. unfold extract_solution. run.
  assert (in_OPTIMAL_FEASIBLE (Some (engine (model self)).1) = true) as ->.
  { apply in_OPTIMAL_FEASIBLE_true. destruct Hst as [->| ->]; eauto. }
  simpl. rewrite for_nested. fold (operations (jobs_data (data self))).
  destruct (operations (jobs_data (data self))) as [|[j [t [m d]]] os];
    [done|].
  simpl. unfold mbind, M_bind, extract_solution_task. rewrite dd_getitem_eq.
  run. by rewrite HT.
Qed.

Lemma extract_solution_without_createVars_main :
  (solve main_engine;; extract_solution) (JSPModel_init main_data) =
  (Raise AttributeError,
   set_status (Some OPTIMAL)
     (set_solver (Some {| value := (main_engine CpModel_new).2; reads := [] |})
                 (JSPModel_init main_data))).
Proof.
  apply (extract_solution_without_createVars main_engine
           (JSPModel_init main_data)); [done|done|by left].
Defined.

(** ** [format_solution]: the mapping and the columns *)

Lemma bucket_total_sort (assigned_jobs : Schedule) k :
  bucket_total (<[k := list_sort (assigned_jobs !!! k)]> assigned_jobs) =
  bucket_total assigned_jobs.
Proof.
  pose proof (bucket_total_insert assigned_jobs k
                (list_sort (assigned_jobs !!! k))) as Hins.
  rewrite (Permutation_length (list_sort_Permutation _)) in Hins. lia.
Qed.

Lemma bucket_total_format (ks : list Z) output (assigned_jobs : Schedule) :
  bucket_total (foldl format_solution_machine (output, assigned_jobs) ks).2 =
  bucket_total assigned_jobs.
Proof.
  revert output assigned_jobs.
  induction ks as [|k ks IH]; intros output aj; [done|].
  change (foldl format_solution_machine (output, aj) (k :: ks))
    with (foldl format_solution_machine
            (format_solution_machine (output, aj) k) ks).
  by rewrite format_solution_machine_eq, IH, bucket_total_sort.
Qed.

(** [format_solution] changes the mapping it is given: every machine of
    [all_machines] that had no bucket gets an empty one, the buckets of the
    other machines are left as they are, and no task is added or lost. *)
Theorem format_solution_buckets (self : JSPModel) (assigned_jobs : Schedule) :
  let after := (format_solution self assigned_jobs).2 in
  (∀ k, is_Some (after !! k) ↔
        is_Some (assigned_jobs !! k) ∨ k ∈ all_machines (data self)) ∧
  (∀ k, k ∉ all_machines (data self) → after !! k = assigned_jobs !! k) ∧
  (∀ k, k ∈ all_machines (data self) → assigned_jobs !! k = None →
        after !! k = Some []) ∧
  bucket_total after = bucket_total assigned_jobs.
Proof.
  intros after. unfold after. split_and!.
  - intros k. rewrite format_solution_mapping.
    destruct (decide (k ∈ all_machines (data self))); [|tauto].
    split; [by right|by eauto].
  - intros k Hk. rewrite format_solution_mapping. by rewrite decide_False.
  - intros k Hk Hnone. rewrite format_solution_mapping, decide_True by done.
    by rewrite lookup_total_alt, Hnone.
  - apply bucket_total_format.
Qed.

Lemma length_append (s1 s2 : string) :
  String.length (s1 +:+ s2) = (String.length s1 + String.length s2)%nat.
Proof.
  induction s1 as [|a s1 IH]; [done|]. rewrite append_cons. simpl.
  by rewrite IH.
Qed.

Lemma length_spaces (n : nat) : String.length (spaces n) = n.
Proof. induction n as [|n IH]; [done|]. simpl. by rewrite IH. Qed.

Lemma length_ljust (w : nat) (s : string) :
  String.length (ljust w s) = (w `max` String.length s)%nat.
Proof. unfold ljust. rewrite length_append, length_spaces. lia. Qed.

Lemma cat_app (l k : list string) : cat (l ++ k) = cat l +:+ cat k.
Proof.
  induction l as [|s l IH]; [done|].
  change (cat ((s :: l) ++ k)) with (s +:+ cat (l ++ k)).
  change (cat (s :: l)) with (s +:+ cat l). by rewrite IH, append_assoc.
Qed.

Lemma length_cat_columns (f : assigned_task_type.t → string)
    (bucket : list assigned_task_type.t) :
  Forall (λ a, String.length (f a) = 15%nat) bucket →
  String.length (cat (f <$> bucket)) = (15 * length bucket)%nat.
Proof.
  induction 1 as [|a bucket Ha _ IH]; [done|].
  change (cat (f <$> a :: bucket)) with (f a +:+ cat (f <$> bucket)).
  rewrite length_append, Ha, IH. simpl. lia.
Qed.

(** A number from 0 on is written with one digit exactly when it is at most
    9. *)
Lemma str_length_one (k : Z) :
  0 ≤ k → String.length (str k) = 1%nat ↔ k ≤ 9.
Proof.
  intros Hk. split.
  - destruct k as [|p|p]; [lia| |lia]. unfold str. simpl.
    pose proof (DecimalPos.Unsigned.of_to p) as Hof.
    destruct (Pos.to_uint p) as [|d|d|d|d|d|d|d|d|d|d]; simpl; intros Hlen;
      try discriminate Hof;
      destruct d; try discriminate Hlen;
      vm_compute in Hof; first [discriminate Hof | injection Hof as <-; lia].
  - intros Hle.
    assert (k = 0 ∨ k = 1 ∨ k = 2 ∨ k = 3 ∨ k = 4 ∨ k = 5 ∨ k = 6 ∨ k = 7 ∨
            k = 8 ∨ k = 9) as Hcases by lia.
    repeat destruct Hcases as [->|Hcases]; try reflexivity. by subst k.
Qed.

Lemma substring_append_skip (p s : string) (n m : nat) :
  String.substring (String.length p + n) m (p +:+ s) = String.substring n m s.
Proof.
  induction p as [|c p IH]; [done|]. rewrite append_cons. simpl. apply IH.
Qed.

Lemma substring_append_prefix (c r : string) :
  String.substring 0 (String.length c) (c +:+ r) = c.
Proof.
  induction c as [|x c IH]; [by destruct r|].
  rewrite append_cons. simpl. by rewrite IH.
Qed.

(** The column of the item at position [i] of a line made of a prefix and
    columns of 15 characters. *)
Lemma substring_column (f : assigned_task_type.t → string) (prefix : string)
    (bucket : list assigned_task_type.t) (i : nat) a :
  Forall (λ a, String.length (f a) = 15%nat) bucket →
  bucket !! i = Some a →
  String.substring (String.length prefix + 15 * i) 15
            (prefix +:+ cat (f <$> bucket)) = f a.
Proof.
  intros Hlen Hi.
  rewrite <-(take_drop_middle bucket i a Hi), fmap_app, cat_app, fmap_cons.
  change (cat (f a :: (f <$> drop (S i) bucket)))
    with (f a +:+ cat (f <$> drop (S i) bucket)).
  rewrite <-(append_assoc prefix (cat (f <$> take i bucket))).
  replace (String.length prefix + 15 * i)%nat
    with (String.length (prefix +:+ cat (f <$> take i bucket)) + 0)%nat.
  - rewrite substring_append_skip.
    assert (String.length (f a) = 15%nat) as <-.
    { rewrite Forall_forall in Hlen. apply Hlen.
      by eapply list_elem_of_lookup_2. }
    apply substring_append_prefix.
  - rewrite length_append, (length_cat_columns f (take i bucket)),
      length_take by (by apply Forall_take).
    apply lookup_lt_Some in Hi. lia.
Qed.

(** The text [format_solution] returns is, machine after machine of
    [all_machines], a header line and an interval line, each ended by a
    newline and holding none inside.  When the names and the intervals of
    the tasks of a machine are at most 15 characters long, the header line
    is the text [Machine k: ] followed by one column of 15 characters for
    every task of the machine's bucket (as the call leaves it), and the
    interval line is 11 spaces followed by one such column for every task:
    column [i] holds the name, or the interval, of task [i] of the bucket,
    padded with spaces.  The columns of the two lines are at the same
    offsets exactly when the machine id has one digit: from machine 10 on
    the two lines of a block are out of step. *)
Theorem format_solution_columns (self : JSPModel) (assigned_jobs : Schedule) :
  Forall (λ k, Forall (λ a, (String.length (task_name a) ≤ 15)%nat ∧
                            (String.length (interval_text a) ≤ 15)%nat)
                      (assigned_jobs !!! k)) (all_machines (data self)) →
  ∃ blocks : list (string * string),
    (format_solution self assigned_jobs).1 =
      cat ((λ b, (b.1 +:+ newline) +:+ (b.2 +:+ newline)) <$> blocks) ∧
    Forall2 (λ k b,
       let bucket := (format_solution self assigned_jobs).2 !!! k in
       count_lines b.1 = 0%nat ∧ count_lines b.2 = 0%nat ∧
       String.length b.1 =
         (10 + String.length (str k) + 15 * length bucket)%nat ∧
       String.length b.2 = (11 + 15 * length bucket)%nat ∧
       (0 ≤ k → String.length b.1 = String.length b.2 ↔ k ≤ 9) ∧
       ∀ (i : nat) a, bucket !! i = Some a →
         String.substring (10 + String.length (str k) + 15 * i) 15 b.1 =
           task_name a +:+ spaces (15 - String.length (task_name a)) ∧
         String.substring (11 + 15 * i) 15 b.2 =
           interval_text a +:+ spaces (15 - String.length (interval_text a)))
      (all_machines (data self)) blocks.
Proof.
  intros Hfit.
  exists ((λ k, (header_line k (list_sort (assigned_jobs !!! k)),
                 interval_line (list_sort (assigned_jobs !!! k))))
            <$> all_machines (data self)).
  split.
  { rewrite format_solution_text, <-list_fmap_compose. done. }
  apply Forall2_fmap_r, Forall_Forall2_diag, Forall_forall. intros k Hk.
  rewrite Forall_forall in Hfit. specialize (Hfit k Hk).
  rewrite (lookup_total_alt (format_solution _ _).2), format_solution_mapping,
    decide_True by done.
  unfold compose. cbv beta zeta. cbn [fst snd from_option]. unfold id.
  set (bucket := list_sort (assigned_jobs !!! k)).
  assert (Forall (λ a, String.length (column_name a) = 15%nat) bucket ∧
          Forall (λ a, String.length (column_interval a) = 15%nat) bucket)
    as [Hn Hv].
  { unfold bucket. rewrite list_sort_Permutation.
    split; (eapply Forall_impl; [exact Hfit|]); intros a [H1 H2]; cbv beta.
    - change (column_name a) with (ljust 15 (task_name a)).
      rewrite length_ljust. lia.
    - change (column_interval a) with (ljust 15 (interval_text a)).
      rewrite length_ljust. lia. }
  assert (String.length ("Machine " +:+ str k +:+ ": ") =
          (10 + String.length (str k))%nat) as Hpre.
  { rewrite !length_append. simpl. lia. }
  assert (String.length (header_line k bucket) =
          (10 + String.length (str k) + 15 * length bucket)%nat) as Hln.
  { unfold header_line.
    by rewrite length_append, (length_cat_columns _ _ Hn), Hpre. }
  assert (String.length (interval_line bucket) =
          (11 + 15 * length bucket)%nat) as Hlv.
  { unfold interval_line.
    by rewrite length_append, length_spaces, (length_cat_columns _ _ Hv). }
  split_and!; try done.
  - apply count_lines_header_line.
  - apply count_lines_interval_line.
  - intros Hk0. rewrite Hln, Hlv, <-(str_length_one k Hk0). lia.
  - intros i a Hi. split.
    + rewrite <-Hpre. unfold header_line.
      by rewrite (substring_column column_name _ bucket i a Hn Hi).
    + replace 11%nat with (String.length (spaces 11)) at 1
        by apply length_spaces.
      unfold interval_line.
      by rewrite (substring_column column_interval _ bucket i a Hv Hi).
Qed.

Lemma format_solution_columns_example :
  let self := JSPModel_init main_data in
  let assigned_jobs : Schedule :=
    {[ 1 := [{| assigned_task_type.start := 2; assigned_task_type.job := 0;
                assigned_task_type.index := 1;
                assigned_task_type.duration := 2 |}] ]} in
  ∃ blocks : list (string * string),
    (format_solution self assigned_jobs).1 =
      cat ((λ b, (b.1 +:+ newline) +:+ (b.2 +:+ newline)) <$> blocks) ∧
    Forall2 (λ k b,
       let bucket := (format_solution self assigned_jobs).2 !!! k in
       count_lines b.1 = 0%nat ∧ count_lines b.2 = 0%nat ∧
       String.length b.1 =
         (10 + String.length (str k) + 15 * length bucket)%nat ∧
       String.length b.2 = (11 + 15 * length bucket)%nat ∧
       (0 ≤ k → String.length b.1 = String.length b.2 ↔ k ≤ 9) ∧
       ∀ (i : nat) a, bucket !! i = Some a →
         String.substring (10 + String.length (str k) + 15 * i) 15 b.1 =
           task_name a +:+ spaces (15 - String.length (task_name a)) ∧
         String.substring (11 + 15 * i) 15 b.2 =
           interval_text a +:+ spaces (15 - String.length (interval_text a)))
      [0; 1; 2] blocks.
Proof.
  intros self assigned_jobs.
  apply (format_solution_columns self assigned_jobs).
  apply (bool_decide_unpack _). by vm_compute.
Defined.

(** ** The model as a formulation of the problem *)

Lemma pairwise_lookup {A} (R : A → A → Prop) (l : list A) p q x y :
  pairwise R l → (p < q)%nat → l !! p = Some x → l !! q = Some y → R x y.
Proof.
  revert p q. induction l as [|z l IH]; intros p q Hpw Hpq Hp Hq; [done|].
  destruct Hpw as [Hz Hpw]. destruct q as [|q]; [lia|]. simpl in Hq.
  destruct p as [|p].
  - injection Hp as ->. rewrite Forall_forall in Hz. apply Hz.
    by eapply list_elem_of_lookup_2.
  - simpl in Hp. apply (IH p q); [done|lia|done..].
Qed.

(** The model the three building methods leave, for an instance whose jobs
    all have an operation and whose numbers the engine accepts. *)
Lemma build_run (self : JSPModel) :
  Forall (λ job, job ≠ []) (jobs_data (data self)) →
  declarable (data self) → int64 (horizon (data self)) →
  ∃ self3 tasks n obj ends,
    (createVars;; createConstrs;; createObj) self = (Return tt, self3) ∧
    data self3 = data self ∧ solver self3 = solver self ∧
    status self3 = status self ∧
    all_tasks self3 = Some tasks ∧ tasks_separate n tasks ∧
    (∀ j t, is_Some (tasks !! (j, t)) ↔
            ∃ op, (j, (t, op)) ∈ operations (jobs_data (data self))) ∧
    (∀ o, o ∈ operations (jobs_data (data self)) →
       ∃ x, tasks !! (o.1, o.2.1) = Some x ∧
            declared (model self3) (horizon (data self)) o x) ∧
    (∀ c prev next, c ∈ consecutive (jobs_data (data self)) →
       tasks !! (c.1, c.2) = Some prev → tasks !! (c.1, c.2 + 1) = Some next →
       GreaterOrEqual (task_type.start next) (task_type.end_ prev)
         ∈ constraints (model self3)) ∧
    (∀ k, k ∈ all_machines (data self) →
       ∃ ivs, NoOverlap ivs ∈ constraints (model self3) ∧
              intervals_of tasks
                (filter (λ o, o.2.2.1 = k)
                        (operations (jobs_data (data self)))) ivs) ∧
    MaxEquality obj ends ∈ constraints (model self3) ∧
    obj_var self3 = Some obj ∧ objective (model self3) = Some obj ∧
    Forall2 (λ '(j, job) v, ∃ last, tasks !! (j, len job - 1) = Some last ∧
                                    v = task_type.end_ last)
            (enumerate (jobs_data (data self))) ends.
Proof.
  intros Hne Hacc Hhz.
  destruct (createVars_run self Hacc)
    as (self1 & tasks & m2i & Hrun1 & Hd1 & Hso1 & Hst1 & _ & _ & _ & HT & HI &
        Hdom & Hsep).
  destruct (createVars_model self Hacc)
    as (self1' & tasks' & m2i' & vs & ivs0 & Hrun1' & HT' & HI' & _ & _ & _ &
        _ & Hdecl & Hm2i & _).
  rewrite Hrun1 in Hrun1'. injection Hrun1' as <-.
  rewrite HT in HT'. injection HT' as <-.
  rewrite HI in HI'. injection HI' as <-.
  assert (∀ j t op, (j, (t, op)) ∈ operations (jobs_data (data self1)) →
                    is_Some (tasks !! (j, t))) as Hcover.
  { intros j t op Hop. apply Hdom. exists op. by rewrite <-Hd1. }
  destruct (createConstrs_model self1 tasks m2i HT HI Hcover)
    as (self2 & precedences & m2i2 & Hrun2 &
        (Hd2 & Hso2 & Hst2 & _ & HT2 & Hv2 & Hiv2 & _ & Hc2) & Hprec & _).
  rewrite HT in HT2.
  destruct (createObj_run self2 tasks HT2)
    as (self3 & ends & Hrun3 & Hv3 & Hiv3 & Hc3 & Hends & Hobj & Hov & Hd3 &
        HT3 & Hso3 & Hst3).
  { by rewrite Hd2. }
  { by rewrite Hd2, Hd1. }
  { by rewrite Hd2, Hd1. }
  rewrite Hd2, Hd1 in *.
  exists self3, tasks, (length (variables (model self1))),
    (Var (length (variables (model self2)))), ends.
  split_and!; try congruence; try done.
  - unfold mbind, M_bind. by rewrite Hrun1, Hrun2, Hrun3.
  - intros o Ho. destruct (Hdecl o Ho) as (x & Hx & Hdx). exists x.
    split; [done|]. eapply (declared_mono (model self1)); [| |exact Hdx].
    + by rewrite Hv3, Hv2.
    + by rewrite Hiv3, Hiv2, app_nil_r.
  - intros c prev next [p Hp]%list_elem_of_lookup Hprev Hnext.
    destruct (Forall2_lookup_l _ _ _ _ _ Hprec Hp)
      as (k & Hk & prev' & next' & Hprev' & Hnext' & ->).
    rewrite Hprev in Hprev'. rewrite Hnext in Hnext'.
    injection Hprev' as <-. injection Hnext' as <-.
    rewrite Hc3, Hc2. apply elem_of_app. left. apply elem_of_app. right.
    apply elem_of_app. right. by eapply list_elem_of_lookup_2.
  - intros k Hk. exists (m2i !!! k). split; [|apply Hm2i].
    rewrite Hc3, Hc2. apply elem_of_app. left. apply elem_of_app. right.
    apply elem_of_app. left.
    by apply (list_elem_of_fmap_2 (λ k, NoOverlap (m2i !!! k))).
  - rewrite Hc3. apply elem_of_app. right. left.
Qed.

Lemma declared_end v m hz o x :
  satisfies v m → declared m hz o x →
  v (task_type.end_ x) = v (task_type.start x) + o.2.2.2.
Proof.
  intros [Hiv _] (a & b & i & -> & _ & _ & Hi). simpl.
  rewrite Forall_forall in Hiv.
  apply (Hiv _ (list_elem_of_lookup_2 _ _ _ Hi)).
Qed.

Lemma satisfies_constraint v m c :
  satisfies v m → c ∈ constraints m → constraint_holds m v c.
Proof. intros [_ Hc]. rewrite Forall_forall in Hc. apply Hc. Qed.

(** [solve] and then [extract_solution], on a model that has the variables
    of every operation, when the engine answers [OPTIMAL] or [FEASIBLE]. *)
Lemma solve_extract_run engine (self : JSPModel) tasks :
  all_tasks self = Some tasks →
  (∀ j t op, (j, (t, op)) ∈ operations (jobs_data (data self)) →
             is_Some (tasks !! (j, t))) →
  (engine (model self)).1 = OPTIMAL ∨ (engine (model self)).1 = FEASIBLE →
  ∃ assigned_jobs self',
    (solve engine;; extract_solution) self =
      (Return (Some assigned_jobs), self') ∧
    ∀ k, Forall2 (assigned_of tasks
                    {| value := (engine (model self)).2; reads := [] |})
           (filter (λ o, o.2.2.1 = k) (operations (jobs_data (data self))))
           (assigned_jobs !!! k).
Proof.
  intros HT Hcover Hst.
  set (sv := {| value := (engine (model self)).2; reads := [] |}).
  set (self' := set_status (Some (engine (model self)).1)
                  (set_solver (Some sv) self)).
  destruct (extract_solution_run self' tasks sv)
    as (assigned_jobs & starts & Hrun & _ & _ & Hbuckets); try done.
  { simpl. destruct Hst as [->| ->]; eauto. }
  eexists assigned_jobs, _. split; [|done].
  unfold mbind, M_bind. rewrite solve_run. fold sv self'. by rewrite Hrun.
Qed.

Lemma assigned_of_elem tasks sv (os : list (Z * (Z * Operation))) k bucket a :
  Forall2 (assigned_of tasks sv) (filter (λ o, o.2.2.1 = k) os) bucket →
  a ∈ bucket →
  ∃ o x, o ∈ os ∧ o.2.2.1 = k ∧ tasks !! (o.1, o.2.1) = Some x ∧
         a = {| assigned_task_type.start := value sv (task_type.start x);
                assigned_task_type.job := o.1;
                assigned_task_type.index := o.2.1;
                assigned_task_type.duration := o.2.2.2 |}.
Proof.
  intros HF [p Hp]%list_elem_of_lookup.
  destruct (Forall2_lookup_r _ _ _ _ _ HF Hp) as (o & Ho & x & Hx & ->).
  apply list_elem_of_lookup_2, list_elem_of_filter in Ho as [Hk Ho].
  by exists o, x.
Qed.

(** For an instance whose jobs all have an operation and whose horizon and
    durations the engine accepts, the three building methods return; and if
    the engine then answers [OPTIMAL] or [FEASIBLE]
    with an assignment that satisfies the model, the schedule
    [extract_solution] returns after [solve] keeps the order of every job:
    an operation starts no earlier than the operation before it in its job
    ends. *)
Theorem schedule_precedence engine (self : JSPModel) :
  Forall (λ job, job ≠ []) (jobs_data (data self)) →
  declarable (data self) → int64 (horizon (data self)) →
  ∃ self3,
    (createVars;; createConstrs;; createObj) self = (Return tt, self3) ∧
    ((engine (model self3)).1 = OPTIMAL ∨ (engine (model self3)).1 = FEASIBLE →
     satisfies (engine (model self3)).2 (model self3) →
     ∃ assigned_jobs self5,
       (solve engine;; extract_solution) self3 =
         (Return (Some assigned_jobs), self5) ∧
       ∀ ka kb a b,
         a ∈ assigned_jobs !!! ka → b ∈ assigned_jobs !!! kb →
         assigned_task_type.job a = assigned_task_type.job b →
         assigned_task_type.index b = assigned_task_type.index a + 1 →
         assigned_task_type.start a + assigned_task_type.duration a
           ≤ assigned_task_type.start b).
Proof.
  intros Hne Hacc Hhz.
  destruct (build_run self Hne Hacc Hhz)
    as (self3 & tasks & n & obj & ends & Hrun & Hd & _ & _ & HT & Hsep & Hdom &
        Hdecl & Hprec & _).
  exists self3. split; [done|]. intros Hst Hsat.
  destruct (solve_extract_run engine self3 tasks HT)
    as (assigned_jobs & self5 & Hrun' & Hbuckets); [|done|].
  { intros j t op Hop. apply Hdom. exists op. by rewrite <-Hd. }
  rewrite Hd in Hbuckets.
  exists assigned_jobs, self5. split; [done|].
  intros ka kb a b Ha Hb Hjob Hidx.
  destruct (assigned_of_elem _ _ _ _ _ _ (Hbuckets ka) Ha)
    as ([j [t [m d]]] & x & Ho & _ & Hx & ->).
  destruct (assigned_of_elem _ _ _ _ _ _ (Hbuckets kb) Hb)
    as ([j' [t' [m' d']]] & x' & Ho' & _ & Hx' & ->).
  simpl in *. subst j' t'.
  assert ((j, t) ∈ consecutive (jobs_data (data self))) as Hc.
  { apply elem_of_operations in Ho as (n1 & m1 & job1 & -> & -> & Hn1 & Hm1).
    apply elem_of_operations in Ho' as (n2 & m2 & job2 & Hn & Hm & Hn2 & Hm2).
    assert (n2 = n1) as -> by lia. rewrite Hn1 in Hn2. injection Hn2 as <-.
    apply elem_of_consecutive. exists n1, job1.
    apply lookup_lt_Some in Hm2. unfold len. split_and!; [done|done|lia|lia]. }
  pose proof (satisfies_constraint _ _ _ Hsat (Hprec (j, t) x x' Hc Hx Hx'))
    as Hge. simpl in Hge.
  destruct (Hdecl _ Ho) as (x0 & Hx0 & Hdx). simpl in Hx0.
  rewrite Hx in Hx0. injection Hx0 as <-.
  pose proof (declared_end _ _ _ _ _ Hsat Hdx) as Hend. simpl in Hend. lia.
Qed.

Lemma schedule_precedence_main :
  ∃ assigned_jobs self5,
    (solve main_engine;; extract_solution) main_objective =
      (Return (Some assigned_jobs), self5) ∧
    ∀ ka kb a b,
      a ∈ assigned_jobs !!! ka → b ∈ assigned_jobs !!! kb →
      assigned_task_type.job a = assigned_task_type.job b →
      assigned_task_type.index b = assigned_task_type.index a + 1 →
      assigned_task_type.start a + assigned_task_type.duration a
        ≤ assigned_task_type.start b.
Proof.
  destruct (schedule_precedence main_engine (JSPModel_init main_data))
    as (self3 & Hrun & H).
  - by repeat constructor.
  - apply (bool_decide_unpack (declarable main_data)). by vm_compute.
  - apply (bool_decide_unpack (int64 21)). by vm_compute.
  - assert (self3 = main_objective) as ->.
    { vm_compute in Hrun. by injection Hrun as <-. }
    apply H.
    + by left.
    + apply (bool_decide_unpack (satisfies _ _)). by vm_compute.
Defined.

Lemma intervals_disjoint_sym m v h1 h2 :
  intervals_disjoint m v h1 h2 → intervals_disjoint m v h2 h1.
Proof.
  destruct h1 as [i1], h2 as [i2]. unfold intervals_disjoint.
  destruct (interval_vars m !! i1), (interval_vars m !! i2); tauto.
Qed.

Lemma pairwise_lookup_ne {A} (R : A → A → Prop) (l : list A) p q x y :
  (∀ x y, R x y → R y x) →
  pairwise R l → p ≠ q → l !! p = Some x → l !! q = Some y → R x y.
Proof.
  intros Hsym Hpw Hpq Hp Hq.
  destruct (decide (p < q)%nat) as [Hlt|Hge].
  - by eapply pairwise_lookup.
  - apply Hsym. eapply (pairwise_lookup R l q p); [done|lia|done..].
Qed.

(** Under the same conditions, the schedule never has two operations on one
    machine of [all_machines] at the same time: of two tasks of a bucket,
    one ends before the other starts. *)
Theorem schedule_no_overlap engine (self : JSPModel) :
  Forall (λ job, job ≠ []) (jobs_data (data self)) →
  declarable (data self) → int64 (horizon (data self)) →
  ∃ self3,
    (createVars;; createConstrs;; createObj) self = (Return tt, self3) ∧
    ((engine (model self3)).1 = OPTIMAL ∨ (engine (model self3)).1 = FEASIBLE →
     satisfies (engine (model self3)).2 (model self3) →
     ∃ assigned_jobs self5,
       (solve engine;; extract_solution) self3 =
         (Return (Some assigned_jobs), self5) ∧
       ∀ k p q a b,
         k ∈ all_machines (data self) → p ≠ q →
         (assigned_jobs !!! k) !! p = Some a →
         (assigned_jobs !!! k) !! q = Some b →
         assigned_task_type.start a + assigned_task_type.duration a
           ≤ assigned_task_type.start b ∨
         assigned_task_type.start b + assigned_task_type.duration b
           ≤ assigned_task_type.start a).
Proof.
  intros Hne Hacc Hhz.
  destruct (build_run self Hne Hacc Hhz)
    as (self3 & tasks & n & obj & ends & Hrun & Hd & _ & _ & HT & Hsep & Hdom &
        Hdecl & _ & Hno & _).
  exists self3. split; [done|]. intros Hst Hsat.
  destruct (solve_extract_run engine self3 tasks HT)
    as (assigned_jobs & self5 & Hrun' & Hbuckets); [|done|].
  { intros j t op Hop. apply Hdom. exists op. by rewrite <-Hd. }
  rewrite Hd in Hbuckets.
  exists assigned_jobs, self5. split; [done|].
  intros k p q a b Hk Hpq Ha Hb.
  destruct (Hno k Hk) as (ivs & Hin & Hivs).
  pose proof (satisfies_constraint _ _ _ Hsat Hin) as Hpw. simpl in Hpw.
  destruct (Forall2_lookup_r _ _ _ _ _ (Hbuckets k) Ha)
    as (o & Ho & x & Hx & ->).
  destruct (Forall2_lookup_r _ _ _ _ _ (Hbuckets k) Hb)
    as (o' & Ho' & x' & Hx' & ->).
  destruct (Forall2_lookup_l _ _ _ _ _ Hivs Ho) as (iv & Hiv & x0 & Hx0 & ->).
  destruct (Forall2_lookup_l _ _ _ _ _ Hivs Ho') as (iv' & Hiv' & x0' & Hx0' & ->).
  rewrite Hx in Hx0. injection Hx0 as <-.
  rewrite Hx' in Hx0'. injection Hx0' as <-.
  pose proof (pairwise_lookup_ne _ _ _ _ _ _
                (intervals_disjoint_sym _ _) Hpw Hpq Hiv Hiv') as Hdis.
  apply list_elem_of_lookup_2, list_elem_of_filter in Ho as [_ Ho].
  apply list_elem_of_lookup_2, list_elem_of_filter in Ho' as [_ Ho'].
  destruct (Hdecl _ Ho) as (y & Hy & Hdy).
  destruct (Hdecl _ Ho') as (y' & Hy' & Hdy').
  rewrite Hx in Hy. injection Hy as <-.
  rewrite Hx' in Hy'. injection Hy' as <-.
  pose proof (declared_end _ _ _ _ _ Hsat Hdy) as Hend.
  pose proof (declared_end _ _ _ _ _ Hsat Hdy') as Hend'.
  destruct Hdy as (a1 & b1 & i1 & -> & _ & _ & Hi1).
  destruct Hdy' as (a2 & b2 & i2 & -> & _ & _ & Hi2).
  unfold intervals_disjoint in Hdis. simpl in *.
  rewrite Hi1, Hi2 in Hdis. simpl in Hdis. lia.
Qed.

Lemma schedule_no_overlap_main :
  ∃ assigned_jobs self5,
    (solve main_engine;; extract_solution) main_objective =
      (Return (Some assigned_jobs), self5) ∧
    ∀ k p q a b,
      k ∈ all_machines main_data → p ≠ q →
      (assigned_jobs !!! k) !! p = Some a →
      (assigned_jobs !!! k) !! q = Some b →
      assigned_task_type.start a + assigned_task_type.duration a
        ≤ assigned_task_type.start b ∨
      assigned_task_type.start b + assigned_task_type.duration b
        ≤ assigned_task_type.start a.
Proof.
  destruct (schedule_no_overlap main_engine (JSPModel_init main_data))
    as (self3 & Hrun & H).
  - by repeat constructor.
  - apply (bool_decide_unpack (declarable main_data)). by vm_compute.
  - apply (bool_decide_unpack (int64 21)). by vm_compute.
  - assert (self3 = main_objective) as ->.
    { vm_compute in Hrun. by injection Hrun as <-. }
    apply H.
    + by left.
    + apply (bool_decide_unpack (satisfies _ _)). by vm_compute.
Defined.

(** Under the same conditions, the value of the variable [makespan], which
    is the objective, is the time at which the last operation of some job
    ends, and no job has its last operation end later. *)
Theorem schedule_makespan engine (self : JSPModel) :
  Forall (λ job, job ≠ []) (jobs_data (data self)) →
  declarable (data self) → int64 (horizon (data self)) →
  ∃ self3 obj,
    (createVars;; createConstrs;; createObj) self = (Return tt, self3) ∧
    obj_var self3 = Some obj ∧ objective (model self3) = Some obj ∧
    ((engine (model self3)).1 = OPTIMAL ∨ (engine (model self3)).1 = FEASIBLE →
     satisfies (engine (model self3)).2 (model self3) →
     ∃ assigned_jobs self5,
       (solve engine;; extract_solution) self3 =
         (Return (Some assigned_jobs), self5) ∧
       (∀ (i : nat) job k a,
          jobs_data (data self) !! i = Some job →
          a ∈ assigned_jobs !!! k →
          assigned_task_type.job a = Z.of_nat i →
          assigned_task_type.index a = len job - 1 →
          assigned_task_type.start a + assigned_task_type.duration a
            ≤ (engine (model self3)).2 obj) ∧
       (∃ (i : nat) job k a,
          jobs_data (data self) !! i = Some job ∧
          a ∈ assigned_jobs !!! k ∧
          assigned_task_type.job a = Z.of_nat i ∧
          assigned_task_type.index a = len job - 1 ∧
          (engine (model self3)).2 obj =
            assigned_task_type.start a + assigned_task_type.duration a)).
Proof.
  intros Hne Hacc Hhz.
  destruct (build_run self Hne Hacc Hhz)
    as (self3 & tasks & n & obj & ends & Hrun & Hd & _ & _ & HT & Hsep & Hdom &
        Hdecl & _ & _ & Hmax & Hov & Hobj & Hends).
  exists self3, obj. split_and!; try done. intros Hst Hsat.
  destruct (solve_extract_run engine self3 tasks HT)
    as (assigned_jobs & self5 & Hrun' & Hbuckets); [|done|].
  { intros j t op Hop. apply Hdom. exists op. by rewrite <-Hd. }
  rewrite Hd in Hbuckets.
  exists assigned_jobs, self5. split; [done|].
  destruct (satisfies_constraint _ _ _ Hsat Hmax) as [Hub Hex]. simpl in *.
  rewrite Forall_forall in Hub. apply Exists_exists in Hex as (e & He & Hve).
  split.
  - intros i job k a Hi Ha Hjob Hidx.
    destruct (assigned_of_elem _ _ _ _ _ _ (Hbuckets k) Ha)
      as ([j [t [m d]]] & x & Ho & _ & Hx & ->).
    simpl in *. subst j t.
    assert ((Z.of_nat i, job) ∈ enumerate (jobs_data (data self))) as Hin
      by (apply elem_of_enumerate; eauto).
    apply list_elem_of_lookup in Hin as [p Hp].
    destruct (Forall2_lookup_l _ _ _ _ _ Hends Hp) as (v & Hv & last & Hlast & ->).
    rewrite Hx in Hlast. injection Hlast as <-.
    destruct (Hdecl _ Ho) as (x0 & Hx0 & Hdx). simpl in Hx0.
    rewrite Hx in Hx0. injection Hx0 as <-.
    pose proof (declared_end _ _ _ _ _ Hsat Hdx) as Hend. simpl in Hend.
    specialize (Hub _ (list_elem_of_lookup_2 _ _ _ Hv)). simpl. lia.
  - apply list_elem_of_lookup in He as [p Hp].
    destruct (Forall2_lookup_r _ _ _ _ _ Hends Hp)
      as ([j job] & Hjob & last & Hlast & ->).
    apply list_elem_of_lookup_2, elem_of_enumerate in Hjob as (i & -> & Hi).
    destruct (proj1 (Hdom _ _) (mk_is_Some _ _ Hlast)) as [[m d] Hop].
    destruct (Hdecl _ Hop) as (x0 & Hx0 & Hdx). simpl in Hx0.
    rewrite Hlast in Hx0. injection Hx0 as <-.
    pose proof (declared_end _ _ _ _ _ Hsat Hdx) as Hend. simpl in Hend.
    assert ((Z.of_nat i, (len job - 1, (m, d))) ∈
            filter (λ o, o.2.2.1 = m) (operations (jobs_data (data self))))
      as [q Hq]%list_elem_of_lookup by by apply list_elem_of_filter.
    destruct (Forall2_lookup_l _ _ _ _ _ (Hbuckets m) Hq)
      as (a & Ha & x & Hx & Heq).
    simpl in Hx. rewrite Hlast in Hx. injection Hx as <-.
    exists i, job, m, a. split_and!; [done| |by subst a..|].
    + by eapply list_elem_of_lookup_2.
    + subst a. simpl. lia.
Qed.

Lemma schedule_makespan_main :
  ∃ assigned_jobs self5,
    (solve main_engine;; extract_solution) main_objective =
      (Return (Some assigned_jobs), self5) ∧
    (∀ (i : nat) job k a,
       main_jobs_data !! i = Some job → a ∈ assigned_jobs !!! k →
       assigned_task_type.job a = Z.of_nat i →
       assigned_task_type.index a = len job - 1 →
       assigned_task_type.start a + assigned_task_type.duration a ≤ 11) ∧
    (∃ (i : nat) job k a,
       main_jobs_data !! i = Some job ∧ a ∈ assigned_jobs !!! k ∧
       assigned_task_type.job a = Z.of_nat i ∧
       assigned_task_type.index a = len job - 1 ∧
       11 = assigned_task_type.start a + assigned_task_type.duration a).
Proof.
  destruct (schedule_makespan main_engine (JSPModel_init main_data))
    as (self3 & obj & Hrun & Hov & _ & H).
  - by repeat constructor.
  - apply (bool_decide_unpack (declarable main_data)). by vm_compute.
  - apply (bool_decide_unpack (int64 21)). by vm_compute.
  - assert (self3 = main_objective) as ->.
    { vm_compute in Hrun. by injection Hrun as <-. }
    vm_compute in Hov. injection Hov as <-.
    apply H.
    + by left.
    + apply (bool_decide_unpack (satisfies _ _)). by vm_compute.
Defined.

(** ** The report of an extracted schedule *)

(** After a successful search on a model that has the variables of every
    operation, the text [format_solution] makes of the mapping
    [extract_solution] returned has, for every machine of [all_machines],
    one block whose columns are the assigned tasks of the operations on that
    machine, each once, in sorted order.  An operation on a machine that is
    not in [all_machines] is in the mapping but not in the text. *)
Theorem report_of_extracted (self : JSPModel) (sv : CpSolver) :
  status self = Some OPTIMAL ∨ status self = Some FEASIBLE →
  tasks_cover self → solver self = Some sv →
  ∃ assigned_jobs self' tasks,
    extract_solution self = (Return (Some assigned_jobs), self') ∧
    all_tasks self = Some tasks ∧
    (format_solution self' assigned_jobs).1 =
      cat ((λ k, machine_block k (list_sort (assigned_jobs !!! k)))
             <$> all_machines (data self)) ∧
    ∀ k,
      list_sort (assigned_jobs !!! k) ≡ₚ assigned_jobs !!! k ∧
      Forall2 (assigned_of tasks sv)
        (filter (λ o, o.2.2.1 = k) (operations (jobs_data (data self))))
        (assigned_jobs !!! k) ∧
      length (list_sort (assigned_jobs !!! k)) =
        length (filter (λ o, o.2.2.1 = k)
                       (operations (jobs_data (data self)))).
Proof.
  intros Hst (tasks & HT & Hcover)%tasks_cover_iff Hsv.
  destruct (extract_solution_run self tasks sv Hst Hsv HT Hcover)
    as (assigned_jobs & starts & Hrun & _ & _ & Hbuckets).
  eexists assigned_jobs, _, tasks. split_and!; [exact Hrun|done| |].
  - by rewrite format_solution_text.
  - intros k. split_and!; [apply list_sort_Permutation|done|].
    rewrite (Permutation_length (list_sort_Permutation _)).
    symmetry. apply (Forall2_length _ _ _ (Hbuckets k)).
Qed.

Lemma report_of_extracted_main :
  ∃ assigned_jobs self' tasks,
    extract_solution main_solved = (Return (Some assigned_jobs), self') ∧
    all_tasks main_solved = Some tasks ∧
    (format_solution self' assigned_jobs).1 =
      cat ((λ k, machine_block k (list_sort (assigned_jobs !!! k)))
             <$> all_machines main_data) ∧
    ∀ k,
      list_sort (assigned_jobs !!! k) ≡ₚ assigned_jobs !!! k ∧
      Forall2 (assigned_of tasks
                 {| value := (main_engine CpModel_new).2; reads := [] |})
        (filter (λ o, o.2.2.1 = k) (operations main_jobs_data))
        (assigned_jobs !!! k) ∧
      length (list_sort (assigned_jobs !!! k)) =
        length (filter (λ o, o.2.2.1 = k) (operations main_jobs_data)).
Proof.
  apply (report_of_extracted main_solved
           {| value := (main_engine CpModel_new).2; reads := [] |}).
  - left. reflexivity.
  - apply (bool_decide_unpack (tasks_cover main_solved)). by vm_compute.
  - reflexivity.
Defined.
